(** * DistributedTable: a shallow embedding of
      fastlib/trunk/contrib/dongryel/thesis_research/core/table/distributed_table.h

    Conventions of the embedding.

    - C++ [int] values (ranks, tags, positions, counts) are integers of [Z];
      signed overflow is undefined in the source and is not modelled.
    - [double] values are rationals ([Qc]).  The product in [SelectSubset_],
      the sums, the quotient and the products in [ReplenishNodes_] and the
      quotient in [TakeLeafNodeOwnerShip_] are rounded as IEEE 754 binary64
      rounds them: to the nearest value with a significand of 53 bits and an
      exponent of at least -1074, ties to the even significand.  The vote
      counters of [GetLeafNodeMembershipCounts_] count points one by one and
      are added exactly.  Overflow to an infinity and NaN are not modelled.
    - A pointer that may be [NULL] is an [option]; dereferencing [None],
      reading a column outside a matrix or an entry outside an array, and a
      blocking receive that no send matches are [Fault]s of [Outcome].
    - The pseudo-random generator is an explicit tape of raw draws that is
      threaded through the code that consumes it.
    - The MPI group is a list of per-rank states; the point-to-point traffic
      of one process is the list of operations it issues, in program order.
    - The classes the header includes but the sources do not hold (the
      table and its tree builder, the auction, the clustering solver) are
      type classes: their operations are parameters, their contracts
      laws. *)

From Stdlib Require Import ZArith List Lia QArith Qcanon Qround Qabs Qpower
  Sorted.
From stdpp Require Import base tactics option numbers list.

Local Open Scope Z_scope.

(** ** Outcomes of fallible code *)

Inductive fault : Type :=
  | NullDereference
  | OutOfBounds
  | UnmatchedReceive.

Inductive Outcome (A : Type) : Type :=
  | Ret (a : A)
  | Fault (why : fault).
Arguments Ret {A} a.
Arguments Fault {A} why.

Global Instance Outcome_ret : MRet Outcome := λ A a, Ret a.
Global Instance Outcome_bind : MBind Outcome := λ A B f m,
  match m with
  | Ret a => f a
  | Fault w => Fault w
  end.
Global Instance Outcome_fmap : FMap Outcome := λ A B f m,
  match m with
  | Ret a => Ret (f a)
  | Fault w => Fault w
  end.

Definition returns {A} (m : Outcome A) : bool :=
  match m with Ret _ => true | Fault _ => false end.

(** [p->...] on a pointer that may be [NULL]. *)
Definition deref {A} (p : option A) : Outcome A :=
  match p with
  | Some a => Ret a
  | None => Fault NullDereference
  end.

(** [a[i]] with an [int] index on an array or a [std::vector] of known extent. *)
Definition at_index {A} (a : list A) (i : Z) : Outcome A :=
  if i <? 0 then Fault OutOfBounds
  else match a !! Z.to_nat i with
       | Some x => Ret x
       | None => Fault OutOfBounds
       end.

(** [v.size()] *)
Definition size_of {A} (v : list A) : Z := Z.of_nat (length v).

(** ** Randomness *)

(** Modelled from the spec: [core::math::RandInt] and [core::math::Random]
    (core/math is not among the sources).  [RandInt(lo, hi)] draws an integer
    of the half-open range from [lo] up to [hi]; the generator is a tape of
    raw draws, one cell consumed per call, and a spent tape keeps answering
    with the lower end. *)
Definition Rng : Type := list Z.

Definition RandInt2 (lo hi : Z) (g : Rng) : Z * Rng :=
  match g with
  | [] => (lo, [])
  | x :: g' => (lo + x mod (hi - lo), g')
  end.

Definition RandInt (hi : Z) (g : Rng) : Z * Rng := RandInt2 0 hi g.

Definition Random (lo hi : Z) (g : Rng) : Z * Rng := RandInt2 lo hi g.

(** ** Points, index entries, trees and tables *)

Definition DensePoint : Type := list Qc.

(** ** Arithmetic on doubles *)

(** The integer nearest to [x]; of two that are equally near, the even one. *)
Definition rne (x : Q) : Z :=
  let f := Qfloor x in
  match (x - inject_Z f ?= 1 # 2)%Q with
  | Lt => f
  | Gt => f + 1
  | Eq => if Z.even f then f else f + 1
  end.

(** For a positive [x], the exponent [e] with [2 ^ e <= x < 2 ^ (e + 1)]. *)
Definition binade (x : Q) : Z :=
  let l := Z.log2 (Qnum x) - Z.log2 (Zpos (Qden x)) in
  if Qle_bool (2 ^ l) x then l else l - 1.

(** The exponent of the last place of the doubles next to [x]: 52 below the
    binade of [x], and -1074 in the subnormal range. *)
Definition quantum (x : Q) : Z := Z.max (binade (Qabs x) - 52) (-1074).

Definition round_Q (x : Q) : Q :=
  if Qeq_bool x 0 then 0%Q
  else (inject_Z (rne (x / 2 ^ quantum x)) * 2 ^ quantum x)%Q.

(** The double nearest to a real result. *)
Definition round_double (x : Qc) : Qc := Q2Qc (round_Q x).

(** [a + b], [a * b] and [a / b] on doubles *)
Definition double_add (a b : Qc) : Qc := round_double (a + b).
Definition double_mul (a b : Qc) : Qc := round_double (a * b).
Definition double_div (a b : Qc) : Qc := round_double (a / b).

(** [static_cast<double>(n)] of an [int]: every [int] is a double. *)
Definition double_of_int (n : Z) : Qc := Q2Qc (inject_Z n).

(** [1.0 / static_cast<double>(n)] *)
Definition reciprocal (n : Z) : Qc := double_div 1 (double_of_int n).

(** [arma::vec]: [zeros()], [u += v] and [c * v], coordinate by coordinate *)
Definition zeros (n : nat) : DensePoint := replicate n 0%Qc.
Definition vec_add (u v : DensePoint) : DensePoint := zip_with double_add u v.
Definition vec_scale (c : Qc) (v : DensePoint) : DensePoint :=
  double_mul c <$> v.

(** The index type of [TableType]:
    [std::pair<int, std::pair<int, int> >]. *)
Definition IndexEntry : Type := Z * (Z * Z).

(** Modelled from the spec: [IndexUtil<IndexType>::Extract(array, position)]
    (core/table/index_util.h is not among the sources) reads the entry at
    [position] and projects the point identifier out of it.  The projection is
    the trait's own business and stays a parameter. *)
Class IndexUtil := { entry_point_id : IndexEntry → Z }.

Definition Extract {util : IndexUtil} (array : list IndexEntry) (position : Z)
    : Outcome Z :=
  entry_point_id <$> at_index array position.

(** Modelled from the spec: the node type [TreeType] of
    core/tree/gen_metric_tree.h (not among the sources), cut down to what
    distributed_table.h reads: the centre of the bound and the range of
    storage-order positions below the node.  A default-constructed node
    ([new TreeType()]) has an empty bound and no points. *)
Record TreeType : Type := mkTree {
  bound_center : DensePoint;
  node_begin : Z;
  node_count : Z
}.

Definition node_end (n : TreeType) : Z := node_begin n + node_count n.

Definition TreeType_new : TreeType :=
  {| bound_center := []; node_begin := 0; node_count := 0 |}.

(** [node->bound().center().Copy(p)] *)
Definition set_center (n : TreeType) (p : DensePoint) : TreeType :=
  {| bound_center := p; node_begin := node_begin n; node_count := node_count n |}.

(** Modelled from the spec: [core::table::Table] (core/table/table.h is not
    among the sources), by the interface of the local tree builder: the dense
    matrix as the list of its columns, the two permutation arrays and the
    tree, [NULL] until the table is indexed. *)
Record TableType : Type := mkTable {
  n_attributes : Z;
  data : list DensePoint;
  old_from_new : list IndexEntry;
  new_from_old : list IndexEntry;
  get_tree : option TreeType
}.

Definition n_entries (t : TableType) : Z := size_of (data t).

(** [data().MakeColumnVector(i, entry)] *)
Definition MakeColumnVector (t : TableType) (i : Z) : Outcome DensePoint :=
  at_index (data t) i.

(** ** The distributed table *)

Record DistributedTable : Type := mkDistributedTable {
  owned_table_ : option TableType;
  local_n_entries_ : option (list Z);
  global_table_ : option TableType;
  table_outbox_group_comm_size_ : Z
}.

(** [DistributedTable()] *)
Definition DistributedTable_new : DistributedTable :=
  {| owned_table_ := None;
     local_n_entries_ := None;
     global_table_ := None;
     table_outbox_group_comm_size_ := -1 |}.

(** [Init(file_name, comm)]: [loaded] is the table that
    [owned_table_->Init(file_name, rank)] reads, [comm_size] is [comm.size()]
    and [gathered] is what the all-gather of the shard sizes delivers. *)
Definition Init (loaded : TableType) (comm_size : Z) (gathered : list Z)
    (t : DistributedTable) : DistributedTable :=
  {| owned_table_ := Some loaded;
     local_n_entries_ := Some gathered;
     global_table_ := global_table_ t;
     table_outbox_group_comm_size_ := comm_size |}.

(** [local_n_entries(rank_in)]: the value returned and the arguments of the
    diagnostic [printf], when the call prints one. *)
Definition local_n_entries (t : DistributedTable) (rank_in : Z)
    : Outcome Z * option (Z * Z) :=
  if rank_in >=? table_outbox_group_comm_size_ t
  then (Ret (-1), Some (rank_in, table_outbox_group_comm_size_ t))
  else (a ← deref (local_n_entries_ t); at_index a rank_in, None).

(** [IsIndexed()] *)
Definition IsIndexed (t : DistributedTable) : Outcome bool :=
  g ← deref (global_table_ t);
  mret (bool_decide (is_Some (get_tree g))).

(** [iterator_get_(reordered_position, entry)] *)
Definition iterator_get_ (t : DistributedTable) (reordered_position : Z)
    : Outcome DensePoint :=
  g ← deref (global_table_ t);
  MakeColumnVector g reordered_position.

(** [iterator_get_id_(reordered_position)] *)
Definition iterator_get_id_ {util : IndexUtil} (t : DistributedTable)
    (reordered_position : Z) : Outcome Z :=
  indexed ← IsIndexed t;
  if negb indexed then mret reordered_position
  else g ← deref (global_table_ t);
       Extract (old_from_new g) reordered_position.

(** ** The traversal cursor

    [table_] is a back-reference: the operations take the table it points to
    as an argument. *)
Record TreeIterator : Type := mkTreeIterator {
  begin_ : Z;
  end_ : Z;
  current_index_ : Z
}.

(** [get_node_iterator(node)] *)
Definition get_node_iterator (node : TreeType) : TreeIterator :=
  {| begin_ := node_begin node;
     end_ := node_end node;
     current_index_ := node_begin node - 1 |}.

(** [get_node_iterator(begin, count)] *)
Definition get_node_iterator_range (begin count : Z) : TreeIterator :=
  {| begin_ := begin;
     end_ := begin + count;
     current_index_ := begin - 1 |}.

Definition HasNext (it : TreeIterator) : bool :=
  current_index_ it <? end_ it - 1.

Definition advance (it : TreeIterator) : TreeIterator :=
  {| begin_ := begin_ it; end_ := end_ it;
     current_index_ := current_index_ it + 1 |}.

(** [Next(entry, point_id)] *)
Definition Next {util : IndexUtil} (it : TreeIterator) (table : DistributedTable)
    : Outcome (TreeIterator * DensePoint * Z) :=
  let it' := advance it in
  entry ← iterator_get_ table (current_index_ it');
  point_id ← iterator_get_id_ table (current_index_ it');
  mret (it', entry, point_id).

(** [get(i, entry)] and [get_id(i, point_id)] *)
Definition get (it : TreeIterator) (table : DistributedTable) (i : Z)
    : Outcome DensePoint :=
  iterator_get_ table (begin_ it + i).

Definition get_id {util : IndexUtil} (it : TreeIterator) (table : DistributedTable)
    (i : Z) : Outcome Z :=
  iterator_get_id_ table (begin_ it + i).

(** [RandomPick(entry, point_id)] *)
Definition RandomPick (it : TreeIterator)
    (table : DistributedTable) (g : Rng)
    : Outcome (TreeIterator * DensePoint * Z) * Rng :=
  let '(point_id, g') := Random (begin_ it) (end_ it) g in
  (entry ← iterator_get_ table point_id; mret (it, entry, point_id), g').

(** ** Leaf-set padding *)

(** The inner loop of [ReplenishNodes_]: [num_samples] times, draw an index
    into the current vector and add that node's centre to the accumulator.
    The indices drawn are returned next to the sum. *)
Fixpoint add_random_centers (num_samples : nat) (top_leaf_nodes : list TreeType)
    (acc : DensePoint) (g : Rng) : Outcome (DensePoint * list Z * Rng) :=
  match num_samples with
  | O => mret (acc, [], g)
  | S n =>
      let '(k, g1) := RandInt (size_of top_leaf_nodes) g in
      node ← at_index top_leaf_nodes k;
      '(sum, ks, g2) ←
        add_random_centers n top_leaf_nodes (vec_add acc (bound_center node)) g1;
      mret (sum, k :: ks, g2)
  end.

(** The outer loop: [num_additional] times, average [num_samples] random
    centres and push a fresh node that carries the average. *)
Fixpoint replenish_loop (num_additional : nat) (num_samples : Z) (dim : nat)
    (top_leaf_nodes : list TreeType) (g : Rng)
    : Outcome (list TreeType * Rng) :=
  match num_additional with
  | O => mret (top_leaf_nodes, g)
  | S n =>
      '(sum, _, g1) ←
        add_random_centers (Z.to_nat num_samples) top_leaf_nodes (zeros dim) g;
      let tmp_point := vec_scale (reciprocal num_samples) sum in
      replenish_loop n num_samples dim
        (top_leaf_nodes ++ [set_center TreeType_new tmp_point]) g1
  end.

(** [ReplenishNodes_(top_leaf_nodes)]; [comm_size] is the member
    [table_outbox_group_comm_size_], the size [Init] recorded. *)
Definition ReplenishNodes_ (comm_size : Z) (top_leaf_nodes : list TreeType)
    (g : Rng) : Outcome (list TreeType * Rng) :=
  first ← at_index top_leaf_nodes 0;
  let dim := length (bound_center first) in
  let num_additional := comm_size - size_of top_leaf_nodes in
  let '(r, g1) := RandInt (size_of top_leaf_nodes) g in
  let num_samples := Z.max 1 r in
  replenish_loop (Z.to_nat num_additional) num_samples dim top_leaf_nodes g1.

(** The padding step of [IndexData]: the guard compares with
    [table_outbox_group_comm.size()], the size of the communicator the call
    was given ([comm_size]); [ReplenishNodes_] pads up to the member
    [table_outbox_group_comm_size_] ([recorded_size]). *)
Definition pad_leaf_nodes (comm_size recorded_size : Z)
    (top_leaf_nodes : list TreeType) (g : Rng)
    : Outcome (list TreeType * Rng) :=
  if size_of top_leaf_nodes <? comm_size
  then ReplenishNodes_ recorded_size top_leaf_nodes g
  else mret (top_leaf_nodes, g).

(** The mean of a list of centres of dimension [dim] as [ReplenishNodes_]
    computes it: the centres are added to a vector of zeros in the order
    given, and the sum is multiplied by [1.0 / s]; every sum, the quotient
    and every product is rounded. *)
Definition centroid_mean (dim : nat) (cs : list DensePoint) : DensePoint :=
  vec_scale (reciprocal (size_of cs)) (foldl vec_add (zeros dim) cs).

(** ** Point migration: [ReadjustCentroids_] *)

(** What [DistributedLocalKMeans::Compute] hands back to its caller. *)
Record KMeansResult : Type := mkKMeansResult {
  total_num_points_owned : Z;
  point_assignments : list Z
}.

(** Modelled from the spec: [OffsetDenseMatrix]
    (core/table/offset_dense_matrix.h is not among the sources).
    [Init(rank, data, old_from_new, point_assignments, dest)] designates the
    fragment of the shard that [dest] should receive: the columns whose
    assignment is [dest], in storage order.  The provenance array that travels
    with a fragment is written by that class; the model tracks the point
    columns only. *)
Definition contribution (owned : TableType) (assignments : list Z) (dest : Z)
    : list DensePoint :=
  (filter (λ pa, pa.2 = dest) (zip (data owned) assignments)).*1.

(** Modelled from the spec: [Table::Init(n_attributes, n_entries)] of the
    local tree builder allocates a matrix of [n_entries] columns and no
    tree.  What a fresh matrix holds and what a negative count gives are not
    said: the model fills the matrix with zeros and takes a negative count
    for zero, and the theorems of this file say nothing of the columns no
    fragment was written to, nor of a negative total. *)
Definition Table_Init (n_attr n : Z) : TableType :=
  {| n_attributes := n_attr;
     data := replicate (Z.to_nat n) (zeros (Z.to_nat n_attr));
     old_from_new := replicate (Z.to_nat n) (0, (0, 0));
     new_from_old := replicate (Z.to_nat n) (0, (0, 0));
     get_tree := None |}.

(** The values [i = 1 .. n] of a neighbour loop. *)
Definition neighbor_offsets (n : Z) : list Z := seqZ 1 n.

Definition left_window (comm_size rank neighbor_radius : Z) : Z :=
  Z.min rank neighbor_radius.
Definition right_window (comm_size rank neighbor_radius : Z) : Z :=
  Z.min (comm_size - rank - 1) neighbor_radius.

(** The non-blocking sends, as (destination, tag), in the order posted. *)
Definition send_plan (comm_size rank : Z) : list (Z * Z) :=
  let neighbor_radius := comm_size in
  ((λ i, (rank - i, i))
     <$> neighbor_offsets (left_window comm_size rank neighbor_radius))
  ++ ((λ i, (rank + i, neighbor_radius + i))
     <$> neighbor_offsets (right_window comm_size rank neighbor_radius)).

Record Message : Type := mkMessage {
  msg_dest : Z;
  msg_tag : Z;
  msg_payload : list DensePoint
}.

Definition posted_sends (comm_size rank : Z) (owned : TableType)
    (km : KMeansResult) : list Message :=
  (λ dt, {| msg_dest := dt.1; msg_tag := dt.2;
            msg_payload := contribution owned (point_assignments km) dt.1 |})
    <$> send_plan comm_size rank.

(** Where a fragment of the new shard comes from: a blocking receive from
    [source] with [tag], or the copy of the points the process keeps. *)
Inductive Inflow : Type :=
  | FromRank (source tag : Z)
  | FromSelf.

(** The receive loops and the copy between them, in program order. *)
Definition receive_order (comm_size rank : Z) : list Inflow :=
  let neighbor_radius := comm_size in
  ((λ i, FromRank (rank - i) (neighbor_radius + i))
     <$> neighbor_offsets (left_window comm_size rank neighbor_radius))
  ++ [FromSelf]
  ++ ((λ i, FromRank (rank + i) i)
     <$> neighbor_offsets (right_window comm_size rank neighbor_radius)).

(** The messages in flight: the sends every rank has posted. *)
Abbreviation Network := (list (list Message)).

(** A blocking [recv(source, tag)] at rank [me]. *)
Definition recv (net : Network) (me source tag : Z)
    : Outcome (list DensePoint) :=
  if source <? 0 then Fault UnmatchedReceive
  else match net !! Z.to_nat source with
       | None => Fault UnmatchedReceive
       | Some msgs =>
           match filter (λ m, msg_dest m = me ∧ msg_tag m = tag) msgs with
           | m :: _ => Ret (msg_payload m)
           | [] => Fault UnmatchedReceive
           end
       end.

(** Writing a fragment through [new_table_ptr]. *)
Definition write_columns (buffer : list DensePoint) (offset : Z)
    (fragment : list DensePoint) : Outcome (list DensePoint) :=
  if (0 <=? offset) && (offset + size_of fragment <=? size_of buffer)
  then Ret (take (Z.to_nat offset) buffer ++ fragment
            ++ drop (Z.to_nat offset + length fragment) buffer)
  else Fault OutOfBounds.

(** The state of the receive phase: the new matrix, how far [new_table_ptr]
    has moved (in columns), and which inflow was written at which offset. *)
Record Receiving : Type := mkReceiving {
  new_data : list DensePoint;
  running_offset : Z;
  placed : list (Inflow * Z)
}.

(** The fragment an inflow delivers: [recv] into [tmp_offset], or
    [tmp_offset.Extract] of the points that stay. *)
Definition fetch (net : Network) (rank : Z) (owned : TableType)
    (km : KMeansResult) (src : Inflow) : Outcome (list DensePoint) :=
  match src with
  | FromRank source tag => recv net rank source tag
  | FromSelf => Ret (contribution owned (point_assignments km) rank)
  end.

Definition receive_one (net : Network) (rank : Z) (owned : TableType)
    (km : KMeansResult) (st : Receiving) (src : Inflow) : Outcome Receiving :=
  fragment ← fetch net rank owned km src;
  buffer ← write_columns (new_data st) (running_offset st) fragment;
  mret {| new_data := buffer;
          running_offset := running_offset st + size_of fragment;
          placed := placed st ++ [(src, running_offset st)] |}.

Fixpoint receive_all (net : Network) (rank : Z) (owned : TableType)
    (km : KMeansResult) (srcs : list Inflow) (st : Receiving)
    : Outcome Receiving :=
  match srcs with
  | [] => mret st
  | src :: srcs' =>
      st' ← receive_one net rank owned km st src;
      receive_all net rank owned km srcs' st'
  end.

(** [ReadjustCentroids_] at one rank, after the clustering solver has
    answered [km]: the new owned table and the placement of its fragments. *)
Definition ReadjustCentroids_ (comm_size rank : Z) (net : Network)
    (owned : TableType) (km : KMeansResult)
    : Outcome (TableType * list (Inflow * Z)) :=
  let new_local_table :=
    Table_Init (n_attributes owned) (total_num_points_owned km) in
  st ← receive_all net rank owned km (receive_order comm_size rank)
        {| new_data := data new_local_table; running_offset := 0;
           placed := [] |};
  mret ({| n_attributes := n_attributes new_local_table;
           data := new_data st;
           old_from_new := old_from_new new_local_table;
           new_from_old := new_from_old new_local_table;
           get_tree := get_tree new_local_table |}, placed st).

(** The group: every rank with its shard and its solver answer. *)
Abbreviation Group := (list (TableType * KMeansResult)).

Definition network_of (procs : Group) : Network :=
  imap (λ r p, posted_sends (size_of procs) (Z.of_nat r) p.1 p.2) procs.

Definition ReadjustCentroids_group (procs : Group)
    : list (Outcome (TableType * list (Inflow * Z))) :=
  imap (λ r p, ReadjustCentroids_ (size_of procs) (Z.of_nat r)
                 (network_of procs) p.1 p.2) procs.

(** Consistency of the solver's answers across the group: one destination
    per local point, every destination a rank of the group, and the total a
    rank is told it will own is the number of points destined for it. *)
Definition count_assigned (procs : Group) (dest : Z) : Z :=
  foldr Z.add 0
    ((λ p, size_of (filter (λ d, d = dest) (point_assignments p.2))) <$> procs).

Record solver_consistent (procs : Group) : Prop := mkConsistent {
  one_destination_per_point :
    Forall (λ p, length (point_assignments p.2) = length (data p.1)) procs;
  destinations_in_group :
    Forall (λ p, Forall (λ d, 0 ≤ d < size_of procs) (point_assignments p.2))
           procs;
  totals_match :
    (λ p, total_num_points_owned p.2) <$> procs
    = (λ r, count_assigned procs (Z.of_nat r)) <$> seq 0 (length procs)
}.

Definition total_entries (shards : list TableType) : Z :=
  foldr Z.add 0 (n_entries <$> shards).

Definition all_points (shards : list TableType) : list DensePoint :=
  concat (data <$> shards).

(** ** [IndexData]: what a rank puts on the wire, and what the group ends
    up owning *)

(** The calls of one process into the communicator and into the two
    distributed solvers. *)
Inductive Comm : Type :=
  | Gather (root : Z)
  | Broadcast (root : Z)
  | AllGather
  | Barrier
  | WaitAll
  | Send (dest tag : Z)
  | Recv (source : Z) (tag : option Z)
  | Isend (dest tag : Z)
  | AuctionAssign
  | LocalKMeansCompute.

Definition point_to_point (c : Comm) : bool :=
  match c with
  | Send _ _ | Recv _ _ | Isend _ _ => true
  | _ => false
  end.

(** Sample aggregation: the gather of the counts, then rank 0 receives one
    buffer from every other rank ([any_tag]) while the others send theirs. *)
Definition aggregate_samples_comm (comm_size rank : Z) : list Comm :=
  [Gather 0]
  ++ (if rank =? 0
      then (λ i, Recv i None) <$> seqZ 1 (comm_size - 1)
      else [Send 0 rank])
  ++ [Barrier].

(** [TakeLeafNodeOwnerShip_]: [Assign] is [DistributedAuction::Assign]. *)
Definition TakeLeafNodeOwnerShip_ (Assign : list Qc → Qc → Z) (comm_size : Z)
    (num_points_assigned_to_leaf_nodes : list Qc) : Z * list Comm :=
  if comm_size >? 1
  then (Assign num_points_assigned_to_leaf_nodes (reciprocal comm_size),
        [AuctionAssign])
  else (0, []).

Definition inflow_comm (src : Inflow) : list Comm :=
  match src with
  | FromRank source tag => [Recv source (Some tag)]
  | FromSelf => []
  end.

Definition ReadjustCentroids_comm (comm_size rank : Z) : list Comm :=
  [LocalKMeansCompute]
  ++ ((λ dt, Isend dt.1 dt.2) <$> send_plan comm_size rank)
  ++ (receive_order comm_size rank ≫= inflow_comm)
  ++ [WaitAll; WaitAll; Barrier].

Definition IndexData_comm (Assign : list Qc → Qc → Z) (comm_size rank : Z)
    (num_points_assigned_to_leaf_nodes : list Qc) : list Comm :=
  aggregate_samples_comm comm_size rank
  ++ [Broadcast 0]
  ++ (TakeLeafNodeOwnerShip_ Assign comm_size
        num_points_assigned_to_leaf_nodes).2
  ++ ReadjustCentroids_comm comm_size rank
  ++ [AllGather; AllGather].

(** Modelled from the spec: [Table::IndexData(metric, leaf_size)] of the
    local tree builder (core/table/table.h is not among the sources) builds
    the tree of a table and reorders its columns by the permutation it
    records; it neither adds nor removes a column. *)
Class LocalTreeBuilder : Type := {
  Table_IndexData : TableType → Z → TableType;
  Table_IndexData_data :
    ∀ t leaf_size, data (Table_IndexData t leaf_size) ≡ₚ data t;
  Table_IndexData_tree :
    ∀ t leaf_size, is_Some (get_tree (Table_IndexData t leaf_size))
}.

(** A collective completes when every member reaches it. *)
Fixpoint collect {A} (ms : list (Outcome A)) : Outcome (list A) :=
  match ms with
  | [] => mret []
  | m :: ms' => a ← m; as' ← collect ms'; mret (a :: as')
  end.

Definition owned_tables (tables : list DistributedTable)
    : Outcome (list TableType) :=
  collect ((λ t, deref (owned_table_ t)) <$> tables).

(** [IndexData] over the whole group, from the answers [kms] of the
    clustering solver on: migration, the local trees, the all-gather of the
    root centres into the global table and the all-gather of the sizes. *)
Definition migrate_and_index {builder : LocalTreeBuilder} (leaf_size : Z)
    (tables : list DistributedTable) (kms : list KMeansResult)
    : Outcome (list DistributedTable) :=
  owned ← owned_tables tables;
  moved ← collect (ReadjustCentroids_group (zip owned kms));
  let shards := (λ m, Table_IndexData m.1 leaf_size) <$> moved in
  roots ← collect ((λ s, deref (get_tree s)) <$> shards);
  _ ← collect ((λ t, deref (local_n_entries_ t)) <$> tables);
  let sizes := n_entries <$> shards in
  let summary (s : TableType) :=
    let g := Table_Init (n_attributes s) (size_of tables) in
    {| n_attributes := n_attributes g;
       data := bound_center <$> roots;
       old_from_new := old_from_new g;
       new_from_old := new_from_old g;
       get_tree := get_tree g |} in
  mret (zip_with
          (λ t s, {| owned_table_ := Some s;
                     local_n_entries_ := Some sizes;
                     global_table_ := Some (Table_IndexData (summary s) 1);
                     table_outbox_group_comm_size_ :=
                       table_outbox_group_comm_size_ t |})
          tables shards).

(** ** Readings of the specification that the code is compared with *)

(** The cursor as the specification words it: [Next] reads the owned shard
    and resolves the identifier through the shard's own permutation. *)
Definition Next_of_shard {util : IndexUtil} (it : TreeIterator)
    (table : DistributedTable) : Outcome (TreeIterator * DensePoint * Z) :=
  let it' := advance it in
  shard ← deref (owned_table_ table);
  entry ← MakeColumnVector shard (current_index_ it');
  point_id ← (if get_tree shard is Some _
              then Extract (old_from_new shard) (current_index_ it')
              else mret (current_index_ it'));
  mret (it', entry, point_id).

(** Padding as the specification words it: a sample size drawn afresh for
    every synthetic leaf. *)
Fixpoint replenish_loop_fresh (num_additional : nat) (L : Z) (dim : nat)
    (top_leaf_nodes : list TreeType) (g : Rng)
    : Outcome (list TreeType * Rng) :=
  match num_additional with
  | O => mret (top_leaf_nodes, g)
  | S n =>
      let '(r, g0) := RandInt L g in
      let num_samples := Z.max 1 r in
      '(sum, _, g1) ←
        add_random_centers (Z.to_nat num_samples) top_leaf_nodes (zeros dim) g0;
      let tmp_point := vec_scale (reciprocal num_samples) sum in
      replenish_loop_fresh n L dim
        (top_leaf_nodes ++ [set_center TreeType_new tmp_point]) g1
  end.

Definition ReplenishNodes_fresh (comm_size : Z) (top_leaf_nodes : list TreeType)
    (g : Rng) : Outcome (list TreeType * Rng) :=
  first ← at_index top_leaf_nodes 0;
  replenish_loop_fresh (Z.to_nat (comm_size - size_of top_leaf_nodes))
    (size_of top_leaf_nodes) (length (bound_center first)) top_leaf_nodes g.

(** ** Notions the properties are stated with *)

(** A synthetic leaf of the padding: a default node whose centre is the mean
    of [num_samples] centres picked from [pool]. *)
Definition averaged_leaf (num_samples : Z) (dim : nat) (pool : list TreeType)
    (leaf : TreeType) : Prop :=
  ∃ chosen : list TreeType,
    size_of chosen = num_samples
    ∧ Forall (λ c, c ∈ pool) chosen
    ∧ leaf = set_center TreeType_new
               (centroid_mean dim (bound_center <$> chosen)).

(** The raw draw number [k] of a tape; a spent tape keeps answering 0, which
    [RandInt] turns into the lower end of its range. *)
Definition raw_draw (g : Rng) (k : nat) : Z := default 0 (g !! k).

(** The indices [RandInt(hi)] returns in [count] consecutive calls, the
    first of which consumes the raw draw number [first]. *)
Definition drawn_indices (g : Rng) (first count : nat) (hi : Z) : list Z :=
  (λ i, raw_draw g (first + i) mod hi) <$> seq 0 count.

(** The rank a fragment comes from. *)
Definition inflow_rank (rank : Z) (src : Inflow) : Z :=
  match src with
  | FromRank source _ => source
  | FromSelf => rank
  end.

(** The offsets at which consecutive fragments start, from [start] on. *)
Fixpoint running_offsets (start : Z) (fragments : list (list DensePoint))
    : list Z :=
  match fragments with
  | [] => []
  | f :: fs => start :: running_offsets (start + size_of f) fs
  end.

(** The fragment of the shard of rank [source] that is destined for [dest]. *)
Definition fragment_for (procs : Group) (dest source : Z) : list DensePoint :=
  match procs !! Z.to_nat source with
  | Some p => contribution p.1 (point_assignments p.2) dest
  | None => []
  end.

(** ** Concrete inputs *)

Definition point2 (a b : Z) : DensePoint :=
  [Q2Qc (inject_Z a); Q2Qc (inject_Z b)].

(** An instance of the trait for the examples: the identifier is the first
    component of the inner pair. *)
Definition example_IndexUtil : IndexUtil :=
  {| entry_point_id := λ e, e.2.1 |}.

Definition example_shard : TableType :=
  {| n_attributes := 2;
     data := [point2 1 1; point2 2 2; point2 3 3];
     old_from_new := [(0, (2, 0)); (0, (0, 1)); (0, (1, 2))];
     new_from_old := [(0, (1, 0)); (0, (2, 1)); (0, (0, 2))];
     get_tree := Some (mkTree (point2 2 2) 0 3) |}.

Definition example_summary : TableType :=
  {| n_attributes := 2;
     data := [point2 9 9; point2 8 8];
     old_from_new := [(0, (1, 0)); (0, (0, 1))];
     new_from_old := [(0, (1, 0)); (0, (0, 1))];
     get_tree := Some (mkTree (point2 9 8) 0 2) |}.

Definition example_unindexed_summary : TableType :=
  {| n_attributes := 2;
     data := [point2 9 9; point2 8 8];
     old_from_new := [];
     new_from_old := [];
     get_tree := None |}.

Definition example_table : DistributedTable :=
  {| owned_table_ := Some example_shard;
     local_n_entries_ := Some [3; 4];
     global_table_ := Some example_summary;
     table_outbox_group_comm_size_ := 2 |}.

Definition example_cursor : TreeIterator := get_node_iterator_range 0 2.

Definition example_leaves : list TreeType :=
  [mkTree (point2 0 0) 0 3; mkTree (point2 4 2) 3 2].

Definition raw_shard (columns : list DensePoint) : TableType :=
  {| n_attributes := 2; data := columns; old_from_new := [];
     new_from_old := []; get_tree := None |}.

Definition example_group : Group :=
  [ (raw_shard [point2 0 0; point2 1 1; point2 2 2], mkKMeansResult 2 [0; 1; 2]);
    (raw_shard [point2 3 3; point2 4 4], mkKMeansResult 2 [0; 2]);
    (raw_shard [point2 5 5; point2 6 6], mkKMeansResult 3 [1; 2]) ].

(** A tree builder for the examples: it keeps the storage order and hangs a
    single root over the table. *)
Definition example_Table_IndexData (t : TableType) (leaf_size : Z) : TableType :=
  {| n_attributes := n_attributes t;
     data := data t;
     old_from_new := old_from_new t;
     new_from_old := new_from_old t;
     get_tree := Some (mkTree (zeros (Z.to_nat (n_attributes t))) 0 (n_entries t)) |}.

Definition example_LocalTreeBuilder : LocalTreeBuilder :=
  {| Table_IndexData := example_Table_IndexData;
     Table_IndexData_data := λ t _, Permutation_refl (data t);
     Table_IndexData_tree := λ t _, ex_intro _ _ eq_refl |}.

Definition example_fresh_table (shard : TableType) (sizes : list Z)
    : DistributedTable :=
  Init shard (size_of sizes) sizes DistributedTable_new.

Definition example_three_leaves : list TreeType :=
  [mkTree (point2 0 0) 0 3; mkTree (point2 4 2) 3 2; mkTree (point2 2 6) 5 4].

Definition example_tape : Rng := [1; 0; 2; 1; 2].

(** Four leaves on a line, at 1, 0, 0 and 0. *)
Definition example_unit_leaves : list TreeType :=
  [mkTree [1%Qc] 0 1; mkTree [0%Qc] 1 1; mkTree [0%Qc] 2 1;
   mkTree [0%Qc] 3 1].

Definition example_network : Network := network_of example_group.

Definition example_tables : list DistributedTable :=
  (λ p, example_fresh_table p.1 [3; 2; 2]) <$> example_group.

Definition example_single_shard : TableType :=
  raw_shard [point2 7 7; point2 8 8].

(** ** The rest of the cursor *)

(** [TreeIterator()] *)
Definition TreeIterator_new : TreeIterator :=
  {| begin_ := -1; end_ := -1; current_index_ := -1 |}.

(** [Reset()] *)
Definition Reset (it : TreeIterator) : TreeIterator :=
  {| begin_ := begin_ it; end_ := end_ it;
     current_index_ := begin_ it - 1 |}.

(** [count()] *)
Definition count (it : TreeIterator) : Z := end_ it - begin_ it.

(** The traversal loop of a user of the cursor,
    [while (it.HasNext()) { it.Next(&entry, &point_id); ... }], run for at
    most [fuel] rounds: the positions visited with what [Next] returned
    there, and the cursor the loop leaves behind. *)
Fixpoint drain {util : IndexUtil} (fuel : nat) (it : TreeIterator)
    (table : DistributedTable)
    : Outcome (list (Z * DensePoint * Z) * TreeIterator) :=
  match fuel with
  | O => mret ([], it)
  | S n =>
      if HasNext it
      then '(it', entry, point_id) ← Next it table;
           '(rest, it'') ← drain n it' table;
           mret ((current_index_ it', entry, point_id) :: rest, it'')
      else mret ([], it)
  end.

(** [direct_get_(point_id, entry)] *)
Definition direct_get_ {util : IndexUtil} (t : DistributedTable)
    (point_id : Z) : Outcome DensePoint :=
  indexed ← IsIndexed t;
  g ← deref (global_table_ t);
  if negb indexed then MakeColumnVector g point_id
  else position ← Extract (new_from_old g) point_id;
       MakeColumnVector g position.

(** [n_entries()] and [n_attributes()] of the distributed table *)
Definition DistributedTable_n_entries (t : DistributedTable) : Outcome Z :=
  n_entries <$> deref (owned_table_ t).

Definition DistributedTable_n_attributes (t : DistributedTable) : Outcome Z :=
  n_attributes <$> deref (owned_table_ t).

(** [Init] on every rank of a group: rank [r] loads [loaded !! r], and the
    all-gather hands every rank the sizes of all the shards, in rank order. *)
Definition Init_group (loaded : list TableType) : list DistributedTable :=
  (λ shard, Init shard (size_of loaded) (n_entries <$> loaded)
              DistributedTable_new) <$> loaded.

(** ** Subset sampling: [SelectSubset_] *)

(** [std::swap(indices[i], indices[j])] *)
Definition swap_at (indices : list Z) (i j : Z) : Outcome (list Z) :=
  x ← at_index indices i;
  y ← at_index indices j;
  mret (<[Z.to_nat i := y]> (<[Z.to_nat j := x]> indices)).

(** The shuffling loop, from [i] on, for [rounds] more rounds. *)
Fixpoint shuffle_prefix (rounds : nat) (i : Z) (indices : list Z) (g : Rng)
    : Outcome (list Z * Rng) :=
  match rounds with
  | O => mret (indices, g)
  | S n =>
      let '(random_index, g1) := RandInt2 i (size_of indices) g in
      indices' ← swap_at indices i random_index;
      shuffle_prefix n (i + 1) indices' g1
  end.

(** [std::max((int) floor(sample_probability_in * n_entries), 1)]: the
    product is a product of doubles. *)
Definition num_elements (sample_probability_in : Qc) (n : Z) : Z :=
  Z.max (Qfloor (double_mul sample_probability_in (double_of_int n))) 1.

(** [SelectSubset_(sample_probability_in, sampled_indices_out)]; [n] is
    [owned_table_->n_entries()]. *)
Definition SelectSubset_ (sample_probability_in : Qc) (n : Z)
    (sampled_indices_out : list Z) (g : Rng) : Outcome (list Z * Rng) :=
  let indices := seqZ 0 n in
  let k := num_elements sample_probability_in n in
  '(indices', g') ← shuffle_prefix (Z.to_nat k) 0 indices g;
  sampled ← collect (at_index indices' <$> seqZ 0 k);
  mret (sampled_indices_out ++ sampled, g').

(** ** Affinity voting: [GetLeafNodeMembershipCounts_] *)

(** What the bound of a node and the metric answer, and the largest
    [double]: [leaf_node_bound.MidDistanceSq(metric_in, point)] and
    [std::numeric_limits<double>::max()]. *)
Class MidDistance : Type := {
  MidDistanceSq : TreeType → DensePoint → Qc;
  DBL_MAX : Qc
}.

(** The loop over the leaves for one point, from leaf number [j] on:
    [best] is [(min_squared_mid_distance, min_index)]. *)
Fixpoint closest_leaf_from {metric : MidDistance} (leaves : list TreeType)
    (point : DensePoint) (j : Z) (best : Qc * Z) : Qc * Z :=
  match leaves with
  | [] => best
  | leaf :: rest =>
      let squared_mid_distance := MidDistanceSq leaf point in
      closest_leaf_from rest point (j + 1)
        (if decide (squared_mid_distance < best.1)%Qc
         then (squared_mid_distance, j) else best)
  end.

Definition closest_leaf {metric : MidDistance} (leaves : list TreeType)
    (point : DensePoint) : Z :=
  (closest_leaf_from leaves point 0 (DBL_MAX, -1)).2.

(** [points_assigned_to_node[i] = 0] for the first [n] entries, from [i] on *)
Fixpoint zero_counts (n : nat) (i : Z) (counts : list Qc)
    : Outcome (list Qc) :=
  match n with
  | O => mret counts
  | S n' =>
      _ ← at_index counts i;
      zero_counts n' (i + 1) (<[Z.to_nat i := 0%Qc]> counts)
  end.

(** [points_assigned_to_node[min_index] += 1.0] *)
Definition add_vote (counts : list Qc) (min_index : Z) : Outcome (list Qc) :=
  c ← at_index counts min_index;
  mret (<[Z.to_nat min_index := (c + 1)%Qc]> counts).

Fixpoint count_votes {metric : MidDistance} (leaves : list TreeType)
    (points : list DensePoint) (counts : list Qc) : Outcome (list Qc) :=
  match points with
  | [] => mret counts
  | point :: rest =>
      counts' ← add_vote counts (closest_leaf leaves point);
      count_votes leaves rest counts'
  end.

(** [GetLeafNodeMembershipCounts_]; [points] are the points
    [owned_table_->get(i, &point)] serves for [i = 0 .. n_entries - 1]. *)
Definition GetLeafNodeMembershipCounts_ {metric : MidDistance}
    (top_leaf_nodes : list TreeType) (points : list DensePoint)
    (points_assigned_to_node : list Qc) : Outcome (list Qc) :=
  zeroed ← zero_counts (length top_leaf_nodes) 0 points_assigned_to_node;
  count_votes top_leaf_nodes points zeroed.

Definition sum_counts (counts : list Qc) : Qc := foldr Qcplus 0%Qc counts.

(** ** Sample aggregation *)

(** A copy of [xs] to [buffer + offset]. *)
Definition write_at {A} (buffer : list A) (offset : Z) (xs : list A)
    : Outcome (list A) :=
  if (0 <=? offset) && (offset + size_of xs <=? size_of buffer)
  then Ret (take (Z.to_nat offset) buffer ++ xs
            ++ drop (Z.to_nat offset + length xs) buffer)
  else Fault OutOfBounds.

(** The loop of [CopyPointsIntoTemporaryBuffer_], from point number [i] on:
    [owned_table_->get(sampled_indices[i], tmp_buffer + i * n_attributes)]
    copies one column; [columns] are the columns at the sampled indices. *)
Fixpoint copy_columns (n_attr i : Z) (columns : list DensePoint)
    (tmp_buffer : list Qc) : Outcome (list Qc) :=
  match columns with
  | [] => mret tmp_buffer
  | column :: rest =>
      tmp_buffer' ← write_at tmp_buffer (i * n_attr) column;
      copy_columns n_attr (i + 1) rest tmp_buffer'
  end.

Definition CopyPointsIntoTemporaryBuffer_ (n_attr : Z)
    (columns : list DensePoint) : Outcome (list Qc) :=
  copy_columns n_attr 0 columns
    (replicate (Z.to_nat (size_of columns * n_attr)) 0%Qc).

(** The receive loop of rank 0 in [IndexData], for the ranks [i ..]:
    [incoming] are the buffers those ranks send, [counts] what the gather
    reported for them. *)
Fixpoint receive_samples (n_attr : Z) (counts : list Z)
    (incoming : list (list Qc)) (offset : Z) (table : list Qc)
    : Outcome (list Qc * Z) :=
  match counts, incoming with
  | c :: counts', payload :: incoming' =>
      let num_elements_to_receive := n_attr * c in
      if size_of payload <=? num_elements_to_receive
      then table' ← write_at table offset payload;
           receive_samples n_attr counts' incoming'
             (offset + num_elements_to_receive) table'
      else Fault OutOfBounds
  | [], [] => mret (table, offset)
  | _, _ => Fault UnmatchedReceive
  end.

(** Sample aggregation over the group: [samples !! r] are the columns rank
    [r] sampled.  The result is the matrix of [sampled_table] at rank 0, as
    the array of doubles the code fills, and the final [offset]. *)
Definition aggregate_samples (n_attr : Z) (samples : list (list DensePoint))
    : Outcome (list Qc * Z) :=
  tmp_buffers ← collect (CopyPointsIntoTemporaryBuffer_ n_attr <$> samples);
  let counts := size_of <$> samples in
  let total_num_samples := foldr Z.add 0 counts in
  let sampled_table :=
    replicate (Z.to_nat (n_attr * total_num_samples)) 0%Qc in
  match tmp_buffers, counts with
  | own :: others, own_count :: other_counts =>
      table ← write_at sampled_table 0 (take (Z.to_nat (n_attr * own_count)) own);
      receive_samples n_attr other_counts others (n_attr * own_count) table
  | _, _ => Fault OutOfBounds
  end.

(** What the shuffle keeps true of the index vector of a shard of [n]
    points: it lists every index once. *)
Definition lists_each_index (n : Z) (l : list Z) : Prop :=
  size_of l = n ∧ NoDup l ∧ ∀ x, x ∈ l ↔ 0 ≤ x < n.

(** The number of [points] whose closest leaf is number [j]. *)
Definition votes_for {metric : MidDistance} (leaves : list TreeType)
    (points : list DensePoint) (j : Z) : Z :=
  size_of (filter (λ point, closest_leaf leaves point = j) points).

(** A metric for the examples: the squared difference of the first
    coordinates, and a thousand for the largest [double]. *)
Definition example_MidDistance : MidDistance :=
  {| MidDistanceSq := λ leaf point,
       match bound_center leaf, point with
       | a :: _, b :: _ => ((a - b) * (a - b))%Qc
       | _, _ => 0%Qc
       end;
     DBL_MAX := Q2Qc (inject_Z 1000) |}.

Definition example_points : list DensePoint :=
  [point2 0 0; point2 5 5; point2 3 3; point2 1 0].

(** The doubles of a list of columns, column after column. *)
Definition flatten (columns : list DensePoint) : list Qc := concat columns.

(** ** [IndexData] from its first line *)

(** Modelled from the spec: [Table::get(i, point)] of core/table/table.h
    (not among the sources) hands out the point at position [i] of the
    matrix of the table. *)
Definition Table_get (t : TableType) (i : Z) : Outcome DensePoint :=
  MakeColumnVector t i.

(** Modelled from the spec: the tree rank 0 builds over the sample table,
    [sampled_table.IndexData(metric_in, 1, comm.size())], and the leaves
    [get_leaf_nodes] extracts from it (core/table/table.h is not among the
    sources).  The arguments are the attribute count, the number of points
    and the doubles of the sample table, and the number of leaves asked for.
    A tree over at least one point has at least one leaf. *)
Class SampleTreeBuilder : Type := {
  sample_leaf_nodes : Z → Z → list Qc → Z → list TreeType;
  sample_leaf_nodes_nonempty :
    ∀ n_attr n matrix max_num_leaf_nodes,
      0 < n → sample_leaf_nodes n_attr n matrix max_num_leaf_nodes ≠ []
}.

(** Modelled from the spec: the two distributed solvers
    (core/table/distributed_auction.h and
    core/tree/distributed_local_kmeans.h are not among the sources).  Both
    are collectives over the communicator: what a rank is answered depends
    on what every rank of the group submits.

    [Auction_Assign group rank affinities factor] is
    [DistributedAuction::Assign(comm, affinities, factor)] at [rank], when
    the ranks of the group submit the vectors [group]; with at least as many
    candidates as ranks it answers the index of a candidate.

    [LocalKMeans_Compute group rank neighbor_radius num_iterations] is
    [DistributedLocalKMeans::Compute] at [rank], when the ranks of the group
    call it with the shards and the centroids [group]. *)
Class DistributedSolvers : Type := {
  Auction_Assign : list (list Qc) → Z → list Qc → Qc → Z;
  Auction_Assign_valid :
    ∀ group rank affinities factor,
      0 < size_of group ≤ size_of affinities →
      0 ≤ Auction_Assign group rank affinities factor < size_of affinities;
  LocalKMeans_Compute : list (TableType * DensePoint) → Z → Z → Z → KMeansResult
}.

(** Lines 501 to 521 at one rank: the indices sampled, the temporary buffer
    with the sampled points, and the generator afterwards. *)
Definition draw_sample (sample_probability_in : Qc) (owned : TableType)
    (g : Rng) : Outcome (list Z * list Qc * Rng) :=
  '(sampled_indices, g') ←
    SelectSubset_ sample_probability_in (n_entries owned) [] g;
  columns ← collect (Table_get owned <$> sampled_indices);
  tmp_buffer ← CopyPointsIntoTemporaryBuffer_ (n_attributes owned) columns;
  mret (sampled_indices, tmp_buffer, g').

(** Lines 523 to 537 at rank 0: the sample table is allocated for the
    gathered [counts], the own buffer is copied to its front and the buffers
    of the other ranks are received behind it. *)
Definition assemble_sample_table (n_attr : Z) (counts : list Z)
    (tmp_buffers : list (list Qc)) : Outcome (list Qc * Z) :=
  let total_num_samples := foldr Z.add 0 counts in
  let sampled_table :=
    replicate (Z.to_nat (n_attr * total_num_samples)) 0%Qc in
  match tmp_buffers, counts with
  | own :: others, own_count :: other_counts =>
      table ← write_at sampled_table 0 (take (Z.to_nat (n_attr * own_count)) own);
      receive_samples n_attr other_counts others (n_attr * own_count) table
  | _, _ => Fault OutOfBounds
  end.

(** Lines 563 to 572 at one rank: the candidate list after padding, the
    votes of the owned points, and the generator afterwards. *)
Definition candidate_votes {metric : MidDistance} (comm_size : Z)
    (t : DistributedTable) (owned : TableType)
    (top_leaf_nodes : list TreeType) (g : Rng)
    : Outcome (list TreeType * list Qc * Rng) :=
  '(padded, g') ←
    pad_leaf_nodes comm_size (table_outbox_group_comm_size_ t)
      top_leaf_nodes g;
  points ← collect (Table_get owned <$> seqZ 0 (n_entries owned));
  votes ← GetLeafNodeMembershipCounts_ padded points
             (replicate (length padded) 0%Qc);
  mret (padded, votes, g').

(** Lines 576 to 578 and 198 at one rank: the leaf the rank takes and the
    centre it hands to the clustering solver. *)
Definition assigned_centroid (Assign : list Qc → Qc → Z) (comm_size : Z)
    (top_leaf_nodes : list TreeType)
    (num_points_assigned_to_leaf_nodes : list Qc) : Outcome DensePoint :=
  let leaf_node_assignment_index :=
    (TakeLeafNodeOwnerShip_ Assign comm_size
       num_points_assigned_to_leaf_nodes).1 in
  bound_center <$> at_index top_leaf_nodes leaf_node_assignment_index.

(** [IndexData] over the whole group, up to the call of the clustering
    solver: every rank comes with its table and its generator, and the
    result is the centroid each rank hands to the solver and the generator
    each rank is left with.  Every collective is a point where the ranks
    meet: the group goes on when every rank has reached it. *)
Definition IndexData_targets {sampler : SampleTreeBuilder}
    {metric : MidDistance} {solvers : DistributedSolvers}
    (sample_probability_in : Qc) (procs : list (DistributedTable * Rng))
    : Outcome (list DensePoint * list Rng) :=
  let comm_size := size_of procs in
  owned ← owned_tables procs.*1;
  sampled ← collect (zip_with (draw_sample sample_probability_in)
                       owned procs.*2);
  match owned with
  | [] => mret ([], [])
  | root :: _ =>
      let counts := (λ s, size_of s.1.1) <$> sampled in
      '(matrix, _) ← assemble_sample_table (n_attributes root) counts
                        ((λ s, s.1.2) <$> sampled);
      let top_leaf_nodes :=
        sample_leaf_nodes (n_attributes root) (foldr Z.add 0 counts) matrix
          comm_size in
      voted ← collect (zip_with
                         (λ to s, candidate_votes comm_size to.1 to.2
                                    top_leaf_nodes s.2)
                         (zip procs.*1 owned) sampled);
      let affinities := (λ v, v.1.2) <$> voted in
      targets ← collect (imap
                           (λ r v, assigned_centroid
                                     (Auction_Assign affinities (Z.of_nat r))
                                     comm_size v.1.1 v.1.2)
                           voted);
      mret (targets, (λ v, v.2) <$> voted)
  end.

(** The clustering solver over the group: [neighbor_radius] is the size of
    the communicator and [num_iterations] is 10. *)
Definition Compute_group {solvers : DistributedSolvers}
    (inputs : list (TableType * DensePoint)) : list KMeansResult :=
  imap (λ r _, LocalKMeans_Compute inputs (Z.of_nat r) (size_of inputs) 10)
    inputs.

(** [IndexData] over the whole group. *)
Definition IndexData_group {builder : LocalTreeBuilder}
    {sampler : SampleTreeBuilder} {metric : MidDistance}
    {solvers : DistributedSolvers} (leaf_size : Z)
    (sample_probability_in : Qc) (procs : list (DistributedTable * Rng))
    : Outcome (list (DistributedTable * Rng)) :=
  owned ← owned_tables procs.*1;
  '(targets, tapes) ← IndexData_targets sample_probability_in procs;
  tables' ← migrate_and_index leaf_size procs.*1
              (Compute_group (zip owned targets));
  mret (zip tables' tapes).

(** ** Collaborators for the examples *)

(** A sample tree with a single leaf, centred at the first sampled point. *)
Definition example_SampleTreeBuilder : SampleTreeBuilder :=
  {| sample_leaf_nodes := λ n_attr n matrix _,
       [mkTree (take (Z.to_nat n_attr) matrix) 0 n];
     sample_leaf_nodes_nonempty := λ _ _ _ _ _, ltac:(discriminate) |}.

(** A metric that saturates below the largest [double]. *)
Definition example_bounded_MidDistance : MidDistance :=
  {| MidDistanceSq := λ leaf point,
       match bound_center leaf, point with
       | a :: _, b :: _ =>
           if decide ((a - b) * (a - b) < Q2Qc (inject_Z 999))%Qc
           then ((a - b) * (a - b))%Qc else Q2Qc (inject_Z 999)
       | _, _ => 0%Qc
       end;
     DBL_MAX := Q2Qc (inject_Z 1000) |}.

(** Solvers for the examples: the auction gives every rank the leaf of its
    own number, and the clustering sends point [i] of rank [r] to rank
    [r + i] modulo the group size. *)
Definition example_destinations (comm_size rank : Z) (shard : TableType)
    : list Z :=
  imap (λ i _, (rank + Z.of_nat i) mod comm_size) (data shard).

Definition example_Assign (group : list (list Qc)) (rank : Z)
    (affinities : list Qc) (factor : Qc) : Z :=
  if decide (0 ≤ rank < size_of affinities) then rank else 0.

Definition example_Compute (group : list (TableType * DensePoint))
    (rank neighbor_radius num_iterations : Z) : KMeansResult :=
  {| total_num_points_owned :=
       foldr Z.add 0
         (imap (λ r input,
                  size_of (filter (λ d, d = rank)
                             (example_destinations (size_of group)
                                (Z.of_nat r) input.1)))
            group);
     point_assignments :=
       match group !! Z.to_nat rank with
       | Some input => example_destinations (size_of group) rank input.1
       | None => []
       end |}.

Definition example_Assign_valid (group : list (list Qc)) (rank : Z)
    (affinities : list Qc) (factor : Qc)
    (H : 0 < size_of group ≤ size_of affinities)
    : 0 ≤ example_Assign group rank affinities factor < size_of affinities :=
  match decide (0 ≤ rank < size_of affinities) as d
    return 0 ≤ (if d then rank else 0) < size_of affinities
  with
  | left Hin => Hin
  | right _ => conj (Z.le_refl 0) (Z.lt_le_trans _ _ _ (proj1 H) (proj2 H))
  end.

Definition example_DistributedSolvers : DistributedSolvers :=
  {| Auction_Assign := example_Assign;
     Auction_Assign_valid := example_Assign_valid;
     LocalKMeans_Compute := example_Compute |}.

Definition example_procs : list (DistributedTable * Rng) :=
  zip example_tables
    [[4; 1; 7; 2; 8; 3]; [0; 3; 5; 1; 6; 2]; [6; 2; 9; 1; 0; 5]].

Definition example_single_proc : DistributedTable * Rng :=
  (example_fresh_table example_single_shard [2], [3; 1; 4]).

(** [IndexData] with the collaborators of the examples, leaf size 2. *)
Definition example_IndexData_targets (p : Qc)
    (procs : list (DistributedTable * Rng))
    : Outcome (list DensePoint * list Rng) :=
  IndexData_targets (sampler := example_SampleTreeBuilder)
    (metric := example_bounded_MidDistance)
    (solvers := example_DistributedSolvers) p procs.

Definition example_IndexData (p : Qc) (procs : list (DistributedTable * Rng))
    : Outcome (list (DistributedTable * Rng)) :=
  IndexData_group (builder := example_LocalTreeBuilder)
    (sampler := example_SampleTreeBuilder)
    (metric := example_bounded_MidDistance)
    (solvers := example_DistributedSolvers) 2 p procs.

(** A tree builder for the examples that keeps the storage order and
    records it: both permutation arrays are the identity. *)
Definition identity_permutation (n : Z) : list IndexEntry :=
  (λ i, (0, (i, 0))) <$> seqZ 0 n.

Definition example_recording_IndexData (t : TableType) (leaf_size : Z)
    : TableType :=
  {| n_attributes := n_attributes t;
     data := data t;
     old_from_new := identity_permutation (n_entries t);
     new_from_old := identity_permutation (n_entries t);
     get_tree := Some (mkTree (zeros (Z.to_nat (n_attributes t))) 0 (n_entries t)) |}.

Definition example_recording_builder : LocalTreeBuilder :=
  {| Table_IndexData := example_recording_IndexData;
     Table_IndexData_data := λ t _, Permutation_refl (data t);
     Table_IndexData_tree := λ t _, ex_intro _ _ eq_refl |}.

(** ** What the cursor needs of the tree builder *)

(** What the local tree builder promises of its two permutation arrays: the
    entry of [old_from_new] at a position names a point, and [new_from_old]
    leads from that point back to the position. *)
Definition permutations_inverse {util : IndexUtil} {builder : LocalTreeBuilder}
    : Prop :=
  ∀ t leaf_size position,
    0 ≤ position < n_entries t →
    ∃ e, old_from_new (Table_IndexData t leaf_size) !! Z.to_nat position
         = Some e
         ∧ Extract (new_from_old (Table_IndexData t leaf_size))
             (entry_point_id e) = Ret position.

(** * Properties *)

(** Closed equations between values that hold rationals: evaluate, then
    compare the rationals by their canonical fractions. *)
Ltac qc_compute :=
  vm_compute;
  repeat first
    [ reflexivity
    | apply Qc_is_canon; reflexivity
    | progress f_equal ].

(** ** Rounding *)

Lemma rne_floor (x : Q) : Qfloor x ≤ rne x ≤ Qfloor x + 1.
Proof.
  unfold rne. destruct (_ ?= _)%Q; [destruct (Z.even _) | |]; lia.
Qed.

Lemma rne_le (x : Q) (K : Z) : (x <= inject_Z K)%Q → rne x ≤ K.
Proof.
  intros Hx. pose proof (Qfloor_resp_le _ _ Hx) as Hf. rewrite Qfloor_Z in Hf.
  destruct (Z.eq_dec (Qfloor x) K) as [Heq | Hne].
  - assert (x == inject_Z K)%Q as HxK.
    { apply Qle_antisym; [exact Hx |]. rewrite <- Heq. apply Qfloor_le. }
    unfold rne. rewrite Heq.
    assert ((x - inject_Z K ?= 1 # 2)%Q = Lt) as ->; [| lia].
    apply Qlt_alt. rewrite HxK. unfold Qminus. rewrite Qplus_opp_r.
    reflexivity.
  - pose proof (rne_floor x). lia.
Qed.

Lemma Qpower_2_pos (q : Z) : (0 < 2 ^ q)%Q.
Proof. now apply Qpower_0_lt. Qed.

(** A positive value below [2 ^ 53] is rounded at a place no coarser than
    the units. *)
Lemma quantum_le_0 (x : Q) (N : Z) :
  (0 < x)%Q → (x <= inject_Z N)%Q → N < 2 ^ 53 → quantum x ≤ 0.
Proof.
  intros Hpos HxN HN. unfold quantum.
  enough (binade (Qabs x) ≤ 52) by lia.
  destruct x as [a b]. assert (0 < a) as Ha.
  { unfold Qlt in Hpos. simpl in Hpos. lia. }
  assert (a ≤ N * Z.pos b) as Hab.
  { unfold Qle in HxN. simpl in HxN. lia. }
  unfold Qabs. rewrite Z.abs_eq by lia. unfold binade. simpl Qnum. simpl Qden.
  set (l := Z.log2 a - Z.log2 (Z.pos b)).
  destruct (Qle_bool (2 ^ l) (a # b)) eqn:Htest.
  - apply Qle_bool_iff in Htest.
    assert (2 ^ l < 2 ^ 53)%Q as Hlt.
    { eapply Qle_lt_trans; [exact Htest |].
      eapply Qle_lt_trans; [exact HxN |].
      rewrite <- (Zpower_Qpower 2 53) by lia. now rewrite <- Zlt_Qlt. }
    apply Qpower_lt_compat_l_inv in Hlt; [lia | reflexivity].
  - enough (l ≤ 53) by lia. unfold l.
    assert (0 < N) as HNpos by nia.
    assert (Z.log2 a < 54 + Z.log2 (Z.pos b)); [| lia].
    apply Z.log2_lt_pow2; [lia |].
    pose proof (Z.log2_nonneg (Z.pos b)) as Hnn.
    rewrite Z.pow_add_r by lia.
    pose proof (Z.log2_spec (Z.pos b) ltac:(lia)) as [_ Hb].
    replace (Z.succ (Z.log2 (Z.pos b))) with (1 + Z.log2 (Z.pos b)) in Hb by lia.
    rewrite Z.pow_add_r in Hb by lia.
    change (2 ^ 54) with (2 ^ 53 * 2). change (2 ^ 1) with 2 in Hb. nia.
Qed.

(** Rounding does not cross an integer that is a double. *)
Lemma round_Q_le_int (x : Q) (N : Z) :
  (x <= inject_Z N)%Q → 0 ≤ N < 2 ^ 53 → (round_Q x <= inject_Z N)%Q.
Proof.
  intros HxN HN. unfold round_Q.
  destruct (Qeq_bool x 0) eqn:Hzero.
  - change 0%Q with (inject_Z 0). rewrite <- Zle_Qle. lia.
  - set (q := quantum x). pose proof (Qpower_2_pos q) as Hq.
    destruct (Qlt_le_dec 0 x) as [Hpos | Hneg].
    + assert (q ≤ 0) as Hq0 by (eapply quantum_le_0; [eassumption.. | lia]).
      assert (inject_Z N == inject_Z (N * 2 ^ (- q)) * 2 ^ q)%Q as HNq.
      { rewrite inject_Z_mult, Zpower_Qpower by lia.
        rewrite Qpower_opp. change (inject_Z 2) with 2%Q.
        generalize dependent (2 ^ q)%Q. intros y Hy. field.
        intros H0. rewrite H0 in Hy. now apply Qlt_irrefl in Hy. }
      rewrite HNq. apply Qmult_le_compat_r; [| now apply Qlt_le_weak].
      rewrite <- Zle_Qle. apply rne_le.
      apply Qle_shift_div_r; [exact Hq |]. now rewrite <- HNq.
    + apply Qle_trans with 0%Q.
      * rewrite <- (Qmult_0_l (2 ^ q)).
        apply Qmult_le_compat_r; [| now apply Qlt_le_weak].
        change 0%Q with (inject_Z 0). rewrite <- Zle_Qle. apply rne_le.
        apply Qle_shift_div_r; [exact Hq |]. simpl inject_Z.
        now rewrite Qmult_0_l.
      * change 0%Q with (inject_Z 0). rewrite <- Zle_Qle. lia.
Qed.

Lemma round_double_le_int (x : Qc) (N : Z) :
  (x ≤ double_of_int N)%Qc → 0 ≤ N < 2 ^ 53 →
  (round_double x ≤ double_of_int N)%Qc.
Proof.
  intros Hx HN. unfold round_double, double_of_int, Qcle in *. simpl in *.
  rewrite !Qred_correct in *. now apply round_Q_le_int.
Qed.

(** The double nearest to 7/10 times ten is seven exactly, although the
    double itself is below 7/10; and the double nearest to 1/3 is not 1/3. *)
Example double_product_rounds_up :
  double_mul (round_double (Q2Qc (7 # 10))) (double_of_int 10) = double_of_int 7
  ∧ (round_double (Q2Qc (7 # 10)) * double_of_int 10 < double_of_int 7)%Qc
  ∧ reciprocal 3 = Q2Qc (6004799503160661 # 18014398509481984)
  ∧ reciprocal 3 ≠ (1 / double_of_int 3)%Qc.
Proof.
  split; [qc_compute |]. split; [reflexivity |]. split; [qc_compute |].
  intros Heq. vm_compute in Heq. discriminate Heq.
Qed.

(** ** Arrays and the generator *)

Lemma at_index_Ret {A} (a : list A) (i : Z) (x : A) :
  at_index a i = Ret x ↔ 0 ≤ i ∧ a !! Z.to_nat i = Some x.
Proof.
  unfold at_index. destruct (Z.ltb_spec i 0) as [Hneg | Hpos].
  - split; [discriminate | lia].
  - destruct (a !! Z.to_nat i) as [y |]; split.
    + intros [= ->]. auto.
    + intros [_ [= ->]]. reflexivity.
    + discriminate.
    + intros [_ [=]].
Qed.

Lemma at_index_in_range {A} (a : list A) (i : Z) :
  0 ≤ i < size_of a → ∃ x, at_index a i = Ret x ∧ a !! Z.to_nat i = Some x.
Proof.
  intros Hi. unfold size_of in Hi.
  destruct (lookup_lt_is_Some_2 a (Z.to_nat i)) as [x Hx]; [lia |].
  exists x. split; [| exact Hx]. apply at_index_Ret. split; [lia | exact Hx].
Qed.

Lemma at_index_negative {A} (a : list A) (i : Z) :
  i < 0 → at_index a i = Fault OutOfBounds.
Proof.
  intros Hi. unfold at_index. destruct (Z.ltb_spec i 0); [reflexivity | lia].
Qed.

Lemma RandInt2_range (lo hi : Z) (g : Rng) :
  lo < hi → lo ≤ (RandInt2 lo hi g).1 < hi.
Proof.
  intros Hlt. destruct g as [| x g]; simpl; [lia |].
  pose proof (Z.mod_pos_bound x (hi - lo)). lia.
Qed.

Lemma RandInt_range (hi : Z) (g : Rng) : 0 < hi → 0 ≤ (RandInt hi g).1 < hi.
Proof. apply RandInt2_range. Qed.

(** ** The entry-count directory *)

Lemma local_n_entries_beyond (t : DistributedTable) (rank_in : Z) :
  table_outbox_group_comm_size_ t ≤ rank_in →
  local_n_entries t rank_in
  = (Ret (-1), Some (rank_in, table_outbox_group_comm_size_ t)).
Proof.
  intros Hge. unfold local_n_entries.
  destruct (Z.geb_spec rank_in (table_outbox_group_comm_size_ t));
    [reflexivity | lia].
Qed.

Lemma local_n_entries_within (t : DistributedTable) (dir : list Z)
    (rank_in : Z) :
  local_n_entries_ t = Some dir →
  size_of dir = table_outbox_group_comm_size_ t →
  0 ≤ rank_in < table_outbox_group_comm_size_ t →
  ∃ n, dir !! Z.to_nat rank_in = Some n
       ∧ local_n_entries t rank_in = (Ret n, None).
Proof.
  intros Hdir Hsize Hin. unfold local_n_entries.
  destruct (Z.geb_spec rank_in (table_outbox_group_comm_size_ t)); [lia |].
  rewrite Hdir. simpl.
  destruct (at_index_in_range dir rank_in) as (n & Hn & Hlook); [lia |].
  exists n. unfold mbind, Outcome_bind. rewrite Hn. auto.
Qed.

(** C8.  A negative rank passes the one-sided guard [rank_in >= size] and is
    used as an index: on a table initialised for any group, every negative
    [rank_in] reads in front of the directory, with no diagnostic. *)
Theorem local_n_entries_negative_rank (loaded : TableType) (comm_size : Z)
    (gathered : list Z) (rank_in : Z) :
  0 ≤ comm_size → rank_in < 0 →
  local_n_entries (Init loaded comm_size gathered DistributedTable_new) rank_in
  = (Fault OutOfBounds, None).
Proof.
  intros Hsize Hneg. unfold local_n_entries. simpl.
  destruct (Z.geb_spec rank_in comm_size); [lia |].
  unfold mbind, Outcome_bind. simpl. now rewrite at_index_negative.
Qed.

Lemma local_n_entries_negative_rank_witness :
  local_n_entries (example_fresh_table example_shard [3; 4]) (-1)
  = (Fault OutOfBounds, None).
Proof.
  apply (local_n_entries_negative_rank example_shard 2 [3; 4] (-1)); lia.
Defined.

(** ** [IsIndexed] *)

Lemma IsIndexed_with_summary (t : DistributedTable) (g : TableType) :
  global_table_ t = Some g →
  IsIndexed t = Ret (bool_decide (is_Some (get_tree g))).
Proof. intros Hg. unfold IsIndexed. now rewrite Hg. Qed.

(** C9.  [Init] leaves [global_table_] as the constructor set it, [NULL];
    on a table that has been initialised and never indexed, [IsIndexed]
    dereferences that pointer instead of answering [false]. *)
Theorem IsIndexed_before_IndexData (loaded : TableType) (comm_size : Z)
    (gathered : list Z) :
  IsIndexed (Init loaded comm_size gathered DistributedTable_new)
  = Fault NullDereference.
Proof. reflexivity. Qed.

(** ** The cursor *)

Lemma iterator_get_id_unindexed {util : IndexUtil} (t : DistributedTable)
    (g : TableType) (pos : Z) :
  global_table_ t = Some g → get_tree g = None →
  iterator_get_id_ t pos = Ret pos.
Proof.
  intros Hg Htree. unfold iterator_get_id_.
  rewrite (IsIndexed_with_summary t g Hg), Htree. reflexivity.
Qed.

Lemma iterator_get_id_indexed {util : IndexUtil} (t : DistributedTable)
    (g : TableType) (pos : Z) :
  global_table_ t = Some g → is_Some (get_tree g) →
  iterator_get_id_ t pos = Extract (old_from_new g) pos.
Proof.
  intros Hg Htree. unfold iterator_get_id_.
  rewrite (IsIndexed_with_summary t g Hg), bool_decide_true by exact Htree.
  simpl. now rewrite Hg.
Qed.

Lemma Extract_at {util : IndexUtil} (array : list IndexEntry) (pos : Z)
    (e : IndexEntry) :
  0 ≤ pos → array !! Z.to_nat pos = Some e →
  Extract array pos = Ret (entry_point_id e).
Proof.
  intros Hpos He. unfold Extract.
  assert (at_index array pos = Ret e) as -> by (apply at_index_Ret; auto).
  reflexivity.
Qed.

(** C2, as the code has it.  [Next] moves the cursor by one position and
    returns the column stored at the new position of the global table
    ([global_table_], the table every cursor access goes through), with the
    identifier [iterator_get_id_] resolves there: the position itself while
    the global table has no tree, the [old_from_new] entry of the global
    table at that position once it has one. *)
Theorem Next_reads_global_table {util : IndexUtil} (it : TreeIterator)
    (table : DistributedTable) (g : TableType) (entry : DensePoint) :
  global_table_ table = Some g →
  0 ≤ current_index_ it + 1 →
  data g !! Z.to_nat (current_index_ it + 1) = Some entry →
  current_index_ (advance it) = current_index_ it + 1
  ∧ begin_ (advance it) = begin_ it ∧ end_ (advance it) = end_ it
  ∧ (get_tree g = None →
     Next it table = Ret (advance it, entry, current_index_ it + 1))
  ∧ (∀ e, is_Some (get_tree g) →
       old_from_new g !! Z.to_nat (current_index_ it + 1) = Some e →
       Next it table = Ret (advance it, entry, entry_point_id e)).
Proof.
  intros Hg Hpos Hentry.
  assert (iterator_get_ table (current_index_ it + 1) = Ret entry) as Hget.
  { unfold iterator_get_, MakeColumnVector. rewrite Hg. simpl.
    apply at_index_Ret. auto. }
  repeat split; try reflexivity.
  - intros Htree. unfold Next. simpl. rewrite Hget. simpl.
    now rewrite (iterator_get_id_unindexed table g _ Hg Htree).
  - intros e Htree He. unfold Next. simpl. rewrite Hget. simpl.
    rewrite (iterator_get_id_indexed table g _ Hg Htree).
    now rewrite (Extract_at _ _ e Hpos He).
Qed.

Lemma Next_reads_global_table_witness :
  Next (util := example_IndexUtil) example_cursor example_table
  = Ret (advance example_cursor, point2 9 9, 1).
Proof.
  pose proof (Next_reads_global_table (util := example_IndexUtil) example_cursor
                example_table example_summary (point2 9 9)
                eq_refl ltac:(simpl; lia) eq_refl) as (_ & _ & _ & _ & Hidx).
  apply (Hidx (0, (1, 0))); [eexists; reflexivity | reflexivity].
Defined.

Example Next_on_unindexed_summary :
  Next (util := example_IndexUtil) example_cursor
    {| owned_table_ := Some example_shard;
       local_n_entries_ := Some [3; 4];
       global_table_ := Some example_unindexed_summary;
       table_outbox_group_comm_size_ := 2 |}
  = Ret (advance example_cursor, point2 9 9, 0).
Proof. reflexivity. Qed.

(** C2, as the specification words it, fails: the column [Next] returns is
    not the one stored at that position of the owned shard, and the
    identifier is not the shard's. *)
Lemma Next_not_from_owned_shard :
  Next (util := example_IndexUtil) example_cursor example_table
  = Ret (advance example_cursor, point2 9 9, 1)
  ∧ Next_of_shard (util := example_IndexUtil) example_cursor example_table
    = Ret (advance example_cursor, point2 1 1, 2)
  ∧ Next (util := example_IndexUtil) example_cursor example_table
    ≠ Next_of_shard (util := example_IndexUtil) example_cursor example_table.
Proof.
  split; [reflexivity |]. split; [reflexivity |].
  intros Heq. vm_compute in Heq. discriminate Heq.
Qed.

Lemma RandomPick_draw (it : TreeIterator) (table : DistributedTable) (g : Rng) :
  RandomPick it table g
  = (entry ← iterator_get_ table (Random (begin_ it) (end_ it) g).1;
     mret (it, entry, (Random (begin_ it) (end_ it) g).1),
     (Random (begin_ it) (end_ it) g).2).
Proof. unfold RandomPick. now destruct (Random (begin_ it) (end_ it) g). Qed.

(** C10.  [RandomPick(entry, point_id)] stores the drawn position itself in
    [point_id], indexed table or not, and leaves the cursor where it was;
    the draw lies in the window of the cursor.  On an indexed table [get_id]
    at the same position and [Next] onto it answer with the [old_from_new]
    entry instead. *)
Theorem RandomPick_stores_drawn_position {util : IndexUtil} (it : TreeIterator)
    (table : DistributedTable) (g : Rng) (entry : DensePoint) :
  let pos := (Random (begin_ it) (end_ it) g).1 in
  iterator_get_ table pos = Ret entry →
  (RandomPick it table g).1 = Ret (it, entry, pos)
  ∧ (begin_ it < end_ it → begin_ it ≤ pos < end_ it)
  ∧ (∀ gt, global_table_ table = Some gt → is_Some (get_tree gt) →
       get_id it table (pos - begin_ it) = Extract (old_from_new gt) pos
       ∧ (current_index_ it + 1 = pos →
          Next it table
          = (id ← Extract (old_from_new gt) pos; mret (advance it, entry, id)))).
Proof.
  intros pos Hget. split; [| split].
  - rewrite RandomPick_draw. simpl. fold pos. now rewrite Hget.
  - intros Hwin. apply RandInt2_range, Hwin.
  - intros gt Hgt Htree. split.
    + unfold get_id. replace (begin_ it + (pos - begin_ it)) with pos by lia.
      now apply iterator_get_id_indexed.
    + intros Hcur. unfold Next. simpl. rewrite Hcur, Hget. simpl.
      now rewrite (iterator_get_id_indexed table gt pos Hgt Htree).
Qed.

Lemma RandomPick_stores_drawn_position_witness :
  (RandomPick example_cursor example_table [5]).1
  = Ret (example_cursor, point2 8 8, 1)
  ∧ get_id (util := example_IndexUtil) example_cursor example_table 1 = Ret 0.
Proof.
  pose proof (RandomPick_stores_drawn_position (util := example_IndexUtil)
                example_cursor example_table [5] (point2 8 8) eq_refl)
    as (Hpick & _ & Hid).
  split; [exact Hpick |].
  exact (proj1 (Hid example_summary eq_refl (ex_intro _ _ eq_refl))).
Defined.

(** ** Leaf-set padding *)

Lemma add_random_centers_picks (n : nat) (pool : list TreeType)
    (acc : DensePoint) (g : Rng) :
  pool ≠ [] →
  ∃ chosen ks g',
    add_random_centers n pool acc g
    = Ret (foldl vec_add acc (bound_center <$> chosen), ks, g')
    ∧ length chosen = n
    ∧ Forall (λ c, c ∈ pool) chosen
    ∧ Forall2 (λ k c, 0 ≤ k ∧ pool !! Z.to_nat k = Some c) ks chosen.
Proof.
  intros Hpool. revert acc g.
  induction n as [| n IH]; intros acc g; simpl.
  - exists [], [], g. repeat split; constructor.
  - destruct (RandInt (size_of pool) g) as [k g1] eqn:Hk.
    assert (0 ≤ k < size_of pool) as Hrange.
    { change k with (k, g1).1. rewrite <- Hk. apply RandInt_range.
      unfold size_of. destruct pool; [congruence | simpl; lia]. }
    destruct (at_index_in_range pool k Hrange) as (node & Hnode & Hlook).
    rewrite Hnode. simpl.
    destruct (IH (vec_add acc (bound_center node)) g1)
      as (chosen & ks & g' & Hrun & Hlen & Hin & Hks).
    rewrite Hrun. simpl.
    exists (node :: chosen), (k :: ks), g'. repeat split.
    + simpl. now rewrite Hlen.
    + constructor; [| exact Hin]. eapply list_elem_of_lookup_2, Hlook.
    + constructor; [| exact Hks]. split; [lia | exact Hlook].
Qed.

Lemma replenish_loop_appends (n : nat) (num_samples : Z) (dim : nat)
    (nodes : list TreeType) (g : Rng) :
  nodes ≠ [] → 0 ≤ num_samples →
  ∃ extra g',
    replenish_loop n num_samples dim nodes g = Ret (nodes ++ extra, g')
    ∧ length extra = n
    ∧ ∀ j leaf, extra !! j = Some leaf →
        averaged_leaf num_samples dim (nodes ++ take j extra) leaf.
Proof.
  intros Hne Hs. revert nodes g Hne.
  induction n as [| n IH]; intros nodes g Hne; simpl.
  - exists [], g. rewrite app_nil_r. repeat split. intros j leaf [=].
  - destruct (add_random_centers_picks (Z.to_nat num_samples) nodes
                (zeros dim) g Hne)
      as (chosen & ks & g1 & Hrun & Hlen & Hin & _).
    rewrite Hrun. simpl.
    set (leaf0 := set_center TreeType_new
                    (vec_scale (reciprocal num_samples)
                       (foldl vec_add (zeros dim) (bound_center <$> chosen)))).
    destruct (IH (nodes ++ [leaf0]) g1) as (extra & g' & Hloop & Hlen' & Hall).
    { intros Hnil. now apply app_eq_nil in Hnil as [_ [=]]. }
    rewrite Hloop. exists (leaf0 :: extra), g'. repeat split.
    + now rewrite <- app_assoc.
    + simpl. now rewrite Hlen'.
    + intros [| j] leaf Hj; simpl in Hj.
      * injection Hj as <-. exists chosen. simpl. rewrite app_nil_r.
        repeat split; [unfold size_of; lia | exact Hin |].
        unfold leaf0, centroid_mean, size_of.
        now rewrite length_fmap, Hlen, Z2Nat.id by exact Hs.
      * simpl. specialize (Hall j leaf Hj).
        now rewrite <- app_assoc in Hall.
Qed.

Lemma ReplenishNodes_appends (comm_size : Z) (nodes : list TreeType) (g : Rng) :
  nodes ≠ [] →
  ∃ first extra g',
    nodes !! 0%nat = Some first
    ∧ ReplenishNodes_ comm_size nodes g = Ret (nodes ++ extra, g')
    ∧ length extra = Z.to_nat (comm_size - size_of nodes)
    ∧ ∀ j leaf, extra !! j = Some leaf →
        averaged_leaf (Z.max 1 (RandInt (size_of nodes) g).1)
          (length (bound_center first)) (nodes ++ take j extra) leaf.
Proof.
  intros Hne. destruct nodes as [| first rest] eqn:Hnodes; [congruence |].
  rewrite <- Hnodes in *. unfold ReplenishNodes_.
  assert (at_index nodes 0 = Ret first) as ->.
  { apply at_index_Ret. rewrite Hnodes. split; [lia | reflexivity]. }
  simpl. destruct (RandInt (size_of nodes) g) as [r g1] eqn:Hr. simpl.
  destruct (replenish_loop_appends (Z.to_nat (comm_size - size_of nodes))
              (Z.max 1 r) (length (bound_center first)) nodes g1)
    as (extra & g' & Hloop & Hlen & Hall); [congruence | lia |].
  exists first, extra, g'. repeat split; try assumption.
  now rewrite Hnodes.
Qed.

(** C5, as the code has it.  On a candidate list that is not empty and
    shorter than the communicator of the call, padding appends as many
    leaves as the list falls short of the size recorded at [Init]; when that
    size is the size of the communicator, these are exactly [P - L] leaves
    and the list ends with [P] of them.  A list that is not shorter than the
    communicator is left as it is and no random number is drawn. *)
Theorem padding_reaches_group_size (comm_size recorded_size : Z)
    (top_leaf_nodes : list TreeType) (g : Rng) :
  top_leaf_nodes ≠ [] →
  (size_of top_leaf_nodes < comm_size →
   ∃ extra g',
     pad_leaf_nodes comm_size recorded_size top_leaf_nodes g
     = Ret (top_leaf_nodes ++ extra, g')
     ∧ size_of extra = Z.max 0 (recorded_size - size_of top_leaf_nodes)
     ∧ (recorded_size = comm_size →
        size_of extra = comm_size - size_of top_leaf_nodes
        ∧ size_of (top_leaf_nodes ++ extra) = comm_size))
  ∧ (comm_size ≤ size_of top_leaf_nodes →
     pad_leaf_nodes comm_size recorded_size top_leaf_nodes g
     = Ret (top_leaf_nodes, g)).
Proof.
  intros Hne. unfold pad_leaf_nodes. split; intros HL.
  - destruct (Z.ltb_spec (size_of top_leaf_nodes) comm_size); [| lia].
    destruct (ReplenishNodes_appends recorded_size top_leaf_nodes g Hne)
      as (first & extra & g' & _ & Hrun & Hlen & _).
    exists extra, g'. split; [exact Hrun |].
    unfold size_of in *. rewrite length_app. lia.
  - destruct (Z.ltb_spec (size_of top_leaf_nodes) comm_size); [lia |].
    reflexivity.
Qed.

Lemma padding_reaches_group_size_witness :
  ∃ extra g',
    pad_leaf_nodes 4 4 example_leaves [1; 0; 1; 1; 0; 1; 0]
    = Ret (example_leaves ++ extra, g')
    ∧ size_of extra = 4 - size_of example_leaves
    ∧ size_of (example_leaves ++ extra) = 4.
Proof.
  destruct (padding_reaches_group_size 4 4 example_leaves
              [1; 0; 1; 1; 0; 1; 0]) as [Hshort _]; [discriminate |].
  destruct Hshort as (extra & g' & Hrun & _ & Hsame);
    [vm_compute; reflexivity |].
  exists extra, g'. split; [exact Hrun | exact (Hsame eq_refl)].
Defined.

(** C5, as the specification words it, fails in two ways.  For [L = 0]
    [ReplenishNodes_] reads [top_leaf_nodes[0]] before anything else.  And on
    a table that [Init] set up for a group of one, a call of [IndexData] with
    a communicator of three finds one leaf short of three and pads it up to
    the recorded size, one: the list stays at one leaf. *)
Lemma padding_misses_group_size :
  (size_of (@nil TreeType) < 1
   ∧ pad_leaf_nodes 1 1 [] [] = Fault OutOfBounds
   ∧ ∀ g, returns (pad_leaf_nodes 1 1 [] g) = false)
  ∧ (size_of [mkTree (point2 0 0) 0 3] < 3
     ∧ pad_leaf_nodes 3 1 [mkTree (point2 0 0) 0 3] [2; 5]
       = Ret ([mkTree (point2 0 0) 0 3], [5])).
Proof. repeat split. Qed.

Lemma RandInt_raw (hi : Z) (g : Rng) :
  RandInt hi g = (raw_draw g 0 mod hi, drop 1 g).
Proof.
  unfold RandInt, RandInt2, raw_draw. destruct g as [| x g]; simpl.
  - now rewrite Zmod_0_l.
  - now rewrite Z.sub_0_r, drop_0.
Qed.

Lemma raw_draw_drop (g : Rng) (a k : nat) :
  raw_draw (drop a g) k = raw_draw g (a + k).
Proof. unfold raw_draw, Rng in *. now rewrite lookup_drop. Qed.

Lemma drawn_indices_drop (g : Rng) (a first count : nat) (hi : Z) :
  drawn_indices (drop a g) first count hi
  = drawn_indices g (a + first) count hi.
Proof.
  unfold drawn_indices. apply list_fmap_ext. intros _ i _.
  rewrite raw_draw_drop. do 2 f_equal. lia.
Qed.

Lemma drawn_indices_S (g : Rng) (first count : nat) (hi : Z) :
  drawn_indices g first (S count) hi
  = raw_draw g first mod hi :: drawn_indices g (S first) count hi.
Proof.
  unfold drawn_indices. cbn [seq]. rewrite fmap_cons, Nat.add_0_r. f_equal.
  rewrite <- fmap_S_seq, <- list_fmap_compose. apply list_fmap_ext.
  intros _ i _. simpl. do 2 f_equal. lia.
Qed.

Lemma add_random_centers_draws (n : nat) (pool : list TreeType)
    (acc : DensePoint) (g : Rng) :
  pool ≠ [] →
  ∃ chosen,
    add_random_centers n pool acc g
    = Ret (foldl vec_add acc (bound_center <$> chosen),
           drawn_indices g 0 n (size_of pool), drop n g)
    ∧ Forall2 (λ k c, pool !! Z.to_nat k = Some c)
        (drawn_indices g 0 n (size_of pool)) chosen.
Proof.
  intros Hpool. revert acc g.
  induction n as [| n IH]; intros acc g.
  - exists []. simpl. rewrite drop_0. split; [reflexivity | constructor].
  - cbn [add_random_centers]. rewrite RandInt_raw.
    assert (0 ≤ raw_draw g 0 mod size_of pool < size_of pool) as Hrange.
    { apply Z.mod_pos_bound. unfold size_of.
      destruct pool; [congruence | simpl; lia]. }
    destruct (at_index_in_range pool _ Hrange) as (node & Hnode & Hlook).
    rewrite Hnode. simpl.
    destruct (IH (vec_add acc (bound_center node)) (drop 1 g))
      as (chosen & Hrun & Hall).
    rewrite Hrun. simpl. exists (node :: chosen).
    rewrite drawn_indices_S, drop_drop, drawn_indices_drop in *.
    split; [reflexivity |]. constructor; assumption.
Qed.

Lemma replenish_loop_draws (n : nat) (num_samples : Z) (dim : nat)
    (nodes : list TreeType) (g : Rng) :
  nodes ≠ [] → 0 ≤ num_samples →
  ∃ extra,
    replenish_loop n num_samples dim nodes g
    = Ret (nodes ++ extra, drop (n * Z.to_nat num_samples) g)
    ∧ length extra = n
    ∧ ∀ j leaf, extra !! j = Some leaf →
        ∃ chosen,
          Forall2 (λ k c, (nodes ++ take j extra) !! Z.to_nat k = Some c)
            (drawn_indices g (j * Z.to_nat num_samples)
               (Z.to_nat num_samples) (size_of nodes + Z.of_nat j))
            chosen
          ∧ leaf = set_center TreeType_new
                     (centroid_mean dim (bound_center <$> chosen)).
Proof.
  intros Hne Hs. revert nodes g Hne.
  induction n as [| n IH]; intros nodes g Hne.
  - exists []. simpl. rewrite app_nil_r, drop_0.
    split; [reflexivity | split; [reflexivity |]]. intros j leaf [=].
  - cbn [replenish_loop].
    destruct (add_random_centers_draws (Z.to_nat num_samples) nodes
                (zeros dim) g Hne) as (chosen & Hrun & Hall).
    rewrite Hrun. simpl.
    set (leaf0 := set_center TreeType_new
                    (vec_scale (reciprocal num_samples)
                       (foldl vec_add (zeros dim) (bound_center <$> chosen)))).
    destruct (IH (nodes ++ [leaf0]) (drop (Z.to_nat num_samples) g))
      as (extra & Hloop & Hlen & Hleaves).
    { intros Hnil. now apply app_eq_nil in Hnil as [_ [=]]. }
    rewrite Hloop. exists (leaf0 :: extra).
    split; [| split].
    + rewrite <- app_assoc, drop_drop. reflexivity.
    + simpl. now rewrite Hlen.
    + intros [| j] leaf Hj; simpl in Hj.
      * injection Hj as <-. exists chosen. rewrite take_0, app_nil_r.
        simpl. rewrite Z.add_0_r. split; [exact Hall |].
        unfold leaf0, centroid_mean, size_of.
        rewrite length_fmap, <- (Forall2_length _ _ _ Hall).
        unfold drawn_indices. rewrite length_fmap, length_seq.
        now rewrite Z2Nat.id by exact Hs.
      * destruct (Hleaves j leaf Hj) as (chosen' & Hall' & ->).
        exists chosen'. split; [| reflexivity].
        rewrite drawn_indices_drop in Hall'.
        rewrite firstn_cons, <- app_assoc in *. simpl in Hall'.
        replace (size_of (nodes ++ [leaf0]) + Z.of_nat j)
          with (size_of nodes + Z.of_nat (S j)) in Hall'
          by (unfold size_of; rewrite length_app; simpl; lia).
        exact Hall'.
Qed.

Lemma ReplenishNodes__draws (comm_size : Z) (nodes : list TreeType)
    (g : Rng) :
  nodes ≠ [] →
  let s := Z.to_nat (Z.max 1 (raw_draw g 0 mod size_of nodes)) in
  ∃ first extra,
    nodes !! 0%nat = Some first
    ∧ ReplenishNodes_ comm_size nodes g
      = Ret (nodes ++ extra, drop (1 + length extra * s) g)
    ∧ length extra = Z.to_nat (comm_size - size_of nodes)
    ∧ ∀ j leaf, extra !! j = Some leaf →
        ∃ chosen,
          Forall2 (λ k c, (nodes ++ take j extra) !! Z.to_nat k = Some c)
            (drawn_indices g (1 + j * s) s (size_of nodes + Z.of_nat j))
            chosen
          ∧ leaf = set_center TreeType_new
                     (centroid_mean (length (bound_center first))
                        (bound_center <$> chosen)).
Proof.
  intros Hne. cbv zeta.
  destruct nodes as [| first rest] eqn:Hnodes; [congruence |].
  rewrite <- Hnodes in *. unfold ReplenishNodes_.
  assert (at_index nodes 0 = Ret first) as ->.
  { apply at_index_Ret. rewrite Hnodes. split; [lia | reflexivity]. }
  simpl. rewrite RandInt_raw.
  destruct (replenish_loop_draws (Z.to_nat (comm_size - size_of nodes))
              (Z.max 1 (raw_draw g 0 mod size_of nodes))
              (length (bound_center first)) nodes (drop 1 g))
    as (extra & Hloop & Hlen & Hleaves); [congruence | lia |].
  exists first, extra. split; [now rewrite Hnodes |].
  split; [| split; [exact Hlen |]].
  - rewrite Hloop, drop_drop, Hlen. reflexivity.
  - intros j leaf Hj. destruct (Hleaves j leaf Hj) as (chosen & Hall & ->).
    exists chosen. split; [| reflexivity].
    now rewrite drawn_indices_drop in Hall.
Qed.

(** C6, as the code has it.  One sample size [s = max(1, RandInt(L))] is
    drawn per call of [ReplenishNodes_], before the loop, from the first
    cell of the generator, and every synthetic leaf uses it.  The synthetic
    leaf number [j] consumes the next [s] draws: each is reduced to an index
    into the vector as it stands when the leaf is made (the [L] broadcast
    leaves and the [j] leaves synthesised before it), the node at that index
    is chosen, and the centre of the new leaf is the mean of the chosen
    centres as the code computes it in doubles.  The leaf is a
    default-constructed node otherwise: it has no point range. *)
Theorem synthetic_leaves_share_sample_size (comm_size : Z)
    (top_leaf_nodes : list TreeType) (g : Rng) :
  top_leaf_nodes ≠ [] →
  let L := size_of top_leaf_nodes in
  let s := Z.to_nat (Z.max 1 (raw_draw g 0 mod L)) in
  ∃ first extra,
    top_leaf_nodes !! 0%nat = Some first
    ∧ ReplenishNodes_ comm_size top_leaf_nodes g
      = Ret (top_leaf_nodes ++ extra, drop (1 + length extra * s) g)
    ∧ length extra = Z.to_nat (comm_size - L)
    ∧ ∀ j leaf, extra !! j = Some leaf →
        ∃ chosen,
          Forall2 (λ k c,
                     (top_leaf_nodes ++ take j extra) !! Z.to_nat k = Some c)
            (drawn_indices g (1 + j * s) s (L + Z.of_nat j)) chosen
          ∧ leaf = set_center TreeType_new
                     (centroid_mean (length (bound_center first))
                        (bound_center <$> chosen))
          ∧ node_count leaf = 0.
Proof.
  intros Hne. cbv zeta.
  destruct (ReplenishNodes__draws comm_size top_leaf_nodes g Hne)
    as (first & extra & Hfirst & Hrun & Hlen & Hleaves).
  exists first, extra.
  split; [exact Hfirst | split; [exact Hrun | split; [exact Hlen |]]].
  intros j leaf Hj. destruct (Hleaves j leaf Hj) as (chosen & Hall & ->).
  exists chosen. split; [exact Hall | split; reflexivity].
Qed.

Lemma synthetic_leaves_share_sample_size_witness :
  ∃ extra,
    ReplenishNodes_ 5 example_three_leaves example_tape
    = Ret (example_three_leaves ++ extra, [1; 2])
    ∧ length extra = 2%nat
    ∧ ∀ j leaf, extra !! j = Some leaf → node_count leaf = 0.
Proof.
  destruct (synthetic_leaves_share_sample_size 5 example_three_leaves
              example_tape) as (first & extra & _ & Hrun & Hlen & Hleaves).
  - discriminate.
  - exists extra. split; [| split; [exact Hlen |]].
    + rewrite Hrun, Hlen. reflexivity.
    + intros j leaf Hj.
      destruct (Hleaves j leaf Hj) as (chosen & _ & _ & Hcount).
      exact Hcount.
Defined.

(** C6, as the specification words it, fails twice.  With a sample size
    drawn afresh for every leaf the second synthetic leaf of the first run
    would average two centres; the code gives it the sample size of the
    first, one.  And in the second run the one synthetic leaf averages the
    centres 1, 0 and 0: the code multiplies their sum by the double nearest
    to 1/3, and the centre it stores is not 1/3. *)
Lemma synthetic_leaves_not_as_worded :
  (ReplenishNodes_ 5 example_three_leaves example_tape
   = Ret (example_three_leaves
          ++ [set_center TreeType_new (point2 0 0);
              set_center TreeType_new (point2 2 6)], [1; 2])
   ∧ ReplenishNodes_fresh 5 example_three_leaves example_tape
     = Ret (example_three_leaves
            ++ [set_center TreeType_new (point2 0 0);
                set_center TreeType_new (point2 3 4)], [])
   ∧ ReplenishNodes_ 5 example_three_leaves example_tape
     ≠ ReplenishNodes_fresh 5 example_three_leaves example_tape)
  ∧ (ReplenishNodes_ 5 example_unit_leaves [3; 0; 1; 2]
     = Ret (example_unit_leaves
            ++ [set_center TreeType_new
                  [Q2Qc (6004799503160661 # 18014398509481984)]], [])
     ∧ Q2Qc (6004799503160661 # 18014398509481984) ≠ Q2Qc (1 # 3)).
Proof.
  split; [split; [qc_compute | split; [qc_compute |]] | split; [qc_compute |]].
  - intros Heq. vm_compute in Heq. discriminate Heq.
  - intros Heq. vm_compute in Heq. discriminate Heq.
Qed.

(** ** The neighbour exchange: who sends what to whom, under which tag *)

Lemma elem_of_neighbor_offsets (i n : Z) :
  i ∈ neighbor_offsets n ↔ 1 ≤ i ≤ n.
Proof. unfold neighbor_offsets. rewrite elem_of_seqZ. lia. Qed.

Lemma elem_of_send_plan (comm_size rank dest tag : Z) :
  0 ≤ rank < comm_size →
  (dest, tag) ∈ send_plan comm_size rank
  ↔ (0 ≤ dest < rank ∧ tag = rank - dest)
    ∨ (rank < dest < comm_size ∧ tag = comm_size + (dest - rank)).
Proof.
  intros Hrank. unfold send_plan, left_window, right_window.
  rewrite elem_of_app, !list_elem_of_fmap.
  setoid_rewrite elem_of_neighbor_offsets. split.
  - intros [(i & [= -> ->] & Hi) | (i & [= -> ->] & Hi)]; lia.
  - intros [[Hd ->] | [Hd ->]].
    + left. exists (rank - dest). split; [f_equal; lia | lia].
    + right. exists (dest - rank). split; [f_equal; lia | lia].
Qed.

Lemma elem_of_receive_order (comm_size rank source tag : Z) :
  0 ≤ rank < comm_size →
  FromRank source tag ∈ receive_order comm_size rank
  ↔ (0 ≤ source < rank ∧ tag = comm_size + (rank - source))
    ∨ (rank < source < comm_size ∧ tag = source - rank).
Proof.
  intros Hrank. unfold receive_order, left_window, right_window.
  rewrite !elem_of_app, !list_elem_of_fmap, list_elem_of_singleton.
  setoid_rewrite elem_of_neighbor_offsets. split.
  - intros [(i & [= -> ->] & Hi) | [[=] | (i & [= -> ->] & Hi)]]; lia.
  - intros [[Hs ->] | [Hs ->]].
    + left. exists (rank - source). split; [f_equal; lia | lia].
    + right. right. exists (source - rank). split; [f_equal; lia | lia].
Qed.

(** C4.  Within a group of [comm_size] ranks, the send of rank [r] to its
    [i]-th left neighbour carries tag [i] and is the receive that neighbour
    posts for source [r]; the send to the [i]-th right neighbour carries
    [neighbor_radius + i] and is matched likewise.  Sends and receives
    correspond one to one, and the fragments two ranks send each other
    never carry the same tag. *)
Theorem send_receive_tags_match (comm_size r i : Z) :
  0 ≤ r < comm_size → 1 ≤ i →
  (0 ≤ r - i →
   (r - i, i) ∈ send_plan comm_size r
   ∧ FromRank r i ∈ receive_order comm_size (r - i))
  ∧ (r + i < comm_size →
     (r + i, comm_size + i) ∈ send_plan comm_size r
     ∧ FromRank r (comm_size + i) ∈ receive_order comm_size (r + i))
  ∧ (∀ d t, 0 ≤ d < comm_size →
       (d, t) ∈ send_plan comm_size r
       ↔ FromRank r t ∈ receive_order comm_size d)
  ∧ (∀ d t t', (d, t) ∈ send_plan comm_size r →
       (r, t') ∈ send_plan comm_size d → t ≠ t').
Proof.
  intros Hr Hi. split; [| split; [| split]].
  - intros Hleft. split.
    + apply elem_of_send_plan; lia.
    + apply elem_of_receive_order; lia.
  - intros Hright. split.
    + apply elem_of_send_plan; lia.
    + apply elem_of_receive_order; lia.
  - intros d t Hd.
    rewrite elem_of_send_plan, elem_of_receive_order by lia. lia.
  - intros d t t' Hd Hback. apply elem_of_send_plan in Hd; [| lia].
    assert (0 ≤ d < comm_size) as Hrange by lia.
    apply elem_of_send_plan in Hback; lia.
Qed.

Lemma send_receive_tags_match_witness :
  (1, 1) ∈ send_plan 4 2 ∧ FromRank 2 1 ∈ receive_order 4 1
  ∧ (3, 5) ∈ send_plan 4 2 ∧ FromRank 2 5 ∈ receive_order 4 3.
Proof.
  pose proof (send_receive_tags_match 4 2 1 ltac:(lia) ltac:(lia))
    as (Hleft & Hright & _).
  destruct (Hleft ltac:(lia)) as [Hs Hr].
  destruct (Hright ltac:(lia)) as [Hs' Hr'].
  repeat split; assumption.
Defined.

Lemma left_sources_descend (rank n : Z) :
  0 ≤ n →
  (λ i, rank - i) <$> seqZ 1 n = reverse (seqZ (rank - n) n).
Proof.
  intros Hn. rewrite <- (Z2Nat.id n Hn).
  induction (Z.to_nat n) as [| k IH].
  - reflexivity.
  - rewrite seqZ_S, fmap_app, IH. simpl.
    rewrite (seqZ_cons (rank - Z.of_nat (S k))) by lia.
    rewrite reverse_cons. do 3 f_equal; lia.
Qed.

Lemma receive_order_sources (comm_size rank : Z) :
  0 ≤ rank < comm_size →
  inflow_rank rank <$> receive_order comm_size rank
  = reverse (seqZ 0 rank) ++ [rank]
    ++ seqZ (rank + 1) (comm_size - rank - 1).
Proof.
  intros Hrank. unfold receive_order, neighbor_offsets, left_window,
    right_window.
  rewrite !fmap_app, <- !list_fmap_compose. simpl.
  rewrite Z.min_l, Z.min_l by lia. f_equal; [| f_equal].
  - transitivity ((λ i, rank - i) <$> seqZ 1 rank); [reflexivity |].
    rewrite left_sources_descend by lia. do 2 f_equal. lia.
  - transitivity (Z.add rank <$> seqZ 1 (comm_size - rank - 1));
      [reflexivity |].
    apply fmap_add_seqZ.
Qed.

(** C3, as the specification words it, fails: at rank 2 of a group of three the
    first receive is from rank 1, the second from rank 0. *)
Lemma left_receives_not_in_ascending_rank :
  inflow_rank 2 <$> receive_order 3 2 = [1; 0; 2]
  ∧ ¬ Sorted Z.le (inflow_rank 2 <$> receive_order 3 2).
Proof.
  split; [reflexivity |].
  intros Hsorted. change (Sorted Z.le [1; 0; 2]) in Hsorted.
  inversion Hsorted as [| ? ? _ Hhd]; subst.
  inversion Hhd as [| ? ? Hle]; subst. lia.
Qed.

(** ** The receive phase writes the fragments back to back *)

Lemma write_columns_Ret (buffer : list DensePoint) (offset : Z)
    (fragment buffer' : list DensePoint) :
  write_columns buffer offset fragment = Ret buffer'
  ↔ 0 ≤ offset ∧ offset + size_of fragment ≤ size_of buffer
    ∧ buffer' = take (Z.to_nat offset) buffer ++ fragment
                ++ drop (Z.to_nat offset + length fragment) buffer.
Proof.
  unfold write_columns.
  destruct (Z.leb_spec 0 offset);
    destruct (Z.leb_spec (offset + size_of fragment) (size_of buffer));
    simpl; split; try discriminate; try (intros (? & ? & ?); lia).
  - intros [= <-]. split; [assumption | split; [assumption | reflexivity]].
  - intros (_ & _ & ->). reflexivity.
Qed.

Lemma length_write_columns (buffer : list DensePoint) (offset : Z)
    (fragment buffer' : list DensePoint) :
  write_columns buffer offset fragment = Ret buffer' →
  length buffer' = length buffer.
Proof.
  intros (H0 & Hfit & ->)%write_columns_Ret. unfold size_of in Hfit.
  rewrite !length_app, length_take, length_drop. lia.
Qed.

Lemma receive_one_Ret (net : Network) (rank : Z) (owned : TableType)
    (km : KMeansResult) (st st' : Receiving) (src : Inflow) :
  receive_one net rank owned km st src = Ret st'
  ↔ ∃ f buffer,
      fetch net rank owned km src = Ret f
      ∧ write_columns (new_data st) (running_offset st) f = Ret buffer
      ∧ st' = {| new_data := buffer;
                 running_offset := running_offset st + size_of f;
                 placed := placed st ++ [(src, running_offset st)] |}.
Proof.
  unfold receive_one. split.
  - destruct (fetch net rank owned km src) as [f |]; [| discriminate]. simpl.
    destruct (write_columns (new_data st) (running_offset st) f)
      as [buffer |] eqn:Hw; [| discriminate].
    simpl. intros [= <-]. exists f, buffer.
    split; [reflexivity | split; [exact Hw | reflexivity]].
  - intros (f & buffer & -> & Hw & ->). simpl. now rewrite Hw.
Qed.

Lemma receive_all_inv (net : Network) (rank : Z) (owned : TableType)
    (km : KMeansResult) (srcs : list Inflow) (st st' : Receiving) :
  receive_all net rank owned km srcs st = Ret st' →
  ∃ frags,
    Forall2 (λ src f, fetch net rank owned km src = Ret f) srcs frags
    ∧ placed st'
      = placed st ++ zip srcs (running_offsets (running_offset st) frags)
    ∧ running_offset st' = running_offset st + size_of (concat frags)
    ∧ length (new_data st') = length (new_data st)
    ∧ (srcs ≠ [] →
       0 ≤ running_offset st
       ∧ running_offset st' ≤ size_of (new_data st))
    ∧ new_data st'
      = take (Z.to_nat (running_offset st)) (new_data st) ++ concat frags
        ++ drop (Z.to_nat (running_offset st) + length (concat frags))
             (new_data st).
Proof.
  revert st. induction srcs as [| src srcs IH]; intros st; simpl.
  - intros [= <-]. exists []. simpl. repeat split.
    + constructor.
    + now rewrite app_nil_r.
    + unfold size_of. simpl. lia.
    + congruence.
    + congruence.
    + now rewrite Nat.add_0_r, take_drop.
  - destruct (receive_one net rank owned km st src) as [st1 |] eqn:Hone;
      [| discriminate].
    simpl. intros Hrest.
    apply receive_one_Ret in Hone as (f & buffer & Hf & Hw & ->).
    pose proof (length_write_columns _ _ _ _ Hw) as Hlen.
    apply write_columns_Ret in Hw as (H0 & Hfit & Hbuf).
    destruct (IH _ Hrest) as (frags & Hall & Hplaced & Hoff & Hlen' & Hbound & Hdata).
    simpl in *. exists (f :: frags). unfold size_of in *.
    assert (running_offset st' ≤ Z.of_nat (length (new_data st))) as Hin.
    { destruct srcs as [| src' srcs'].
      - inversion Hall; subst. simpl in Hoff. lia.
      - destruct Hbound as [_ Hb]; [discriminate |]. lia. }
    repeat split.
    + now constructor.
    + rewrite Hplaced, <- app_assoc. reflexivity.
    + simpl. rewrite length_app. lia.
    + lia.
    + exact H0.
    + exact Hin.
    + rewrite Hdata, Hbuf. simpl.
      assert (length (take (Z.to_nat (running_offset st)) (new_data st))
              = Z.to_nat (running_offset st)) as Htake
        by (rewrite length_take; lia).
      rewrite Z2Nat.inj_add, Nat2Z.id by lia.
      rewrite (app_assoc (take _ _) f).
      rewrite take_app_length' by (rewrite length_app; lia).
      rewrite drop_app_add' by (rewrite length_app; lia).
      rewrite drop_drop, length_app, <- !app_assoc.
      now rewrite Nat.add_assoc.
Qed.

Lemma receive_all_returns (net : Network) (rank : Z) (owned : TableType)
    (km : KMeansResult) (srcs : list Inflow)
    (frags : list (list DensePoint)) (st : Receiving) :
  Forall2 (λ src f, fetch net rank owned km src = Ret f) srcs frags →
  0 ≤ running_offset st →
  running_offset st + size_of (concat frags) ≤ size_of (new_data st) →
  ∃ st', receive_all net rank owned km srcs st = Ret st'.
Proof.
  intros Hall. revert st.
  induction Hall as [| src f srcs frags Hf _ IH]; intros st H0 Hfit; simpl.
  - eauto.
  - unfold size_of in *. simpl in Hfit. rewrite length_app in Hfit.
    destruct (write_columns (new_data st) (running_offset st) f)
      as [buffer |] eqn:Hw.
    2: { exfalso. unfold write_columns in Hw.
         destruct (Z.leb_spec 0 (running_offset st)); [| lia].
         destruct (Z.leb_spec (running_offset st + size_of f)
                     (size_of (new_data st))); [discriminate |].
         unfold size_of in *. lia. }
    unfold receive_one. rewrite Hf. simpl. rewrite Hw. simpl.
    apply IH; simpl; unfold size_of.
    + lia.
    + rewrite (length_write_columns _ _ _ _ Hw). lia.
Qed.

Lemma fetch_deterministic (net : Network) (rank : Z) (owned : TableType)
    (km : KMeansResult) (srcs : list Inflow)
    (frags frags' : list (list DensePoint)) :
  Forall2 (λ src f, fetch net rank owned km src = Ret f) srcs frags →
  Forall2 (λ src f, fetch net rank owned km src = Ret f) srcs frags' →
  frags = frags'.
Proof.
  intros H. revert frags'.
  induction H as [| src f srcs frags Hf _ IH]; intros frags' H';
    inversion H' as [| ? f' ? frags'' Hf' Hrest]; subst; [reflexivity |].
  f_equal; [congruence | now apply IH].
Qed.

Lemma ReadjustCentroids__inv (comm_size rank : Z) (net : Network)
    (owned : TableType) (km : KMeansResult) (t : TableType)
    (log : list (Inflow * Z)) :
  ReadjustCentroids_ comm_size rank net owned km = Ret (t, log) →
  ∃ frags,
    Forall2 (λ src f, fetch net rank owned km src = Ret f)
      (receive_order comm_size rank) frags
    ∧ log = zip (receive_order comm_size rank) (running_offsets 0 frags)
    ∧ (length (concat frags) ≤ Z.to_nat (total_num_points_owned km))%nat
    ∧ length (data t) = Z.to_nat (total_num_points_owned km)
    ∧ n_attributes t = n_attributes owned
    ∧ take (length (concat frags)) (data t) = concat frags.
Proof.
  unfold ReadjustCentroids_.
  destruct (receive_all _ _ _ _ _ _) as [st |] eqn:Hrun; [| discriminate].
  simpl. intros [= <- <-].
  apply receive_all_inv in Hrun
    as (frags & Hall & Hplaced & Hoff & Hlen & Hbound & Hdata).
  simpl in *. rewrite length_replicate in Hlen.
  destruct Hbound as [_ Hb].
  { unfold receive_order. intros Hnil.
    apply app_eq_nil in Hnil as [_ [=]]. }
  unfold size_of in *. rewrite length_replicate in Hb.
  exists frags. repeat split; try assumption.
  - lia.
  - rewrite Hdata. now rewrite take_app_length.
Qed.

Lemma ReadjustCentroids__returns (comm_size rank : Z) (net : Network)
    (owned : TableType) (km : KMeansResult)
    (frags : list (list DensePoint)) :
  Forall2 (λ src f, fetch net rank owned km src = Ret f)
    (receive_order comm_size rank) frags →
  size_of (concat frags) ≤ total_num_points_owned km →
  ∃ t log, ReadjustCentroids_ comm_size rank net owned km = Ret (t, log).
Proof.
  intros Hfetch Hfit. unfold ReadjustCentroids_.
  destruct (receive_all_returns net rank owned km
              (receive_order comm_size rank) frags
              {| new_data := data (Table_Init (n_attributes owned)
                                     (total_num_points_owned km));
                 running_offset := 0; placed := [] |} Hfetch)
    as [st' Hst'].
  - simpl. lia.
  - simpl. unfold size_of in *. rewrite length_replicate. lia.
  - rewrite Hst'. simpl. eauto.
Qed.

(** C3, as the code has it.  The blocking receives are issued nearest
    neighbour first: the left neighbours in descending sender rank, from
    [rank - 1] down to rank 0, then the copy of the points that stay, then
    the right neighbours in ascending sender rank.  Each fragment is written
    where the previous one ended, the first at offset 0, so that the new
    buffer starts with the fragments back to back in that order; and the
    phase runs through whenever every receive is matched by a send and the
    fragments fit the buffer the solver sized. *)
Theorem receives_nearest_neighbor_first (comm_size rank : Z) (net : Network)
    (owned : TableType) (km : KMeansResult) :
  0 ≤ rank < comm_size →
  inflow_rank rank <$> receive_order comm_size rank
  = reverse (seqZ 0 rank) ++ [rank] ++ seqZ (rank + 1) (comm_size - rank - 1)
  ∧ (∀ t log,
       ReadjustCentroids_ comm_size rank net owned km = Ret (t, log) →
       ∃ frags,
         Forall2 (λ src f, fetch net rank owned km src = Ret f)
           (receive_order comm_size rank) frags
         ∧ log = zip (receive_order comm_size rank) (running_offsets 0 frags)
         ∧ take (length (concat frags)) (data t) = concat frags)
  ∧ (∀ frags,
       Forall2 (λ src f, fetch net rank owned km src = Ret f)
         (receive_order comm_size rank) frags →
       size_of (concat frags) ≤ total_num_points_owned km →
       ∃ t log, ReadjustCentroids_ comm_size rank net owned km = Ret (t, log)).
Proof.
  intros Hrank. split; [now apply receive_order_sources | split].
  - intros t log Hrun.
    apply ReadjustCentroids__inv in Hrun
      as (frags & Hall & Hlog & _ & _ & _ & Hdata).
    eauto.
  - apply ReadjustCentroids__returns.
Qed.

Lemma receives_nearest_neighbor_first_witness :
  inflow_rank 2 <$> receive_order 3 2 = [1; 0; 2]
  ∧ ∃ t log,
      ReadjustCentroids_ 3 2 example_network
        (raw_shard [point2 5 5; point2 6 6]) (mkKMeansResult 3 [1; 2])
      = Ret (t, log)
      ∧ log.*2 = [0; 1; 2]
      ∧ data t = [point2 4 4; point2 2 2; point2 6 6].
Proof.
  destruct (receives_nearest_neighbor_first 3 2 example_network
              (raw_shard [point2 5 5; point2 6 6]) (mkKMeansResult 3 [1; 2])
              ltac:(lia)) as (Horder & Hplaced & Hreturns).
  split; [exact Horder |].
  destruct (Hreturns [[point2 4 4]; [point2 2 2]; [point2 6 6]])
    as (t & log & Hrun).
  - repeat constructor.
  - vm_compute. discriminate.
  - exists t, log. split; [exact Hrun |].
    destruct (Hplaced t log Hrun) as (frags & Hfetch & -> & Hdata).
    pose proof (fetch_deterministic _ _ _ _ _ _
                  [[point2 4 4]; [point2 2 2]; [point2 6 6]] Hfetch
                  ltac:(repeat constructor)) as ->.
    split; [reflexivity |].
    apply ReadjustCentroids__inv in Hrun as (_ & _ & _ & _ & Hlen & _).
    simpl in Hdata, Hlen.
    destruct (data t) as [| a [| b [| c [| ? ?]]]]; try discriminate Hlen.
    exact Hdata.
Defined.

(** ** Lists of fragments *)

Lemma concat_fmap_bind {A B} (f : A → list B) (l : list A) :
  concat (f <$> l) = l ≫= f.
Proof.
  induction l as [| x l IH]; [reflexivity |].
  rewrite fmap_cons, bind_cons. simpl. now rewrite IH.
Qed.

Lemma bind_const_nil {A B} (l : list A) : l ≫= (λ _, @nil B) = [].
Proof. induction l as [| x l IH]; [reflexivity | exact IH]. Qed.

Lemma bind_ext_Permutation {A B} (f g : A → list B) (l : list A) :
  (∀ x, x ∈ l → f x ≡ₚ g x) → l ≫= f ≡ₚ l ≫= g.
Proof.
  induction l as [| x l IH]; intros Hfg; [reflexivity |].
  rewrite !bind_cons. rewrite (Hfg x) by apply list_elem_of_here.
  rewrite IH; [reflexivity |]. intros y Hy. apply Hfg.
  now apply list_elem_of_further.
Qed.

Lemma bind_app_pointwise {A B} (f g : A → list B) (l : list A) :
  l ≫= (λ x, f x ++ g x) ≡ₚ (l ≫= f) ++ (l ≫= g).
Proof.
  induction l as [| x l IH]; [reflexivity |].
  rewrite !bind_cons, IH, <- !app_assoc. apply Permutation_app_head.
  rewrite !app_assoc. apply Permutation_app_tail, Permutation_app_comm.
Qed.

Lemma bind_bind_swap {A B C} (F : A → B → list C) (la : list A)
    (lb : list B) :
  la ≫= (λ a, lb ≫= F a) ≡ₚ lb ≫= (λ b, la ≫= (λ a, F a b)).
Proof.
  induction la as [| a la IH].
  - simpl. now rewrite bind_const_nil.
  - rewrite bind_cons, IH, <- bind_app_pointwise.
    apply bind_ext_Permutation. intros b _. now rewrite bind_cons.
Qed.

Lemma length_bind_sum {A B} (f : A → list B) (l : list A) :
  size_of (l ≫= f) = foldr Z.add 0 ((λ x, size_of (f x)) <$> l).
Proof.
  unfold size_of. induction l as [| x l IH]; [reflexivity |].
  rewrite bind_cons, length_app, fmap_cons, Nat2Z.inj_add, IH. reflexivity.
Qed.

Lemma bind_seqZ_lookup_from {A B} (f : A → list B) (done l : list A) :
  seqZ (size_of done) (size_of l)
    ≫= (λ s, match (done ++ l) !! Z.to_nat s with
             | Some p => f p
             | None => []
             end)
  = l ≫= f.
Proof.
  revert done. induction l as [| x l IH]; intros done; [reflexivity |].
  unfold size_of in *. rewrite seqZ_cons by (simpl; lia).
  rewrite !bind_cons, Nat2Z.id, list_lookup_middle by reflexivity.
  f_equal. specialize (IH (done ++ [x])).
  rewrite length_app, <- app_assoc in IH. simpl in IH.
  rewrite <- IH. f_equal; simpl length; f_equal; lia.
Qed.

Lemma bind_seqZ_lookup {A B} (f : A → list B) (l : list A) :
  seqZ 0 (size_of l)
    ≫= (λ s, match l !! Z.to_nat s with Some p => f p | None => [] end)
  = l ≫= f.
Proof. apply (bind_seqZ_lookup_from f [] l). Qed.

(** A list is the sum of its parts by destination, when every destination
    is on the list of destinations and none is listed twice. *)
Lemma bind_key_absent {A} (x : A) (k : Z) (ds : list Z) :
  k ∉ ds → ds ≫= (λ d, if decide (k = d) then [x] else []) = [].
Proof.
  induction ds as [| a ds IH]; intros Hk; [reflexivity |].
  rewrite bind_cons, IH by (intros ?; apply Hk; now apply list_elem_of_further).
  destruct (decide (k = a)) as [-> |]; [| reflexivity].
  exfalso. apply Hk, list_elem_of_here.
Qed.

Lemma bind_key_present {A} (x : A) (k : Z) (ds : list Z) :
  NoDup ds → k ∈ ds → ds ≫= (λ d, if decide (k = d) then [x] else []) = [x].
Proof.
  induction ds as [| a ds IH]; intros Hnd Hk.
  - now apply elem_of_nil in Hk.
  - apply NoDup_cons in Hnd as [Ha Hnd]. rewrite bind_cons.
    destruct (decide (k = a)) as [-> |].
    + now rewrite bind_key_absent.
    + apply elem_of_cons in Hk as [? | Hk]; [congruence |].
      now rewrite IH.
Qed.

Lemma partition_by_destination {A} (l : list (A * Z)) (ds : list Z) :
  NoDup ds → Forall (λ pa, pa.2 ∈ ds) l →
  ds ≫= (λ d, (filter (λ pa, pa.2 = d) l).*1) ≡ₚ l.*1.
Proof.
  intros Hnd. induction l as [| [x k] l IH]; intros Hall.
  - simpl. now rewrite bind_const_nil.
  - apply Forall_cons in Hall as [Hk Hall]. simpl in Hk.
    transitivity
      (ds ≫= (λ d, (if decide (k = d) then [x] else [])
                   ++ (filter (λ pa, pa.2 = d) l).*1)).
    + apply bind_ext_Permutation. intros d _. rewrite filter_cons. simpl.
      destruct (decide (k = d)); reflexivity.
    + rewrite bind_app_pointwise, bind_key_present, IH by assumption.
      reflexivity.
Qed.

Lemma bind_fmap_compose {A B C} (f : A → B) (g : B → list C) (l : list A) :
  (f <$> l) ≫= g = l ≫= (λ x, g (f x)).
Proof.
  induction l as [| x l IH]; [reflexivity |].
  rewrite fmap_cons, !bind_cons. now rewrite IH.
Qed.

Lemma collect_Forall2 {A I} (Q : I → A → Prop) (ds : list I)
    (ms : list (Outcome A)) :
  Forall2 (λ d m, ∃ a, m = Ret a ∧ Q d a) ds ms →
  ∃ rs, collect ms = Ret rs ∧ Forall2 Q ds rs.
Proof.
  induction 1 as [| d m ds ms (a & -> & Ha) _ (rs & Hrs & Hall)].
  - exists []. split; [reflexivity | constructor].
  - exists (a :: rs). simpl. rewrite Hrs. split; [reflexivity |].
    now constructor.
Qed.

Lemma length_filter_by_destination {A} (l : list (A * Z)) (dest : Z) :
  length (filter (λ pa, pa.2 = dest) l)
  = length (filter (λ d, d = dest) l.*2).
Proof.
  induction l as [| [x d] l IH]; [reflexivity |].
  rewrite fmap_cons, !filter_cons. simpl.
  destruct (decide (d = dest)); simpl; now rewrite IH.
Qed.

Lemma length_contribution (owned : TableType) (assignments : list Z)
    (dest : Z) :
  length assignments = length (data owned) →
  length (contribution owned assignments dest)
  = length (filter (λ d, d = dest) assignments).
Proof.
  intros Hlen. unfold contribution.
  rewrite length_fmap, length_filter_by_destination.
  now rewrite snd_zip by lia.
Qed.

(** ** Migration over the whole group *)

Lemma recv_from_network (procs : Group) (me source tag : Z)
    (p : TableType * KMeansResult) :
  0 ≤ source →
  procs !! Z.to_nat source = Some p →
  (me, tag) ∈ send_plan (size_of procs) source →
  recv (network_of procs) me source tag
  = Ret (contribution p.1 (point_assignments p.2) me).
Proof.
  intros Hs Hp Hplan. unfold recv, network_of.
  destruct (Z.ltb_spec source 0); [lia |].
  rewrite list_lookup_imap, Hp. simpl. rewrite Z2Nat.id by exact Hs.
  destruct (filter _ (posted_sends _ _ _ _)) as [| m rest] eqn:Hfil.
  - exfalso.
    assert ({| msg_dest := me; msg_tag := tag;
               msg_payload := contribution p.1 (point_assignments p.2) me |}
            ∈ filter (λ m, msg_dest m = me ∧ msg_tag m = tag)
                (posted_sends (size_of procs) source p.1 p.2)) as Hin.
    { apply list_elem_of_filter. split; [split; reflexivity |].
      unfold posted_sends. apply list_elem_of_fmap.
      exists (me, tag). split; [reflexivity | exact Hplan]. }
    rewrite Hfil in Hin. now apply elem_of_nil in Hin.
  - assert (m ∈ filter (λ m, msg_dest m = me ∧ msg_tag m = tag)
                (posted_sends (size_of procs) source p.1 p.2)) as Hin
      by (rewrite Hfil; apply list_elem_of_here).
    apply list_elem_of_filter in Hin as [[Hdest _] Hm].
    unfold posted_sends in Hm.
    apply list_elem_of_fmap in Hm as (dt & -> & _).
    simpl in *. now rewrite Hdest.
Qed.

Lemma fetch_in_group (procs : Group) (rank : Z)
    (p : TableType * KMeansResult) (src : Inflow) :
  0 ≤ rank < size_of procs →
  procs !! Z.to_nat rank = Some p →
  src ∈ receive_order (size_of procs) rank →
  fetch (network_of procs) rank p.1 p.2 src
  = Ret (fragment_for procs rank (inflow_rank rank src)).
Proof.
  intros Hrank Hp Hsrc. destruct src as [source tag |]; simpl.
  - apply elem_of_receive_order in Hsrc; [| exact Hrank].
    assert (0 ≤ source < size_of procs) as Hsource by lia.
    destruct (lookup_lt_is_Some_2 procs (Z.to_nat source)) as [ps Hps];
      [unfold size_of in Hsource; lia |].
    unfold fragment_for. rewrite Hps.
    apply recv_from_network; [lia | exact Hps |].
    apply elem_of_send_plan; lia.
  - unfold fragment_for. now rewrite Hp.
Qed.

Lemma sources_Permutation (comm_size rank : Z) :
  0 ≤ rank < comm_size →
  inflow_rank rank <$> receive_order comm_size rank ≡ₚ seqZ 0 comm_size.
Proof.
  intros Hrank. rewrite receive_order_sources by exact Hrank.
  rewrite reverse_Permutation.
  replace comm_size with (rank + (comm_size - rank)) at 2 by lia.
  rewrite seqZ_app by lia. apply Permutation_app_head.
  rewrite (seqZ_cons (0 + rank)) by lia. simpl.
  apply Permutation_cons; [reflexivity |].
  replace (Z.succ (0 + rank)) with (rank + 1) by lia.
  replace (Z.pred (comm_size - rank)) with (comm_size - rank - 1) by lia.
  reflexivity.
Qed.

Section Migration.

Variable procs : Group.
Hypothesis consistent : solver_consistent procs.

Lemma fragments_of_source (source : Z) (p : TableType * KMeansResult) :
  procs !! Z.to_nat source = Some p →
  seqZ 0 (size_of procs) ≫= (λ dest, fragment_for procs dest source)
  ≡ₚ data p.1.
Proof.
  intros Hp. unfold fragment_for. rewrite Hp. unfold contribution.
  pose proof (Forall_lookup_1 _ _ _ _
                (one_destination_per_point procs consistent) Hp) as Hlen.
  pose proof (Forall_lookup_1 _ _ _ _
                (destinations_in_group procs consistent) Hp) as Hdest.
  simpl in Hlen, Hdest.
  rewrite partition_by_destination.
  - now rewrite fst_zip by lia.
  - apply NoDup_seqZ.
  - apply Forall_forall. intros [x d] Hin. simpl.
    apply elem_of_zip_r in Hin.
    rewrite Forall_forall in Hdest. specialize (Hdest d Hin).
    apply elem_of_seqZ. lia.
Qed.

Lemma arrivals_Permutation :
  seqZ 0 (size_of procs)
    ≫= (λ dest, (inflow_rank dest <$> receive_order (size_of procs) dest)
                ≫= fragment_for procs dest)
  ≡ₚ all_points procs.*1.
Proof.
  transitivity
    (seqZ 0 (size_of procs)
       ≫= (λ dest, seqZ 0 (size_of procs) ≫= fragment_for procs dest)).
  { apply bind_ext_Permutation. intros dest Hdest.
    apply elem_of_seqZ in Hdest.
    now rewrite sources_Permutation by lia. }
  rewrite bind_bind_swap.
  transitivity
    (seqZ 0 (size_of procs)
       ≫= (λ s, match procs !! Z.to_nat s with
                | Some p => data p.1
                | None => []
                end)).
  { apply bind_ext_Permutation. intros s Hs. apply elem_of_seqZ in Hs.
    destruct (lookup_lt_is_Some_2 procs (Z.to_nat s)) as [p Hp];
      [unfold size_of in Hs; lia |].
    rewrite Hp. now apply fragments_of_source. }
  rewrite (bind_seqZ_lookup (λ p, data p.1)).
  unfold all_points. rewrite concat_fmap_bind, bind_fmap_compose.
  reflexivity.
Qed.

Lemma size_of_arrivals (dest : Z) :
  0 ≤ dest < size_of procs →
  size_of ((inflow_rank dest <$> receive_order (size_of procs) dest)
           ≫= fragment_for procs dest)
  = count_assigned procs dest.
Proof.
  intros Hdest. unfold size_of at 1.
  rewrite (Permutation_length
             (bind_Permutation _ _ _ (sources_Permutation _ _ Hdest))).
  unfold fragment_for.
  rewrite (bind_seqZ_lookup
             (λ p, contribution p.1 (point_assignments p.2) dest)).
  fold (size_of (procs ≫= (λ p, contribution p.1 (point_assignments p.2) dest))).
  rewrite length_bind_sum. unfold count_assigned. f_equal.
  apply Forall_fmap_ext.
  eapply Forall_impl; [apply (one_destination_per_point procs consistent) |].
  intros p Hlen. simpl in *. unfold size_of. f_equal.
  now apply length_contribution.
Qed.

Lemma total_of_rank (rank : Z) (p : TableType * KMeansResult) :
  0 ≤ rank →
  procs !! Z.to_nat rank = Some p →
  total_num_points_owned p.2 = count_assigned procs rank.
Proof.
  intros Hrank Hp.
  pose proof (f_equal (λ l, l !! Z.to_nat rank)
                (totals_match procs consistent)) as Heq.
  simpl in Heq. rewrite !list_lookup_fmap, Hp in Heq.
  rewrite lookup_seq_lt in Heq by (eapply lookup_lt_Some, Hp).
  simpl in Heq. injection Heq as ->. now rewrite Z2Nat.id.
Qed.

Lemma ReadjustCentroids__in_group (rank : Z)
    (p : TableType * KMeansResult) :
  0 ≤ rank < size_of procs →
  procs !! Z.to_nat rank = Some p →
  ∃ t log,
    ReadjustCentroids_ (size_of procs) rank (network_of procs) p.1 p.2
    = Ret (t, log)
    ∧ data t
      = (inflow_rank rank <$> receive_order (size_of procs) rank)
          ≫= fragment_for procs rank
    ∧ n_attributes t = n_attributes p.1.
Proof.
  intros Hrank Hp.
  set (frags := (λ src, fragment_for procs rank (inflow_rank rank src))
                  <$> receive_order (size_of procs) rank).
  assert (Forall2 (λ src f, fetch (network_of procs) rank p.1 p.2 src = Ret f)
            (receive_order (size_of procs) rank) frags) as Hfetch.
  { unfold frags. apply Forall2_fmap_r, Forall_Forall2_diag, Forall_forall.
    intros src Hsrc. now apply fetch_in_group. }
  assert (concat frags
          = (inflow_rank rank <$> receive_order (size_of procs) rank)
              ≫= fragment_for procs rank) as Hconcat.
  { unfold frags. now rewrite concat_fmap_bind, bind_fmap_compose. }
  assert (size_of (concat frags) = total_num_points_owned p.2) as Hsize.
  { rewrite Hconcat, size_of_arrivals by exact Hrank.
    symmetry. apply total_of_rank; [lia | exact Hp]. }
  destruct (ReadjustCentroids__returns (size_of procs) rank
              (network_of procs) p.1 p.2 frags Hfetch)
    as (t & log & Hrun); [lia |].
  exists t, log. split; [exact Hrun |].
  apply ReadjustCentroids__inv in Hrun
    as (frags' & Hfetch' & _ & _ & Hlen & Hattr & Hdata).
  rewrite <- (fetch_deterministic _ _ _ _ _ _ _ Hfetch Hfetch') in Hdata.
  split; [| exact Hattr].
  rewrite <- Hconcat, <- Hdata. symmetry. apply take_ge.
  unfold size_of in Hsize. lia.
Qed.

Lemma ReadjustCentroids_group_returns :
  ∃ moved,
    collect (ReadjustCentroids_group procs) = Ret moved
    ∧ Forall2 (λ rank m,
                 data m.1
                 = (inflow_rank rank
                      <$> receive_order (size_of procs) rank)
                     ≫= fragment_for procs rank)
        (seqZ 0 (size_of procs)) moved.
Proof.
  apply collect_Forall2. unfold ReadjustCentroids_group.
  apply Forall2_same_length_lookup_2.
  - rewrite length_seqZ, length_imap. unfold size_of. lia.
  - intros i rank m Hrank Hm.
    apply lookup_seqZ in Hrank as [-> Hi].
    rewrite list_lookup_imap in Hm.
    destruct (procs !! i) as [p |] eqn:Hp; [| discriminate].
    injection Hm as <-. simpl.
    destruct (ReadjustCentroids__in_group (Z.of_nat i) p)
      as (t & log & Hrun & Hdata & _).
    + lia.
    + now rewrite Nat2Z.id.
    + exists (t, log). split; [exact Hrun | exact Hdata].
Qed.

End Migration.

(** ** [IndexData] conserves the points of the group *)

Lemma collect_Forall2_Ret {A} (ms : list (Outcome A)) (rs : list A) :
  collect ms = Ret rs → Forall2 (λ m a, m = Ret a) ms rs.
Proof.
  revert rs. induction ms as [| m ms IH]; intros rs; simpl.
  - intros [= <-]. constructor.
  - destruct m as [a | w]; [| discriminate]. simpl.
    destruct (collect ms) as [rs' |]; [| discriminate]. simpl.
    intros [= <-]. constructor; [reflexivity | now apply IH].
Qed.

Lemma collect_fmap_returns {A B} (f : A → Outcome B) (l : list A) :
  Forall (λ x, ∃ b, f x = Ret b) l → ∃ rs, collect (f <$> l) = Ret rs.
Proof.
  induction 1 as [| x l [b Hb] _ [rs Hrs]].
  - exists []. reflexivity.
  - exists (b :: rs). rewrite fmap_cons. cbn [collect].
    rewrite Hb, Hrs. reflexivity.
Qed.

Lemma owned_tables_length (tables : list DistributedTable)
    (owned : list TableType) :
  owned_tables tables = Ret owned → length owned = length tables.
Proof.
  unfold owned_tables. intros H%collect_Forall2_Ret.
  apply Forall2_length in H. now rewrite length_fmap in H.
Qed.

Lemma owned_tables_zip_with (f : DistributedTable → TableType → DistributedTable)
    (tables : list DistributedTable) (shards : list TableType) :
  (∀ t s, owned_table_ (f t s) = Some s) →
  length tables = length shards →
  owned_tables (zip_with f tables shards) = Ret shards.
Proof.
  intros Hf. unfold owned_tables. revert shards.
  induction tables as [| t tables IH]; intros [| s shards] Hlen;
    try discriminate; [reflexivity |].
  cbn [zip_with]. rewrite fmap_cons. cbn [collect].
  rewrite Hf, IH by (simpl in Hlen; lia). reflexivity.
Qed.

Lemma Forall2_fmap_eq {A B C} (g : B → C) (h : A → C) (la : list A)
    (lb : list B) :
  Forall2 (λ a b, g b = h a) la lb → g <$> lb = h <$> la.
Proof.
  induction 1 as [| a b la lb Hab _ IH]; [reflexivity |].
  rewrite !fmap_cons. now rewrite Hab, IH.
Qed.

Lemma total_entries_all_points (shards : list TableType) :
  total_entries shards = size_of (all_points shards).
Proof.
  unfold total_entries, all_points, n_entries.
  rewrite concat_fmap_bind, length_bind_sum. reflexivity.
Qed.

Lemma migrate_and_index_returns {builder : LocalTreeBuilder}
    (leaf_size : Z) (tables : list DistributedTable)
    (owned : list TableType) (kms : list KMeansResult) :
  owned_tables tables = Ret owned →
  Forall (λ t, is_Some (local_n_entries_ t)) tables →
  length kms = length tables →
  solver_consistent (zip owned kms) →
  ∃ tables' owned',
    migrate_and_index leaf_size tables kms = Ret tables'
    ∧ owned_tables tables' = Ret owned'
    ∧ length tables' = length tables
    ∧ all_points owned' ≡ₚ all_points owned
    ∧ total_entries owned' = total_entries owned
    ∧ Forall (λ t', IsIndexed t' = Ret true
                    ∧ local_n_entries_ t' = Some (n_entries <$> owned'))
        tables'.
Proof.
  intros Howned Hdir Hkms Hcons.
  pose proof (owned_tables_length _ _ Howned) as Hlen.
  destruct (ReadjustCentroids_group_returns (zip owned kms) Hcons)
    as (moved & Hmoved & Hdata).
  set (shards := (λ m : TableType * list (Inflow * Z),
                    Table_IndexData m.1 leaf_size) <$> moved).
  assert (length shards = length tables) as Hshards.
  { unfold shards. rewrite length_fmap.
    rewrite <- (Forall2_length _ _ _ Hdata), length_seqZ.
    unfold size_of. rewrite Nat2Z.id, length_zip. lia. }
  destruct (collect_fmap_returns (λ s, deref (get_tree s)) shards)
    as [roots Hroots].
  { unfold shards. apply Forall_fmap, Forall_forall. intros m _. simpl.
    destruct (Table_IndexData_tree m.1 leaf_size) as [root ->]. eauto. }
  destruct (collect_fmap_returns (λ t, deref (local_n_entries_ t)) tables)
    as [dirs Hdirs].
  { eapply Forall_impl; [exact Hdir |]. intros t [dir ->]. simpl. eauto. }
  assert (all_points shards ≡ₚ all_points owned) as Hperm.
  { unfold all_points, shards.
    rewrite <- list_fmap_compose, concat_fmap_bind.
    transitivity (moved ≫= (λ m, data m.1)).
    { apply bind_ext_Permutation. intros m _. apply Table_IndexData_data. }
    rewrite <- concat_fmap_bind, (Forall2_fmap_eq _ _ _ _ Hdata).
    rewrite concat_fmap_bind, (arrivals_Permutation _ Hcons).
    unfold all_points. now rewrite fst_zip by lia. }
  eexists _, shards. split; [| split; [| split; [| split; [| split]]]].
  - unfold migrate_and_index. rewrite Howned. simpl. rewrite Hmoved. simpl.
    fold shards. rewrite Hroots. simpl. rewrite Hdirs. simpl. reflexivity.
  - apply owned_tables_zip_with; [reflexivity | lia].
  - rewrite length_zip_with. lia.
  - exact Hperm.
  - rewrite !total_entries_all_points. unfold size_of.
    now rewrite (Permutation_length Hperm).
  - apply Forall_forall. intros t' Hin.
    apply elem_of_zip_with in Hin as (t & s & -> & _ & _).
    split; [| reflexivity]. unfold IsIndexed. simpl.
    now rewrite bool_decide_true by apply Table_IndexData_tree.
Qed.

(** * Further properties of the code *)

(** ** Walking a cursor *)

Lemma Next_in_table {util : IndexUtil} (it : TreeIterator)
    (table : DistributedTable) (g : TableType) :
  global_table_ table = Some g →
  0 ≤ current_index_ it + 1 < size_of (data g) →
  (is_Some (get_tree g) → current_index_ it + 1 < size_of (old_from_new g)) →
  ∃ entry point_id,
    Next it table = Ret (advance it, entry, point_id)
    ∧ iterator_get_ table (current_index_ it + 1) = Ret entry
    ∧ iterator_get_id_ table (current_index_ it + 1) = Ret point_id.
Proof.
  intros Hg Hpos Hids.
  destruct (at_index_in_range (data g) (current_index_ it + 1) Hpos)
    as (entry & Hentry & _).
  assert (iterator_get_ table (current_index_ it + 1) = Ret entry) as Hget.
  { unfold iterator_get_, MakeColumnVector. now rewrite Hg. }
  assert (∃ point_id,
            iterator_get_id_ table (current_index_ it + 1) = Ret point_id)
    as [point_id Hid].
  { destruct (get_tree g) as [root |] eqn:Htree.
    - destruct (at_index_in_range (old_from_new g) (current_index_ it + 1))
        as (e & _ & He); [split; [lia | apply Hids; eauto] |].
      exists (entry_point_id e).
      rewrite (iterator_get_id_indexed table g) by (rewrite ?Htree; eauto).
      apply Extract_at; [lia | exact He].
    - exists (current_index_ it + 1).
      now apply (iterator_get_id_unindexed table g). }
  exists entry, point_id. repeat split; try assumption.
  unfold Next. simpl. rewrite Hget. simpl. now rewrite Hid.
Qed.

Lemma drain_from {util : IndexUtil} (table : DistributedTable)
    (g : TableType) (fuel : nat) (it : TreeIterator) :
  global_table_ table = Some g →
  0 ≤ current_index_ it + 1 →
  end_ it ≤ size_of (data g) →
  (is_Some (get_tree g) → end_ it ≤ size_of (old_from_new g)) →
  end_ it - 1 - current_index_ it ≤ Z.of_nat fuel →
  ∃ visited it',
    drain fuel it table = Ret (visited, it')
    ∧ HasNext it' = false
    ∧ begin_ it' = begin_ it ∧ end_ it' = end_ it
    ∧ Forall2 (λ pos item,
                 item.1.1 = pos
                 ∧ iterator_get_ table pos = Ret item.1.2
                 ∧ iterator_get_id_ table pos = Ret item.2)
        (seqZ (current_index_ it + 1) (end_ it - 1 - current_index_ it))
        visited.
Proof.
  intros Hg. revert it.
  induction fuel as [| fuel IH]; intros it Hpos Hend Hids Hfuel.
  - exists [], it. simpl. unfold HasNext.
    destruct (Z.ltb_spec (current_index_ it) (end_ it - 1)); [lia |].
    rewrite seqZ_nil by lia. repeat split. constructor.
  - simpl. unfold HasNext at 1.
    destruct (Z.ltb_spec (current_index_ it) (end_ it - 1)) as [Hmore | Hdone].
    + destruct (Next_in_table it table g Hg) as (entry & id & Hnext & He & Hi).
      { lia. }
      { intros Htree. specialize (Hids Htree). lia. }
      rewrite Hnext. simpl.
      destruct (IH (advance it)) as (rest & it' & Hrun & Hno & Hb & He' & Hall);
        simpl; try lia; try assumption.
      rewrite Hrun. simpl.
      exists ((current_index_ it + 1, entry, id) :: rest), it'.
      repeat split; try assumption.
      rewrite seqZ_cons by lia. constructor; [repeat split; assumption |].
      replace (Z.succ (current_index_ it + 1))
        with (current_index_ it + 1 + 1) by lia.
      replace (Z.pred (end_ it - 1 - current_index_ it))
        with (end_ it - 1 - (current_index_ it + 1)) by lia.
      exact Hall.
    + exists [], it. unfold HasNext.
      destruct (Z.ltb_spec (current_index_ it) (end_ it - 1)); [lia |].
      rewrite seqZ_nil by lia. repeat split. constructor.
Qed.

(** X1.  Walking a fresh cursor over a window that lies inside the global
    table visits the positions [begin .. end - 1] in order, exactly
    [count()] of them; the [k]-th round returns what [get(k)] and
    [get_id(k)] return; the loop ends with [HasNext()] false; and after
    [Reset()] the same loop visits the same positions and returns the same
    points and identifiers. *)
Theorem cursor_walk_visits_window {util : IndexUtil}
    (table : DistributedTable) (g : TableType) (begin cnt : Z) (fuel : nat) :
  global_table_ table = Some g →
  0 ≤ begin → 0 ≤ cnt →
  begin + cnt ≤ size_of (data g) →
  (is_Some (get_tree g) → begin + cnt ≤ size_of (old_from_new g)) →
  cnt ≤ Z.of_nat fuel →
  let it := get_node_iterator_range begin cnt in
  ∃ visited it',
    drain fuel it table = Ret (visited, it')
    ∧ HasNext it' = false
    ∧ size_of visited = count it
    ∧ visited.*1.*1 = seqZ begin cnt
    ∧ Forall2 (λ k item,
                 get it table k = Ret item.1.2
                 ∧ get_id it table k = Ret item.2)
        (seqZ 0 cnt) visited
    ∧ Reset it' = it
    ∧ drain fuel (Reset it') table = Ret (visited, it').
Proof.
  intros Hg Hb Hc Hdata Hids Hfuel it.
  destruct (drain_from table g fuel it Hg) as
    (visited & it' & Hrun & Hno & Hbegin & Hend & Hall);
    simpl; try lia.
  { intros Htree. specialize (Hids Htree). lia. }
  simpl in Hall.
  replace (begin - 1 + 1) with begin in Hall by lia.
  replace (begin + cnt - 1 - (begin - 1)) with cnt in Hall by lia.
  assert (Reset it' = it) as Hreset.
  { unfold Reset, it, get_node_iterator_range. simpl in Hbegin, Hend.
    now rewrite Hbegin, Hend. }
  exists visited, it'. repeat split; try assumption.
  - unfold size_of, count. simpl.
    rewrite <- (Forall2_length _ _ _ Hall), length_seqZ. lia.
  - clear -Hall. induction Hall as [| pos item ps vs (Hp & _ & _) _ IH];
      [reflexivity |].
    rewrite !fmap_cons. now rewrite Hp, IH.
  - replace (seqZ begin cnt) with (Z.add begin <$> seqZ 0 cnt) in Hall
      by (rewrite fmap_add_seqZ; f_equal; lia).
    apply Forall2_fmap_l in Hall.
    eapply Forall2_impl; [exact Hall |].
    intros k item (_ & He & Hi). unfold get, get_id. simpl. auto.
  - now rewrite Hreset.
Qed.

Lemma cursor_walk_visits_window_witness :
  ∃ visited it',
    drain (util := example_IndexUtil) 5 example_cursor example_table
    = Ret (visited, it')
    ∧ HasNext it' = false
    ∧ size_of visited = 2
    ∧ visited.*1.*1 = [0; 1].
Proof.
  destruct (cursor_walk_visits_window (util := example_IndexUtil)
              example_table example_summary 0 2 5 eq_refl
              ltac:(lia) ltac:(lia) ltac:(vm_compute; discriminate)
              ltac:(intros _; vm_compute; discriminate)
              ltac:(lia))
    as (visited & it' & Hrun & Hno & Hsize & Hpos & _).
  exists visited, it'. auto.
Defined.

(** X2.  [Next] does not consult [HasNext]: on a cursor that has reached
    the end of its window it still moves on.  When the global table holds a
    column just behind the window (and, being indexed, an entry of
    [old_from_new] for it), [Next] returns that column with the identifier
    [iterator_get_id_] resolves there; when the window ends where the matrix
    ends, [Next] reads outside the matrix. *)
Theorem Next_runs_past_window {util : IndexUtil} (it : TreeIterator)
    (table : DistributedTable) (g : TableType) :
  global_table_ table = Some g →
  current_index_ it = end_ it - 1 →
  0 ≤ end_ it →
  HasNext it = false
  ∧ (end_ it < size_of (data g) →
     (is_Some (get_tree g) → end_ it < size_of (old_from_new g)) →
     ∃ entry point_id,
       Next it table = Ret (advance it, entry, point_id)
       ∧ current_index_ (advance it) = end_ it
       ∧ data g !! Z.to_nat (end_ it) = Some entry
       ∧ iterator_get_id_ table (end_ it) = Ret point_id)
  ∧ (size_of (data g) ≤ end_ it → Next it table = Fault OutOfBounds).
Proof.
  intros Hg Hcur Hend. split; [| split].
  - unfold HasNext. destruct (Z.ltb_spec (current_index_ it) (end_ it - 1));
      [lia | reflexivity].
  - intros Hin Hids.
    destruct (Next_in_table it table g Hg)
      as (entry & id & Hnext & Hget & Hid).
    { lia. }
    { intros Htree. specialize (Hids Htree). lia. }
    replace (current_index_ it + 1) with (end_ it) in * by lia.
    exists entry, id. split; [exact Hnext |].
    split; [simpl; lia | split; [| exact Hid]].
    unfold iterator_get_, MakeColumnVector in Hget. rewrite Hg in Hget.
    simpl in Hget. now apply at_index_Ret in Hget as [_ Hget].
  - intros Hout. unfold Next, iterator_get_, MakeColumnVector. simpl.
    rewrite Hg. simpl. unfold at_index.
    destruct (Z.ltb_spec (current_index_ it + 1) 0); [reflexivity |].
    rewrite lookup_ge_None_2; [reflexivity |]. unfold size_of in Hout. lia.
Qed.

(** ** The entry-count directory across the group *)

Lemma lookup_Init_group (loaded : list TableType) (me : nat)
    (t : DistributedTable) :
  Init_group loaded !! me = Some t →
  ∃ shard, loaded !! me = Some shard
           ∧ t = Init shard (size_of loaded) (n_entries <$> loaded)
                   DistributedTable_new.
Proof.
  unfold Init_group. rewrite list_lookup_fmap.
  destruct (loaded !! me) as [shard |]; [| discriminate].
  intros [= <-]. eauto.
Qed.

(** X4.  After [Init] on every rank of a group, every rank answers
    [local_n_entries(r)] with the size of the shard of rank [r] for each
    rank [r] of the group, silently, and with -1 and the diagnostic for each
    [r] from the group size on; its own entry is its own [n_entries()]. *)
Theorem directory_after_Init (loaded : list TableType) (me : nat)
    (t : DistributedTable) :
  Init_group loaded !! me = Some t →
  (∀ r shard, loaded !! r = Some shard →
     local_n_entries t (Z.of_nat r) = (Ret (n_entries shard), None))
  ∧ (∀ rank_in, size_of loaded ≤ rank_in →
       local_n_entries t rank_in = (Ret (-1), Some (rank_in, size_of loaded)))
  ∧ (local_n_entries t (Z.of_nat me)).1 = DistributedTable_n_entries t.
Proof.
  intros Ht. apply lookup_Init_group in Ht as (own & Hown & ->).
  assert (∀ r shard, loaded !! r = Some shard →
            local_n_entries
              (Init own (size_of loaded) (n_entries <$> loaded)
                 DistributedTable_new) (Z.of_nat r)
            = (Ret (n_entries shard), None)) as Hdir.
  { intros r shard Hr.
    destruct (local_n_entries_within
                (Init own (size_of loaded) (n_entries <$> loaded)
                   DistributedTable_new)
                (n_entries <$> loaded) (Z.of_nat r)) as (n & Hn & ->).
    - reflexivity.
    - simpl. unfold size_of. now rewrite length_fmap.
    - simpl. unfold size_of. apply lookup_lt_Some in Hr. lia.
    - rewrite Nat2Z.id, list_lookup_fmap, Hr in Hn. now injection Hn as <-. }
  split; [exact Hdir | split].
  - intros rank_in Hge. now apply local_n_entries_beyond.
  - rewrite (Hdir me own Hown). reflexivity.
Qed.

Lemma directory_after_Init_witness :
  local_n_entries
    (Init (raw_shard [point2 3 3; point2 4 4]) 3 [3; 2; 2]
       DistributedTable_new) 0
  = (Ret 3, None).
Proof.
  pose proof (directory_after_Init example_group.*1 1
                (Init (raw_shard [point2 3 3; point2 4 4]) 3 [3; 2; 2]
                   DistributedTable_new)) as Hdir.
  destruct Hdir as (Hdir & _ & _); [reflexivity |].
  exact (Hdir 0%nat (raw_shard [point2 0 0; point2 1 1; point2 2 2]) eq_refl).
Defined.

Lemma migrate_and_index_keeps_comm_size {builder : LocalTreeBuilder}
    (leaf_size P : Z) (tables tables' : list DistributedTable)
    (kms : list KMeansResult) :
  migrate_and_index leaf_size tables kms = Ret tables' →
  Forall (λ t, table_outbox_group_comm_size_ t = P) tables →
  Forall (λ t', table_outbox_group_comm_size_ t' = P) tables'.
Proof.
  unfold migrate_and_index. intros Hrun Hsize.
  repeat match type of Hrun with
         | mbind _ ?m = _ =>
             destruct m; [simpl in Hrun | discriminate Hrun]
         end.
  injection Hrun as <-.
  apply Forall_forall. intros t' Hin.
  apply elem_of_zip_with in Hin as (t & s & -> & Ht & _). simpl.
  rewrite Forall_forall in Hsize. now apply Hsize.
Qed.

Lemma collect_length {A} (ms : list (Outcome A)) (rs : list A) :
  collect ms = Ret rs → length rs = length ms.
Proof.
  intros H%collect_Forall2_Ret. symmetry. exact (Forall2_length _ _ _ H).
Qed.

Lemma migrate_and_index_global_table {builder : LocalTreeBuilder}
    (leaf_size : Z) (tables tables' : list DistributedTable)
    (kms : list KMeansResult) :
  length kms = length tables →
  migrate_and_index leaf_size tables kms = Ret tables' →
  ∃ owned' roots,
    owned_tables tables' = Ret owned'
    ∧ Forall2 (λ shard root, get_tree shard = Some root) owned' roots
    ∧ ∀ t', t' ∈ tables' →
        ∃ gt, global_table_ t' = Some gt
              ∧ n_entries gt = size_of tables
              ∧ data gt ≡ₚ bound_center <$> roots.
Proof.
  unfold migrate_and_index. intros Hkms Hrun.
  destruct (owned_tables tables) as [owned |] eqn:Howned;
    [simpl in Hrun | discriminate Hrun].
  destruct (collect (ReadjustCentroids_group (zip owned kms)))
    as [moved |] eqn:Hmoved; [simpl in Hrun | discriminate Hrun].
  set (shards := (λ m : TableType * list (Inflow * Z),
                    Table_IndexData m.1 leaf_size) <$> moved) in *.
  destruct (collect ((λ s, deref (get_tree s)) <$> shards))
    as [roots |] eqn:Hroots; [simpl in Hrun | discriminate Hrun].
  destruct (collect ((λ t, deref (local_n_entries_ t)) <$> tables))
    as [dirs |]; [simpl in Hrun | discriminate Hrun].
  injection Hrun as <-.
  assert (length shards = length tables) as Hlen.
  { unfold shards. rewrite length_fmap, (collect_length _ _ Hmoved).
    unfold ReadjustCentroids_group. rewrite length_imap, length_zip.
    pose proof (owned_tables_length _ _ Howned). lia. }
  pose proof (collect_length _ _ Hroots) as Hlenr.
  rewrite length_fmap in Hlenr.
  exists shards, roots. split; [| split].
  - apply owned_tables_zip_with; [reflexivity | lia].
  - apply collect_Forall2_Ret in Hroots. apply Forall2_fmap_l in Hroots.
    eapply Forall2_impl; [exact Hroots |]. intros s root Hs. simpl in Hs.
    destruct (get_tree s); [| discriminate Hs]. now injection Hs as ->.
  - intros t' Hin. apply elem_of_zip_with in Hin as (t & s & -> & _ & _).
    eexists. split; [reflexivity |]. simpl. split.
    + unfold n_entries, size_of.
      rewrite (Permutation_length (Table_IndexData_data _ 1)). simpl.
      rewrite length_fmap. lia.
    + rewrite Table_IndexData_data. reflexivity.
Qed.

(** ** Subset sampling *)

Lemma swap_at_Ret (l l' : list Z) (i j : Z) :
  swap_at l i j = Ret l' →
  0 ≤ i < size_of l ∧ 0 ≤ j < size_of l
  ∧ length l' = length l
  ∧ ∀ k, l' !! k
         = l !! (if decide (k = Z.to_nat i) then Z.to_nat j
                 else if decide (k = Z.to_nat j) then Z.to_nat i else k).
Proof.
  unfold swap_at.
  destruct (at_index l i) as [x |] eqn:Hx; [| discriminate]. simpl.
  destruct (at_index l j) as [y |] eqn:Hy; [| discriminate]. simpl.
  intros [= <-].
  apply at_index_Ret in Hx as [Hi Hx]. apply at_index_Ret in Hy as [Hj Hy].
  pose proof (lookup_lt_Some _ _ _ Hx). pose proof (lookup_lt_Some _ _ _ Hy).
  unfold size_of. repeat split; try lia.
  - now rewrite !length_insert.
  - intros k. destruct (decide (k = Z.to_nat i)) as [-> |].
    + rewrite list_lookup_insert_eq by (rewrite length_insert; lia).
      now rewrite Hy.
    + rewrite list_lookup_insert_ne by congruence.
      destruct (decide (k = Z.to_nat j)) as [-> |].
      * rewrite list_lookup_insert_eq by lia. now rewrite Hx.
      * now rewrite list_lookup_insert_ne by congruence.
Qed.

Lemma swap_at_in_range (l : list Z) (i j : Z) :
  0 ≤ i < size_of l → 0 ≤ j < size_of l → ∃ l', swap_at l i j = Ret l'.
Proof.
  intros Hi Hj. unfold swap_at.
  destruct (at_index_in_range l i Hi) as (x & -> & _).
  destruct (at_index_in_range l j Hj) as (y & -> & _).
  simpl. eauto.
Qed.

Lemma swap_at_lists_each_index (n : Z) (l l' : list Z) (i j : Z) :
  lists_each_index n l → swap_at l i j = Ret l' → lists_each_index n l'.
Proof.
  intros (Hlen & Hnd & Hmem) (Hi & Hj & Hlen' & Hlook)%swap_at_Ret.
  set (σ := λ k : nat,
         if decide (k = Z.to_nat i) then Z.to_nat j
         else if decide (k = Z.to_nat j) then Z.to_nat i else k) in *.
  assert (∀ k, σ (σ k) = k) as Hinv.
  { intros k. unfold σ. repeat case_decide; congruence. }
  unfold lists_each_index, size_of in *.
  split; [lia | split; [| intros x; split]].
  - apply NoDup_alt. intros a b x Ha Hb. rewrite Hlook in Ha, Hb.
    rewrite NoDup_alt in Hnd. specialize (Hnd _ _ _ Ha Hb).
    change (σ a = σ b) in Hnd.
    rewrite <- (Hinv a), <- (Hinv b). now f_equal.
  - intros (k & Hk)%list_elem_of_lookup_1. rewrite Hlook in Hk.
    apply Hmem. eapply list_elem_of_lookup_2, Hk.
  - intros Hx. apply Hmem in Hx as (k & Hk)%list_elem_of_lookup_1.
    apply (list_elem_of_lookup_2 _ (σ k)). rewrite Hlook.
    change (l !! σ (σ k) = Some x). now rewrite Hinv.
Qed.

Lemma seqZ_lists_each_index (n : Z) : 0 ≤ n → lists_each_index n (seqZ 0 n).
Proof.
  intros Hn. unfold lists_each_index, size_of.
  split; [rewrite length_seqZ; lia | split; [apply NoDup_seqZ |]].
  intros x. rewrite elem_of_seqZ. lia.
Qed.

Lemma shuffle_prefix_returns (n : Z) (rounds : nat) (i : Z) (l : list Z)
    (g : Rng) :
  lists_each_index n l → 0 ≤ i → i + Z.of_nat rounds ≤ n →
  ∃ l' g', shuffle_prefix rounds i l g = Ret (l', g')
           ∧ lists_each_index n l'.
Proof.
  revert i l g. induction rounds as [| rounds IH]; intros i l g Hl Hi Hfit.
  - simpl. eauto.
  - simpl. destruct (RandInt2 i (size_of l) g) as [r g1] eqn:Hr.
    pose proof Hl as (Hlen & _ & _).
    assert (i ≤ r < size_of l) as Hrange.
    { change r with (r, g1).1. rewrite <- Hr. apply RandInt2_range. lia. }
    destruct (swap_at_in_range l i r) as [l1 Hswap]; [lia | lia |].
    rewrite Hswap. simpl.
    apply IH; [eapply swap_at_lists_each_index; eassumption | lia | lia].
Qed.

Lemma shuffle_prefix_overruns (rounds : nat) (i : Z) (l : list Z) (g : Rng) :
  0 ≤ i ≤ size_of l → size_of l - i < Z.of_nat rounds →
  shuffle_prefix rounds i l g = Fault OutOfBounds.
Proof.
  revert i l g. induction rounds as [| rounds IH]; intros i l g Hi Hfuel;
    [lia |].
  simpl. destruct (RandInt2 i (size_of l) g) as [r g1] eqn:Hr.
  destruct (decide (i = size_of l)) as [Hend | Hmore].
  - unfold swap_at, at_index.
    destruct (Z.ltb_spec i 0); [lia |].
    rewrite (lookup_ge_None_2 l (Z.to_nat i))
      by (unfold size_of in Hend; lia).
    reflexivity.
  - assert (i ≤ r < size_of l) as Hrange.
    { change r with (r, g1).1. rewrite <- Hr. apply RandInt2_range. lia. }
    destruct (swap_at_in_range l i r) as [l1 Hswap]; [lia | lia |].
    rewrite Hswap. simpl.
    apply swap_at_Ret in Hswap as (_ & _ & Hlen & _).
    unfold size_of in *. apply IH; rewrite Hlen; lia.
Qed.

Lemma num_elements_bounds (p : Qc) (n : Z) :
  (p ≤ 1)%Qc → 1 ≤ n < 2 ^ 53 → 1 ≤ num_elements p n ≤ n.
Proof.
  intros Hp Hn. unfold num_elements. split; [lia |].
  apply Z.max_lub; [| lia].
  rewrite <- (Qfloor_Z n) at 2.
  erewrite (Qfloor_comp (inject_Z n)) by (symmetry; apply Qred_correct).
  apply Qfloor_resp_le. unfold double_mul.
  apply (round_double_le_int _ n); [| lia].
  unfold double_of_int, Qcle, Qcmult, Q2Qc. simpl. rewrite !Qred_correct.
  rewrite <- (Qmult_1_l (inject_Z n)) at 2.
  apply Qmult_le_compat_r; [exact Hp |].
  change 0%Q with (inject_Z 0). rewrite <- Zle_Qle. lia.
Qed.

Lemma SelectSubset__returns (p : Qc) (n : Z) (sampled_indices_out : list Z)
    (g : Rng) :
  1 ≤ n < 2 ^ 53 → (p ≤ 1)%Qc →
  ∃ sampled g',
    SelectSubset_ p n sampled_indices_out g
    = Ret (sampled_indices_out ++ sampled, g')
    ∧ size_of sampled = num_elements p n
    ∧ 1 ≤ size_of sampled ≤ n
    ∧ NoDup sampled
    ∧ Forall (λ x, 0 ≤ x < n) sampled.
Proof.
  intros Hn Hp. pose proof (num_elements_bounds p n Hp Hn) as Hk.
  unfold SelectSubset_.
  destruct (shuffle_prefix_returns n (Z.to_nat (num_elements p n)) 0
              (seqZ 0 n) g) as (l' & g' & Hrun & Hlen & Hnd & Hmem);
    [apply seqZ_lists_each_index; lia | lia | lia |].
  rewrite Hrun. simpl.
  destruct (collect_Forall2 (λ d a, l' !! Z.to_nat d = Some a)
              (seqZ 0 (num_elements p n))
              (at_index l' <$> seqZ 0 (num_elements p n)))
    as (sampled & Hcollect & Hall).
  { apply Forall2_fmap_r, Forall_Forall2_diag, Forall_forall.
    intros d Hd%elem_of_seqZ.
    destruct (at_index_in_range l' d) as (a & Ha & Hlook); [lia |]. eauto. }
  rewrite Hcollect. simpl. exists sampled, g'.
  assert (size_of sampled = num_elements p n) as Hsize.
  { unfold size_of. rewrite <- (Forall2_length _ _ _ Hall), length_seqZ. lia. }
  assert (∀ i a, sampled !! i = Some a → l' !! i = Some a) as Hsub.
  { intros i a Hi.
    destruct (Forall2_lookup_r _ _ _ _ _ Hall Hi) as (d & Hd & Hl).
    apply lookup_seqZ in Hd as [-> _]. now rewrite Z.add_0_l, Nat2Z.id in Hl. }
  split; [reflexivity | split; [exact Hsize | split; [lia | split]]].
  - apply NoDup_alt. intros a b x Ha Hb. rewrite NoDup_alt in Hnd.
    eapply Hnd; eauto.
  - apply Forall_forall. intros x (i & Hi)%list_elem_of_lookup_1.
    apply Hmem. eapply list_elem_of_lookup_2, Hsub, Hi.
Qed.

(** X7.  On a shard of [n ≥ 1] points ([n] below [2 ^ 53], as every [int]
    is) and a probability of at most one, [SelectSubset_] appends
    [max(floor(p * n), 1)] indices to its output, the product being the
    rounded product of doubles: between one and [n] of them, indices of the
    shard, no index twice. *)
Theorem SelectSubset_samples_without_replacement (p : Qc) (n : Z)
    (sampled_indices_out : list Z) (g : Rng) :
  1 ≤ n < 2 ^ 53 → (p ≤ 1)%Qc →
  ∃ sampled g',
    SelectSubset_ p n sampled_indices_out g
    = Ret (sampled_indices_out ++ sampled, g')
    ∧ size_of sampled = num_elements p n
    ∧ 1 ≤ size_of sampled ≤ n
    ∧ NoDup sampled
    ∧ Forall (λ x, 0 ≤ x < n) sampled.
Proof.
  intros Hn Hp.
  destruct (SelectSubset__returns p n sampled_indices_out g Hn Hp)
    as (sampled & g' & Hrun & Hsize & Hrange & Hnd & Hin).
  exists sampled, g'. auto.
Qed.

Lemma SelectSubset_samples_without_replacement_witness :
  ∃ sampled g',
    SelectSubset_ (round_double (Q2Qc (7 # 10))) 10 [] [7; 3; 9; 0; 4; 1; 8]
    = Ret ([] ++ sampled, g')
    ∧ size_of sampled = 7
    ∧ NoDup sampled
    ∧ Forall (λ x, 0 ≤ x < 10) sampled.
Proof.
  destruct (SelectSubset_samples_without_replacement
              (round_double (Q2Qc (7 # 10))) 10 [] [7; 3; 9; 0; 4; 1; 8])
    as (sampled & g' & Hrun & Hsize & _ & Hnd & Hin).
  - lia.
  - vm_compute. discriminate.
  - exists sampled, g'. split; [exact Hrun |].
    split; [rewrite Hsize; vm_compute; reflexivity | auto].
Defined.

(** X8.  When the number of indices to draw exceeds the size of the shard
    (an empty shard, for which it is still one, or a probability above one),
    the shuffle of [SelectSubset_] indexes behind the end of its index
    vector. *)
Theorem SelectSubset_overruns (p : Qc) (n : Z) (sampled_indices_out : list Z)
    (g : Rng) :
  0 ≤ n → n < num_elements p n →
  SelectSubset_ p n sampled_indices_out g = Fault OutOfBounds.
Proof.
  intros Hn Hk. unfold SelectSubset_.
  rewrite shuffle_prefix_overruns; [reflexivity | |];
    unfold size_of; rewrite length_seqZ; lia.
Qed.

Lemma SelectSubset_overruns_witness :
  SelectSubset_ (Q2Qc (1 # 2)) 0 [] [7; 3] = Fault OutOfBounds.
Proof.
  apply SelectSubset_overruns; [lia | vm_compute; reflexivity].
Defined.

(** ** Affinity voting *)

Lemma closest_leaf_from_spec {metric : MidDistance} (leaves : list TreeType)
    (point : DensePoint) (j : Z) (best : Qc * Z) :
  let result := closest_leaf_from leaves point j best in
  (result.1 ≤ best.1)%Qc
  ∧ Forall (λ leaf, (result.1 ≤ MidDistanceSq leaf point)%Qc) leaves
  ∧ (result = best
     ∨ ∃ k leaf,
         leaves !! k = Some leaf
         ∧ result = (MidDistanceSq leaf point, j + Z.of_nat k)
         ∧ (MidDistanceSq leaf point < best.1)%Qc
         ∧ ∀ k' leaf', (k' < k)%nat → leaves !! k' = Some leaf' →
             (MidDistanceSq leaf point < MidDistanceSq leaf' point)%Qc).
Proof.
  revert j best. induction leaves as [| leaf0 rest IH]; intros j best; simpl.
  - split; [apply Qcle_refl | split; [constructor | now left]].
  - set (d0 := MidDistanceSq leaf0 point).
    destruct (decide (d0 < best.1)%Qc) as [Hlt | Hge].
    + destruct (IH (j + 1) (d0, j)) as (Hle & Hall & Hcase). simpl in Hle.
      split; [| split].
      * eapply Qcle_trans; [exact Hle | now apply Qclt_le_weak].
      * constructor; [exact Hle | exact Hall].
      * right. destruct Hcase as [Heq | (k & leaf & Hk & Heq & Hd & Hearlier)].
        -- exists 0%nat, leaf0. rewrite Heq, Z.add_0_r.
           repeat split; try assumption. intros k' leaf' Hk'. lia.
        -- exists (S k), leaf. rewrite Heq. simpl in Hd.
           split; [exact Hk | split; [f_equal; lia | split]].
           ++ eapply Qclt_trans; eassumption.
           ++ intros [| k'] leaf' Hk' Hl; simpl in Hl.
              ** now injection Hl as <-.
              ** eapply Hearlier; [| exact Hl]. lia.
    + apply Qcnot_lt_le in Hge.
      destruct (IH (j + 1) best) as (Hle & Hall & Hcase).
      split; [exact Hle | split].
      * constructor; [| exact Hall]. eapply Qcle_trans; eassumption.
      * destruct Hcase as [Heq | (k & leaf & Hk & Heq & Hd & Hearlier)];
          [now left | right].
        exists (S k), leaf. rewrite Heq.
        split; [exact Hk | split; [f_equal; lia | split; [exact Hd |]]].
        intros [| k'] leaf' Hk' Hl; simpl in Hl.
        -- injection Hl as <-. eapply Qclt_le_trans; eassumption.
        -- eapply Hearlier; [| exact Hl]. lia.
Qed.

Lemma closest_leaf_spec {metric : MidDistance}
    (leaves : list TreeType) (point : DensePoint) :
  Exists (λ leaf, (MidDistanceSq leaf point < DBL_MAX)%Qc) leaves →
  0 ≤ closest_leaf leaves point < size_of leaves
  ∧ ∃ leaf,
      leaves !! Z.to_nat (closest_leaf leaves point) = Some leaf
      ∧ Forall (λ leaf',
                  (MidDistanceSq leaf point ≤ MidDistanceSq leaf' point)%Qc)
          leaves
      ∧ ∀ k leaf', Z.of_nat k < closest_leaf leaves point →
          leaves !! k = Some leaf' →
          (MidDistanceSq leaf point < MidDistanceSq leaf' point)%Qc.
Proof.
  intros Hsome. unfold closest_leaf.
  destruct (closest_leaf_from_spec leaves point 0 (DBL_MAX, -1))
    as (Hle & Hall & [Heq | (k & leaf & Hk & Heq & Hd & Hearlier)]).
  - exfalso. rewrite Heq in Hall. simpl in Hall.
    apply Exists_exists in Hsome as (leaf & Hin & Hlt).
    rewrite Forall_forall in Hall.
    exact (Qclt_not_le _ _ Hlt (Hall leaf Hin)).
  - rewrite Heq in *. simpl in *. rewrite Z.add_0_l, Nat2Z.id.
    pose proof (lookup_lt_Some _ _ _ Hk). unfold size_of.
    split; [lia |]. exists leaf. split; [exact Hk | split; [exact Hall |]].
    intros k' leaf' Hk'. apply Hearlier. lia.
Qed.

(** X9.  For a point that has some leaf closer than the largest [double],
    the leaf a point votes for is a leaf of the list, none of the leaves is
    closer to the point, and every leaf listed before it is strictly
    farther: ties go to the first. *)
Theorem closest_leaf_is_nearest {metric : MidDistance}
    (leaves : list TreeType) (point : DensePoint) :
  Exists (λ leaf, (MidDistanceSq leaf point < DBL_MAX)%Qc) leaves →
  0 ≤ closest_leaf leaves point < size_of leaves
  ∧ ∃ leaf,
      leaves !! Z.to_nat (closest_leaf leaves point) = Some leaf
      ∧ Forall (λ leaf',
                  (MidDistanceSq leaf point ≤ MidDistanceSq leaf' point)%Qc)
          leaves
      ∧ ∀ k leaf', Z.of_nat k < closest_leaf leaves point →
          leaves !! k = Some leaf' →
          (MidDistanceSq leaf point < MidDistanceSq leaf' point)%Qc.
Proof. apply closest_leaf_spec. Qed.

Lemma closest_leaf_is_nearest_witness :
  0 ≤ closest_leaf (metric := example_MidDistance) example_three_leaves
        (point2 3 3) < 3.
Proof.
  destruct (closest_leaf_is_nearest (metric := example_MidDistance)
              example_three_leaves (point2 3 3)) as [Hrange _].
  - apply Exists_cons_hd. vm_compute. reflexivity.
  - exact Hrange.
Defined.

Lemma closest_leaf_none {metric : MidDistance} (leaves : list TreeType)
    (point : DensePoint) :
  Forall (λ leaf, (DBL_MAX ≤ MidDistanceSq leaf point)%Qc) leaves →
  closest_leaf leaves point = -1.
Proof.
  intros Hfar. unfold closest_leaf.
  destruct (closest_leaf_from_spec leaves point 0 (DBL_MAX, -1))
    as (_ & _ & [-> | (k & leaf & Hk & _ & Hd & _)]); [reflexivity |].
  exfalso. rewrite Forall_forall in Hfar. simpl in Hd.
  apply (Qclt_not_le _ _ Hd), Hfar. eapply list_elem_of_lookup_2, Hk.
Qed.

Lemma Q2Qc_inject_Z_add (a b : Z) :
  Q2Qc (inject_Z (a + b)) = (Q2Qc (inject_Z a) + Q2Qc (inject_Z b))%Qc.
Proof.
  apply Qc_is_canon. unfold Qcplus, Q2Qc. cbn [this].
  rewrite !Qred_correct, inject_Z_plus. reflexivity.
Qed.

Lemma sum_counts_insert (counts : list Qc) (i : nat) (c v : Qc) :
  counts !! i = Some c →
  sum_counts (<[i := v]> counts) = (sum_counts counts - c + v)%Qc.
Proof.
  revert i. induction counts as [| c0 counts IH]; intros [| i] Hc;
    try discriminate Hc; simpl in *.
  - injection Hc as ->. unfold sum_counts. simpl. ring.
  - unfold sum_counts in *. simpl. rewrite (IH i Hc). ring.
Qed.

Lemma sum_counts_replicate_0 (n : nat) : sum_counts (replicate n 0%Qc) = 0%Qc.
Proof.
  induction n as [| n IH]; [reflexivity |].
  unfold sum_counts in *. simpl. rewrite IH. ring.
Qed.

Lemma zero_counts_middle (done todo rest : list Qc) :
  zero_counts (length todo) (size_of done) (done ++ todo ++ rest)
  = Ret (done ++ replicate (length todo) 0%Qc ++ rest).
Proof.
  revert done. induction todo as [| c todo IH]; intros done; [reflexivity |].
  simpl. unfold size_of.
  assert (at_index (done ++ c :: todo ++ rest) (Z.of_nat (length done))
          = Ret c) as ->.
  { apply at_index_Ret. split; [lia |].
    rewrite Nat2Z.id. now apply list_lookup_middle. }
  simpl. rewrite Nat2Z.id, insert_app_r_alt, Nat.sub_diag by lia. simpl.
  specialize (IH (done ++ [0%Qc])). unfold size_of in IH.
  rewrite length_app, <- !app_assoc in IH. simpl in IH.
  replace (Z.of_nat (length done) + 1) with (Z.of_nat (length done + 1))
    by lia.
  exact IH.
Qed.

Lemma zero_counts_fault (n : nat) (i : Z) (counts : list Qc) (w : fault) :
  zero_counts n i counts = Fault w → w = OutOfBounds.
Proof.
  revert i counts. induction n as [| n IH]; intros i counts; simpl;
    [discriminate |].
  destruct (at_index counts i) as [c |] eqn:Hc; simpl.
  - apply IH.
  - intros [= <-]. unfold at_index in Hc.
    destruct (i <? 0); [now injection Hc |].
    destruct (counts !! Z.to_nat i); [discriminate | now injection Hc].
Qed.

Lemma add_vote_Ret (counts counts' : list Qc) (k : Z) :
  add_vote counts k = Ret counts' →
  ∃ c, 0 ≤ k ∧ counts !! Z.to_nat k = Some c
       ∧ counts' = <[Z.to_nat k := (c + 1)%Qc]> counts.
Proof.
  unfold add_vote. destruct (at_index counts k) as [c |] eqn:Hc;
    [| discriminate].
  simpl. intros [= <-]. apply at_index_Ret in Hc as [Hk Hc]. eauto.
Qed.

Lemma add_vote_fault (counts : list Qc) (k : Z) (w : fault) :
  add_vote counts k = Fault w → w = OutOfBounds.
Proof.
  unfold add_vote, at_index. destruct (k <? 0); [now intros [= <-] |].
  destruct (counts !! Z.to_nat k); [discriminate | now intros [= <-]].
Qed.

Lemma count_votes_returns {metric : MidDistance} (leaves : list TreeType)
    (points : list DensePoint) (counts : list Qc) :
  Forall (λ point, 0 ≤ closest_leaf leaves point < size_of counts) points →
  ∃ counts',
    count_votes leaves points counts = Ret counts'
    ∧ length counts' = length counts
    ∧ sum_counts counts'
      = (sum_counts counts + Q2Qc (inject_Z (size_of points)))%Qc
    ∧ ∀ j c, counts !! j = Some c →
        counts' !! j
        = Some (c + Q2Qc (inject_Z (votes_for leaves points (Z.of_nat j))))%Qc.
Proof.
  intros Hall. revert counts Hall.
  induction points as [| point points IH]; intros counts Hall; simpl.
  - exists counts. split; [reflexivity | split; [reflexivity | split]].
    + unfold size_of. simpl length.
      replace (Q2Qc (inject_Z (Z.of_nat 0))) with 0%Qc by reflexivity. ring.
    + intros j c Hc. unfold votes_for, size_of. rewrite filter_nil.
      simpl length.
      replace (Q2Qc (inject_Z (Z.of_nat 0))) with 0%Qc by reflexivity.
      rewrite Hc. f_equal. ring.
  - apply Forall_cons in Hall as [Hhead Hall].
    destruct (at_index_in_range counts (closest_leaf leaves point) Hhead)
      as (c0 & Hc0 & Hlook).
    unfold add_vote. rewrite Hc0. simpl.
    set (counts1 := <[Z.to_nat (closest_leaf leaves point) := (c0 + 1)%Qc]>
                      counts).
    destruct (IH counts1) as (counts' & Hrun & Hlen & Hsum & Hvotes).
    { unfold counts1, size_of. rewrite length_insert. exact Hall. }
    exists counts'. split; [exact Hrun | split; [| split]].
    + rewrite Hlen. unfold counts1. apply length_insert.
    + rewrite Hsum. unfold counts1. rewrite (sum_counts_insert _ _ c0) by
        exact Hlook.
      unfold size_of. simpl length.
      rewrite Nat2Z.inj_succ, <- Z.add_1_r, Q2Qc_inject_Z_add.
      change (Q2Qc (inject_Z 1)) with 1%Qc. ring.
    + intros j c Hc. unfold votes_for. rewrite filter_cons.
      destruct (decide (closest_leaf leaves point = Z.of_nat j)) as [Hj | Hj].
      * rewrite (Hvotes j (c + 1)%Qc).
        2: { unfold counts1. rewrite Hj, Nat2Z.id in *.
             rewrite list_lookup_insert_eq by (eapply lookup_lt_Some, Hc).
             congruence. }
        unfold votes_for, size_of. simpl length.
        rewrite Nat2Z.inj_succ, <- Z.add_1_r, Q2Qc_inject_Z_add.
        change (Q2Qc (inject_Z 1)) with 1%Qc. f_equal. ring.
      * rewrite (Hvotes j c); [reflexivity |].
        unfold counts1. rewrite list_lookup_insert_ne; [exact Hc |].
        intros Heq. apply Hj. rewrite <- Heq. lia.
Qed.

(** X10.  When every point has some leaf closer than the largest [double]
    and the vector of counts has one entry per leaf,
    [GetLeafNodeMembershipCounts_] forgets what the vector held and leaves
    in entry [j] the number of points whose closest leaf is [j]; the
    entries add up to the number of points. *)
Theorem votes_count_every_point_once {metric : MidDistance}
    (top_leaf_nodes : list TreeType) (points : list DensePoint)
    (points_assigned_to_node : list Qc) :
  length points_assigned_to_node = length top_leaf_nodes →
  Forall (λ point,
            Exists (λ leaf, (MidDistanceSq leaf point < DBL_MAX)%Qc)
              top_leaf_nodes) points →
  ∃ counts,
    GetLeafNodeMembershipCounts_ top_leaf_nodes points points_assigned_to_node
    = Ret counts
    ∧ length counts = length top_leaf_nodes
    ∧ sum_counts counts = Q2Qc (inject_Z (size_of points))
    ∧ ∀ j, (j < length top_leaf_nodes)%nat →
        counts !! j
        = Some (Q2Qc (inject_Z (votes_for top_leaf_nodes points (Z.of_nat j)))).
Proof.
  intros Hlen Hnear. unfold GetLeafNodeMembershipCounts_.
  pose proof (zero_counts_middle [] points_assigned_to_node []) as Hzero.
  rewrite app_nil_r in Hzero. simpl in Hzero. rewrite app_nil_r in Hzero.
  change (size_of (@nil Qc)) with 0 in Hzero.
  rewrite <- Hlen, Hzero, Hlen. simpl.
  destruct (count_votes_returns top_leaf_nodes points
              (replicate (length top_leaf_nodes) 0%Qc))
    as (counts & Hrun & Hlen' & Hsum & Hvotes).
  { eapply Forall_impl; [exact Hnear |]. intros point Hp.
    unfold size_of. rewrite length_replicate.
    exact (proj1 (closest_leaf_spec top_leaf_nodes point Hp)). }
  exists counts. rewrite length_replicate in Hlen'.
  split; [exact Hrun | split; [exact Hlen' | split]].
  - rewrite Hsum, sum_counts_replicate_0. ring.
  - intros j Hj. rewrite (Hvotes j 0%Qc).
    + f_equal. ring.
    + now apply lookup_replicate_2.
Qed.

Lemma votes_count_every_point_once_witness :
  ∃ counts,
    GetLeafNodeMembershipCounts_ (metric := example_MidDistance)
      example_three_leaves example_points [Q2Qc 5; Q2Qc 5; Q2Qc 5]
    = Ret counts
    ∧ length counts = 3%nat
    ∧ sum_counts counts = Q2Qc (inject_Z 4).
Proof.
  destruct (votes_count_every_point_once (metric := example_MidDistance)
              example_three_leaves example_points [Q2Qc 5; Q2Qc 5; Q2Qc 5])
    as (counts & Hrun & Hlen & Hsum & _).
  - reflexivity.
  - repeat constructor; vm_compute; reflexivity.
  - exists counts. auto.
Defined.

Lemma count_votes_faults {metric : MidDistance} (leaves : list TreeType)
    (points : list DensePoint) (counts : list Qc) :
  Exists (λ point,
            Forall (λ leaf, (DBL_MAX ≤ MidDistanceSq leaf point)%Qc) leaves)
    points →
  count_votes leaves points counts = Fault OutOfBounds.
Proof.
  intros Hfar. revert counts.
  induction Hfar as [point points Hhead | point points _ IH]; intros counts;
    simpl.
  - rewrite (closest_leaf_none leaves point Hhead).
    unfold add_vote. now rewrite at_index_negative.
  - destruct (add_vote counts (closest_leaf leaves point)) as [counts' | w]
      eqn:Hvote; simpl.
    + apply IH.
    + now rewrite (add_vote_fault _ _ _ Hvote).
Qed.

(** X11.  A point that no leaf is closer to than the largest [double] (any
    point at all, when the list of leaves is empty) leaves [min_index] at
    -1, and [GetLeafNodeMembershipCounts_] then adds its vote in front of
    the vector of counts. *)
Theorem votes_without_a_closest_leaf {metric : MidDistance}
    (top_leaf_nodes : list TreeType) (points : list DensePoint)
    (points_assigned_to_node : list Qc) :
  Exists (λ point,
            Forall (λ leaf, (DBL_MAX ≤ MidDistanceSq leaf point)%Qc)
              top_leaf_nodes) points →
  GetLeafNodeMembershipCounts_ top_leaf_nodes points points_assigned_to_node
  = Fault OutOfBounds.
Proof.
  intros Hfar. unfold GetLeafNodeMembershipCounts_.
  destruct (zero_counts _ _ _) as [zeroed | w] eqn:Hzero; simpl.
  - now apply count_votes_faults.
  - now rewrite (zero_counts_fault _ _ _ _ Hzero).
Qed.

Lemma votes_without_a_closest_leaf_witness :
  GetLeafNodeMembershipCounts_ (metric := example_MidDistance) []
    [point2 0 0] []
  = Fault OutOfBounds.
Proof.
  apply votes_without_a_closest_leaf. repeat constructor.
Defined.

(** ** The new shard buffer *)

Lemma receive_all_overruns (net : Network) (rank : Z) (owned : TableType)
    (km : KMeansResult) (srcs : list Inflow)
    (frags : list (list DensePoint)) (st : Receiving) :
  Forall2 (λ src f, fetch net rank owned km src = Ret f) srcs frags →
  0 ≤ running_offset st ≤ size_of (new_data st) →
  size_of (new_data st) < running_offset st + size_of (concat frags) →
  receive_all net rank owned km srcs st = Fault OutOfBounds.
Proof.
  intros Hall. revert st.
  induction Hall as [| src f srcs frags Hf _ IH]; intros st Hoff Hover.
  - unfold size_of in *. simpl in Hover. lia.
  - simpl. unfold receive_one. rewrite Hf. simpl.
    destruct (write_columns (new_data st) (running_offset st) f)
      as [buffer |] eqn:Hw; simpl.
    + pose proof (length_write_columns _ _ _ _ Hw) as Hlen.
      apply write_columns_Ret in Hw as (_ & Hfit & _).
      unfold size_of in *. simpl in Hover. rewrite length_app in Hover.
      apply IH; simpl; unfold size_of; rewrite ?Hlen; lia.
    + unfold write_columns in Hw.
      destruct ((0 <=? running_offset st)
                && (running_offset st + size_of f <=? size_of (new_data st)));
        [discriminate Hw | now injection Hw as <-].
Qed.

(** X12.  The new shard is sized by the total the solver announced and by
    nothing else.  For a total that is not negative, a run of
    [ReadjustCentroids_] whose fragments fit leaves a shard of exactly that
    many columns, not indexed, with the attribute count of the old one, and
    the fragments stand at its front in the order they were received; when
    the fragments that arrive hold more points than announced, the receive
    phase writes behind the end of the new buffer. *)
Theorem new_shard_is_sized_by_the_solver (comm_size rank : Z) (net : Network)
    (owned : TableType) (km : KMeansResult)
    (frags : list (list DensePoint)) :
  Forall2 (λ src f, fetch net rank owned km src = Ret f)
    (receive_order comm_size rank) frags →
  0 ≤ total_num_points_owned km →
  (size_of (concat frags) ≤ total_num_points_owned km →
   ∃ t log,
     ReadjustCentroids_ comm_size rank net owned km = Ret (t, log)
     ∧ n_entries t = total_num_points_owned km
     ∧ n_attributes t = n_attributes owned
     ∧ get_tree t = None
     ∧ take (length (concat frags)) (data t) = concat frags)
  ∧ (total_num_points_owned km < size_of (concat frags) →
     ReadjustCentroids_ comm_size rank net owned km = Fault OutOfBounds).
Proof.
  intros Hfetch Htotal. split.
  - intros Hfit.
    destruct (ReadjustCentroids__returns comm_size rank net owned km frags
                Hfetch Hfit) as (t & log & Hrun).
    exists t, log. split; [exact Hrun |].
    unfold ReadjustCentroids_ in Hrun.
    destruct (receive_all _ _ _ _ _ _) as [st |] eqn:Hall;
      [| discriminate Hrun].
    simpl in Hrun. injection Hrun as <- <-.
    apply receive_all_inv in Hall
      as (frags' & Hfetch' & _ & _ & Hlen & _ & Hdata).
    rewrite <- (fetch_deterministic _ _ _ _ _ _ _ Hfetch Hfetch') in Hdata.
    simpl in *. rewrite length_replicate in Hlen.
    unfold n_entries, size_of in *. simpl.
    split; [lia | split; [reflexivity | split; [reflexivity |]]].
    rewrite Hdata. apply take_app_length.
  - intros Hover. unfold ReadjustCentroids_.
    rewrite (receive_all_overruns _ _ _ _ _ frags); [reflexivity | exact Hfetch
                                                     | |];
      simpl; unfold size_of in *; rewrite length_replicate; lia.
Qed.

Lemma new_shard_is_sized_by_the_solver_witness :
  ReadjustCentroids_ 3 2 example_network
    (raw_shard [point2 5 5; point2 6 6]) (mkKMeansResult 2 [1; 2])
  = Fault OutOfBounds.
Proof.
  destruct (new_shard_is_sized_by_the_solver 3 2 example_network
              (raw_shard [point2 5 5; point2 6 6]) (mkKMeansResult 2 [1; 2])
              [[point2 4 4]; [point2 2 2]; [point2 6 6]]) as [_ Hover].
  - repeat constructor.
  - simpl. lia.
  - apply Hover. vm_compute. reflexivity.
Defined.

(** X13.  In a group, whatever the solver answered, every blocking receive
    of the receive phase of [ReadjustCentroids_] is matched by a send that
    was posted, and it delivers exactly the points its sender's answer
    destines for the receiving rank, in the sender's storage order; the
    copy step delivers the points the rank keeps. *)
Theorem receives_deliver_the_senders_fragment (procs : Group) (rank : Z)
    (p : TableType * KMeansResult) :
  0 ≤ rank < size_of procs →
  procs !! Z.to_nat rank = Some p →
  Forall (λ src,
            ∃ sender,
              procs !! Z.to_nat (inflow_rank rank src) = Some sender
              ∧ fetch (network_of procs) rank p.1 p.2 src
                = Ret (contribution sender.1 (point_assignments sender.2) rank))
    (receive_order (size_of procs) rank).
Proof.
  intros Hrank Hp. apply Forall_forall. intros src Hsrc.
  rewrite (fetch_in_group procs rank p src Hrank Hp Hsrc).
  unfold fragment_for.
  destruct (procs !! Z.to_nat (inflow_rank rank src)) as [sender |] eqn:Hs;
    [eauto |].
  exfalso. apply lookup_ge_None in Hs.
  assert (0 ≤ inflow_rank rank src < size_of procs) as Hin.
  { destruct src as [source tag |]; simpl; [| lia].
    apply elem_of_receive_order in Hsrc; lia. }
  unfold size_of in Hin. lia.
Qed.

Lemma receives_deliver_the_senders_fragment_witness :
  fetch example_network 2 (raw_shard [point2 5 5; point2 6 6])
    (mkKMeansResult 3 [1; 2]) (FromRank 0 5)
  = Ret [point2 2 2].
Proof.
  pose proof (receives_deliver_the_senders_fragment example_group 2
                (raw_shard [point2 5 5; point2 6 6], mkKMeansResult 3 [1; 2]))
    as Hall.
  specialize (Hall ltac:(unfold size_of; simpl; lia) eq_refl).
  rewrite Forall_forall in Hall.
  destruct (Hall (FromRank 0 5)) as (sender & Hsender & Hfetch).
  - apply elem_of_receive_order; [| left]; unfold size_of; simpl; lia.
  - injection Hsender as <-. exact Hfetch.
Defined.

(** ** Sample aggregation *)

Lemma write_at_middle {A} (done todo rest xs : list A) :
  length todo = length xs →
  write_at (done ++ todo ++ rest) (size_of done) xs
  = Ret (done ++ xs ++ rest).
Proof.
  intros Hlen. unfold write_at, size_of.
  destruct (Z.leb_spec 0 (Z.of_nat (length done))); [| lia].
  destruct (Z.leb_spec (Z.of_nat (length done) + Z.of_nat (length xs))
              (Z.of_nat (length (done ++ todo ++ rest)))) as [_ | Hover].
  2: { rewrite !length_app in Hover. lia. }
  simpl. rewrite Nat2Z.id, take_app_length.
  rewrite drop_app_add' by reflexivity.
  rewrite <- Hlen, drop_app_length. reflexivity.
Qed.

Lemma size_of_concat_uniform (n : Z) (columns : list DensePoint) :
  Forall (λ column, size_of column = n) columns →
  size_of (concat columns) = size_of columns * n.
Proof.
  unfold size_of. induction 1 as [| column columns Hc _ IH]; [reflexivity |].
  simpl. rewrite length_app. lia.
Qed.

Lemma copy_columns_fills (n_attr i : Z) (columns : list DensePoint)
    (done todo rest : list Qc) :
  Forall (λ column, size_of column = n_attr) columns →
  size_of done = i * n_attr →
  length todo = length (concat columns) →
  copy_columns n_attr i columns (done ++ todo ++ rest)
  = Ret (done ++ concat columns ++ rest).
Proof.
  intros Hall. revert i done todo.
  induction Hall as [| column columns Hc _ IH]; intros i done todo Hi Hlen.
  - simpl in *. destruct todo; [reflexivity | discriminate Hlen].
  - simpl in *. rewrite length_app in Hlen.
    rewrite <- (take_drop (length column) todo), <- Hi, <- (app_assoc (take _ _)).
    rewrite write_at_middle by (rewrite length_take; lia). simpl.
    rewrite <- (app_assoc column), !(app_assoc done column).
    apply IH.
    + unfold size_of in *. rewrite length_app. lia.
    + rewrite length_drop. lia.
Qed.

Lemma CopyPointsIntoTemporaryBuffer__flattens (n_attr : Z)
    (columns : list DensePoint) :
  Forall (λ column, size_of column = n_attr) columns →
  CopyPointsIntoTemporaryBuffer_ n_attr columns = Ret (concat columns).
Proof.
  intros Hall. unfold CopyPointsIntoTemporaryBuffer_.
  pose proof (copy_columns_fills n_attr 0 columns []
                (replicate (Z.to_nat (size_of columns * n_attr)) 0%Qc) []
                Hall eq_refl) as Hcopy.
  rewrite !app_nil_r in Hcopy. simpl in Hcopy. apply Hcopy.
  rewrite length_replicate, <- (size_of_concat_uniform n_attr columns Hall).
  unfold size_of. lia.
Qed.

Lemma receive_samples_fills (n_attr : Z) (samples : list (list DensePoint))
    (done todo rest : list Qc) :
  Forall (Forall (λ column, size_of column = n_attr)) samples →
  length todo = length (concat (flatten <$> samples)) →
  receive_samples n_attr (size_of <$> samples) (flatten <$> samples)
    (size_of done) (done ++ todo ++ rest)
  = Ret (done ++ concat (flatten <$> samples) ++ rest,
         size_of done + n_attr * foldr Z.add 0 (size_of <$> samples)).
Proof.
  intros Hall. revert done todo.
  induction Hall as [| sample samples Hs _ IH]; intros done todo Hlen.
  - simpl in *. destruct todo; [| discriminate Hlen].
    do 2 f_equal. lia.
  - rewrite !fmap_cons. change (flatten sample) with (concat sample).
    cbn [receive_samples concat foldr].
    pose proof (size_of_concat_uniform n_attr sample Hs) as Hsize.
    rewrite Hsize, (Z.mul_comm n_attr), Z.leb_refl.
    rewrite fmap_cons in Hlen.
    change (flatten sample) with (concat sample) in Hlen.
    cbn [concat] in Hlen. rewrite length_app in Hlen.
    rewrite <- (take_drop (length (concat sample)) todo),
      <- (app_assoc (take _ _)).
    rewrite write_at_middle by (rewrite length_take; lia). simpl.
    rewrite <- (app_assoc (concat sample)), !(app_assoc done (concat sample)).
    rewrite Z.mul_add_distr_l, (Z.mul_comm n_attr (size_of _)), <- Hsize.
    replace (size_of done + size_of (concat sample))
      with (size_of (done ++ concat sample))
      by (unfold size_of; rewrite length_app; lia).
    rewrite IH by (rewrite length_drop; lia).
    do 2 f_equal. unfold size_of. rewrite length_app. lia.
Qed.

(** X14.  When every sampled column has [n_attributes] coordinates, the
    sample table rank 0 assembles is, coordinate by coordinate, the samples
    of rank 0, then those of rank 1, and so on up the ranks, each in the
    order its rank sampled it; the running offset ends at the size of the
    table, [n_attributes] times the sum of the gathered counts, so the
    receives fill the table and never write behind it. *)
Theorem sample_table_is_samples_in_rank_order (n_attr : Z)
    (samples : list (list DensePoint)) :
  0 ≤ n_attr → samples ≠ [] →
  Forall (Forall (λ column, size_of column = n_attr)) samples →
  aggregate_samples n_attr samples
  = Ret (concat (flatten <$> samples),
         n_attr * foldr Z.add 0 (size_of <$> samples))
  ∧ size_of (concat (flatten <$> samples))
    = n_attr * foldr Z.add 0 (size_of <$> samples).
Proof.
  intros Hattr Hne Hall.
  assert (size_of (concat (flatten <$> samples))
          = n_attr * foldr Z.add 0 (size_of <$> samples)) as Htotal.
  { clear Hne. induction Hall as [| sample samples Hs _ IH];
      [simpl; unfold size_of; simpl; lia |].
    rewrite !fmap_cons. change (flatten sample) with (concat sample).
    cbn [concat foldr]. unfold size_of in *. rewrite length_app.
    pose proof (size_of_concat_uniform n_attr sample Hs) as Hsize.
    unfold size_of in Hsize. lia. }
  split; [| exact Htotal].
  unfold aggregate_samples.
  assert (collect (CopyPointsIntoTemporaryBuffer_ n_attr <$> samples)
          = Ret (flatten <$> samples)) as ->.
  { clear Hne Htotal. induction Hall as [| sample samples Hs _ IH];
      [reflexivity |].
    rewrite !fmap_cons. cbn [collect].
    rewrite (CopyPointsIntoTemporaryBuffer__flattens n_attr sample Hs), IH.
    reflexivity. }
  destruct samples as [| own others]; [congruence |].
  apply Forall_cons in Hall as [Hown Hothers].
  rewrite !fmap_cons in *. change (flatten own) with (concat own) in *.
  simpl mbind. cbn [concat foldr] in *.
  pose proof (size_of_concat_uniform n_attr own Hown) as Hsize.
  rewrite Z.mul_add_distr_l, (Z.mul_comm n_attr (size_of own)), <- Hsize
    in Htotal |- *.
  rewrite take_ge by (unfold size_of; lia).
  set (table := replicate _ _).
  assert (length table = (length (concat own)
                          + length (concat (flatten <$> others)))%nat) as Hlen.
  { unfold table. rewrite length_replicate. unfold size_of in *.
    rewrite length_app in Htotal. lia. }
  rewrite <- (take_drop (length (concat own)) table).
  pose proof (write_at_middle [] (take (length (concat own)) table)
                (drop (length (concat own)) table) (concat own)) as Hw.
  simpl in Hw. change (size_of (@nil Qc)) with 0 in Hw.
  rewrite Hw by (rewrite length_take; lia). simpl.
  pose proof (receive_samples_fills n_attr others (concat own)
                (drop (length (concat own)) table) [] Hothers) as Hrecv.
  rewrite !app_nil_r in Hrecv.
  rewrite Hrecv by (rewrite length_drop; lia).
  reflexivity.
Qed.

Lemma sample_table_is_samples_in_rank_order_witness :
  aggregate_samples 2
    [[point2 1 2]; [point2 3 4; point2 5 6]; [point2 7 8]]
  = Ret (concat (flatten <$> [[point2 1 2]; [point2 3 4; point2 5 6];
                             [point2 7 8]]),
         2 * foldr Z.add 0
               (size_of <$> [[point2 1 2]; [point2 3 4; point2 5 6];
                             [point2 7 8]])).
Proof.
  apply (sample_table_is_samples_in_rank_order 2
           [[point2 1 2]; [point2 3 4; point2 5 6]; [point2 7 8]]).
  - lia.
  - discriminate.
  - repeat constructor.
Defined.

(** ** What padding and the exchange keep *)

Lemma length_sum_of_centers (d : nat) (cs : list DensePoint)
    (acc : DensePoint) :
  length acc = d → Forall (λ c, length c = d) cs →
  length (foldl vec_add acc cs) = d.
Proof.
  intros Hacc Hall. revert acc Hacc.
  induction Hall as [| c cs Hc _ IH]; intros acc Hacc; [exact Hacc |].
  simpl. apply IH. unfold vec_add. rewrite length_zip_with. lia.
Qed.

Lemma averaged_leaf_dimension (s : Z) (d : nat) (pool : list TreeType)
    (leaf : TreeType) :
  Forall (λ node, length (bound_center node) = d) pool →
  averaged_leaf s d pool leaf →
  length (bound_center leaf) = d.
Proof.
  intros Hpool (chosen & _ & Hin & ->). simpl.
  unfold centroid_mean, vec_scale. rewrite length_fmap.
  apply length_sum_of_centers.
  - unfold zeros. apply length_replicate.
  - apply Forall_fmap. eapply Forall_impl; [exact Hin |].
    intros c Hc. simpl. rewrite Forall_forall in Hpool. now apply Hpool.
Qed.

(** X15.  Padding keeps the candidate list well formed: the leaves that
    were broadcast stay in front, unchanged, and when they all have centres
    of one dimension, every leaf of the padded list has a centre of that
    dimension. *)
Theorem padding_keeps_dimension (comm_size recorded_size : Z)
    (top_leaf_nodes : list TreeType) (g : Rng) (d : nat) :
  top_leaf_nodes ≠ [] →
  Forall (λ leaf, length (bound_center leaf) = d) top_leaf_nodes →
  ∃ extra g',
    pad_leaf_nodes comm_size recorded_size top_leaf_nodes g
    = Ret (top_leaf_nodes ++ extra, g')
    ∧ Forall (λ leaf, length (bound_center leaf) = d)
        (top_leaf_nodes ++ extra).
Proof.
  intros Hne Hdim. unfold pad_leaf_nodes.
  destruct (size_of top_leaf_nodes <? comm_size).
  2: { exists [], g. now rewrite app_nil_r. }
  destruct (ReplenishNodes_appends recorded_size top_leaf_nodes g Hne)
    as (first & extra & g' & Hfirst & Hrun & _ & Hall).
  exists extra, g'. split; [exact Hrun |].
  assert (length (bound_center first) = d) as Hd.
  { rewrite Forall_forall in Hdim. eapply Hdim, list_elem_of_lookup_2, Hfirst. }
  rewrite Hd in Hall.
  assert (∀ j, Forall (λ leaf, length (bound_center leaf) = d)
                 (top_leaf_nodes ++ take j extra)) as Hprefix.
  { induction j as [| j IH]; [now rewrite take_0, app_nil_r |].
    destruct (extra !! j) as [leaf |] eqn:Hj.
    - rewrite (take_S_r _ _ _ Hj), app_assoc.
      apply Forall_app. split; [exact IH |].
      constructor; [| constructor].
      eapply averaged_leaf_dimension; [exact IH | exact (Hall j leaf Hj)].
    - apply lookup_ge_None in Hj.
      rewrite take_ge by lia. rewrite take_ge in IH by lia. exact IH. }
  specialize (Hprefix (length extra)). now rewrite take_ge in Hprefix by lia.
Qed.

Lemma padding_keeps_dimension_witness :
  ∃ extra g',
    pad_leaf_nodes 5 5 example_three_leaves example_tape
    = Ret (example_three_leaves ++ extra, g')
    ∧ Forall (λ leaf, length (bound_center leaf) = 2%nat)
        (example_three_leaves ++ extra).
Proof.
  apply (padding_keeps_dimension 5 5 example_three_leaves example_tape 2).
  - discriminate.
  - repeat constructor.
Defined.

Lemma right_destinations_ascend (rank n : Z) :
  (λ i, rank + i) <$> seqZ 1 n = seqZ (rank + 1) n.
Proof.
  transitivity (Z.add rank <$> seqZ 1 n); [reflexivity |].
  apply fmap_add_seqZ.
Qed.

(** X16.  The neighbour radius of [ReadjustCentroids_] is the group size,
    so the windows are the whole group: a rank posts exactly one send to
    every other rank, the ranks below it nearest first and then the ranks
    above it in ascending order, and no send to itself. *)
Theorem every_rank_sends_to_every_other (comm_size rank : Z) :
  0 ≤ rank < comm_size →
  (send_plan comm_size rank).*1
  = reverse (seqZ 0 rank) ++ seqZ (rank + 1) (comm_size - rank - 1)
  ∧ size_of (send_plan comm_size rank) = comm_size - 1
  ∧ NoDup (send_plan comm_size rank).*1
  ∧ ∀ dest, dest ∈ (send_plan comm_size rank).*1
            ↔ 0 ≤ dest < comm_size ∧ dest ≠ rank.
Proof.
  intros Hrank.
  assert ((send_plan comm_size rank).*1
          = reverse (seqZ 0 rank) ++ seqZ (rank + 1) (comm_size - rank - 1))
    as Hdest.
  { unfold send_plan, neighbor_offsets, left_window, right_window.
    rewrite fmap_app, <- !list_fmap_compose.
    rewrite Z.min_l, Z.min_l by lia. f_equal.
    - transitivity ((λ i, rank - i) <$> seqZ 1 rank); [reflexivity |].
      rewrite left_sources_descend by lia. do 2 f_equal. lia.
    - transitivity ((λ i, rank + i) <$> seqZ 1 (comm_size - rank - 1));
        [reflexivity |].
      apply right_destinations_ascend. }
  split; [exact Hdest | split; [| split]].
  - unfold size_of. rewrite <- (length_fmap fst), Hdest, length_app,
      length_reverse, !length_seqZ. lia.
  - rewrite Hdest, reverse_Permutation. apply NoDup_app. split; [| split].
    + apply NoDup_seqZ.
    + intros x Hx%elem_of_seqZ Hy%elem_of_seqZ. lia.
    + apply NoDup_seqZ.
  - intros dest. rewrite Hdest, elem_of_app, elem_of_reverse, !elem_of_seqZ.
    lia.
Qed.

Lemma every_rank_sends_to_every_other_witness :
  (send_plan 4 2).*1 = [1; 0; 3] ∧ size_of (send_plan 4 2) = 3.
Proof.
  destruct (every_rank_sends_to_every_other 4 2 ltac:(lia))
    as (Hdest & Hsize & _).
  split; [exact Hdest | exact Hsize].
Defined.

(** ** Shard sizes after [IndexData] *)

Lemma ReadjustCentroids_group_sizes (procs : Group)
    (moved : list (TableType * list (Inflow * Z))) :
  collect (ReadjustCentroids_group procs) = Ret moved →
  Forall2 (λ p m, 0 ≤ total_num_points_owned p.2 →
                  n_entries m.1 = total_num_points_owned p.2)
    procs moved.
Proof.
  intros Hrun. pose proof (collect_length _ _ Hrun) as Hlen.
  apply collect_Forall2_Ret in Hrun. unfold ReadjustCentroids_group in *.
  rewrite length_imap in Hlen.
  apply Forall2_same_length_lookup_2; [lia |].
  intros i p [t log] Hp Hm.
  pose proof (Forall2_lookup_r _ _ _ _ _ Hrun Hm) as (m & Hi & Hret).
  rewrite list_lookup_imap, Hp in Hi. simpl in Hi. injection Hi as <-.
  apply ReadjustCentroids__inv in Hret as (_ & _ & _ & _ & Hsize & _).
  intros Hnn. unfold n_entries, size_of. simpl. lia.
Qed.

Lemma migrate_and_index_sizes {builder : LocalTreeBuilder}
    (leaf_size : Z) (tables tables' : list DistributedTable)
    (kms : list KMeansResult) :
  length kms = length tables →
  migrate_and_index leaf_size tables kms = Ret tables' →
  Forall2 (λ km t',
             0 ≤ total_num_points_owned km →
             DistributedTable_n_entries t'
             = Ret (total_num_points_owned km))
    kms tables'.
Proof.
  unfold migrate_and_index. intros Hkms Hrun.
  destruct (owned_tables tables) as [owned |] eqn:Howned;
    [simpl in Hrun | discriminate Hrun].
  destruct (collect (ReadjustCentroids_group (zip owned kms)))
    as [moved |] eqn:Hmoved; [simpl in Hrun | discriminate Hrun].
  repeat match type of Hrun with
         | mbind _ ?m = _ =>
             destruct m; [simpl in Hrun | discriminate Hrun]
         end.
  injection Hrun as <-.
  pose proof (owned_tables_length _ _ Howned) as Hlen.
  pose proof (ReadjustCentroids_group_sizes _ _ Hmoved) as Hsizes.
  assert (Forall2 (λ km m, 0 ≤ total_num_points_owned km →
                           n_entries m.1 = total_num_points_owned km)
            kms moved) as Hkm.
  { rewrite <- (snd_zip owned kms) by lia. now apply Forall2_fmap_l. }
  pose proof (Forall2_length _ _ _ Hkm) as Hlen'.
  apply Forall2_same_length_lookup_2.
  - rewrite length_zip_with, length_fmap. lia.
  - intros i km t' Hi Ht'.
    apply lookup_zip_with_Some in Ht' as (t & s & -> & _ & Hs).
    rewrite list_lookup_fmap in Hs.
    destruct (moved !! i) as [m |] eqn:Hm; [| discriminate Hs].
    injection Hs as <-. intros Hnn.
    unfold DistributedTable_n_entries. simpl. f_equal.
    rewrite <- (Forall2_lookup_lr _ _ _ _ _ _ Hkm Hi Hm Hnn).
    unfold n_entries, size_of.
    now rewrite (Permutation_length (Table_IndexData_data _ _)).
Qed.

Lemma owned_tables_before_Init (tables : list DistributedTable) :
  Exists (λ t, owned_table_ t = None) tables →
  owned_tables tables = Fault NullDereference.
Proof.
  unfold owned_tables.
  induction 1 as [t tables Hnone | t tables _ IH]; rewrite fmap_cons;
    cbn [collect].
  - now rewrite Hnone.
  - destruct (owned_table_ t); simpl; [now rewrite IH | reflexivity].
Qed.

(** * [IndexData] over the whole group *)

(** ** [IndexData] over the group: the phases before the migration *)

Lemma collect_Table_get (t : TableType) (indices : list Z) :
  Forall (λ i, 0 ≤ i < n_entries t) indices →
  ∃ columns,
    collect (Table_get t <$> indices) = Ret columns
    ∧ Forall2 (λ i column, data t !! Z.to_nat i = Some column)
        indices columns.
Proof.
  intros Hall. apply collect_Forall2.
  apply Forall2_fmap_r, Forall_Forall2_diag.
  eapply Forall_impl; [exact Hall |]. intros i Hi.
  destruct (at_index_in_range (data t) i Hi) as (column & Hget & Hlook).
  exists column. split; [exact Hget | exact Hlook].
Qed.

Lemma collect_Table_get_all (t : TableType) :
  collect (Table_get t <$> seqZ 0 (n_entries t)) = Ret (data t).
Proof.
  destruct (collect_Table_get t (seqZ 0 (n_entries t))) as (columns & -> & Hall).
  { apply Forall_forall. intros i Hi%elem_of_seqZ. lia. }
  f_equal. apply list_eq. intros k.
  pose proof (Forall2_length _ _ _ Hall) as Hlen. rewrite length_seqZ in Hlen.
  unfold n_entries, size_of in *.
  destruct (columns !! k) as [column |] eqn:Hk.
  - destruct (Forall2_lookup_r _ _ _ _ _ Hall Hk) as (i & Hi & Hlook).
    apply lookup_seqZ in Hi as [-> _].
    now rewrite Z.add_0_l, Nat2Z.id in Hlook.
  - apply lookup_ge_None in Hk. symmetry. apply lookup_ge_None. lia.
Qed.

Lemma draw_sample_returns (p : Qc) (owned : TableType) (g : Rng) :
  1 ≤ n_entries owned < 2 ^ 53 → (p ≤ 1)%Qc →
  Forall (λ column, size_of column = n_attributes owned) (data owned) →
  ∃ sampled columns g',
    draw_sample p owned g = Ret (sampled, flatten columns, g')
    ∧ size_of columns = size_of sampled
    ∧ 1 ≤ size_of sampled
    ∧ Forall (λ column, size_of column = n_attributes owned) columns.
Proof.
  intros Hn Hp Hmatrix. unfold draw_sample.
  destruct (SelectSubset__returns p (n_entries owned) [] g Hn Hp)
    as (sampled & g' & -> & _ & Hsize & _ & Hin).
  simpl.
  destruct (collect_Table_get owned sampled Hin) as (columns & -> & Hall).
  simpl.
  assert (Forall (λ column, size_of column = n_attributes owned) columns)
    as Hcolumns.
  { apply Forall_forall. intros column (k & Hk)%list_elem_of_lookup_1.
    destruct (Forall2_lookup_r _ _ _ _ _ Hall Hk) as (i & _ & Hlook).
    rewrite Forall_forall in Hmatrix.
    eapply Hmatrix, list_elem_of_lookup_2, Hlook. }
  rewrite (CopyPointsIntoTemporaryBuffer__flattens _ _ Hcolumns). simpl.
  exists sampled, columns, g'. split; [reflexivity |].
  split; [| split; [lia | exact Hcolumns]].
  unfold size_of. now rewrite (Forall2_length _ _ _ Hall).
Qed.

Lemma size_of_samples (n_attr : Z) (samples : list (list DensePoint)) :
  Forall (Forall (λ column, size_of column = n_attr)) samples →
  size_of (concat (flatten <$> samples))
  = n_attr * foldr Z.add 0 (size_of <$> samples).
Proof.
  induction 1 as [| sample samples Hs _ IH];
    [simpl; unfold size_of; simpl; lia |].
  rewrite !fmap_cons. change (flatten sample) with (concat sample).
  cbn [concat foldr]. unfold size_of in *. rewrite length_app.
  pose proof (size_of_concat_uniform n_attr sample Hs) as Hsize.
  unfold size_of in Hsize. lia.
Qed.

Lemma assemble_sample_table_fills (n_attr : Z)
    (samples : list (list DensePoint)) :
  0 ≤ n_attr → samples ≠ [] →
  Forall (Forall (λ column, size_of column = n_attr)) samples →
  assemble_sample_table n_attr (size_of <$> samples) (flatten <$> samples)
  = Ret (concat (flatten <$> samples),
         n_attr * foldr Z.add 0 (size_of <$> samples)).
Proof.
  intros Hattr Hne Hall.
  pose proof (size_of_samples n_attr samples Hall) as Htotal.
  unfold assemble_sample_table.
  destruct samples as [| own others]; [congruence |].
  apply Forall_cons in Hall as [Hown Hothers].
  rewrite !fmap_cons in *. change (flatten own) with (concat own) in *.
  cbn [concat foldr] in *.
  pose proof (size_of_concat_uniform n_attr own Hown) as Hsize.
  rewrite Z.mul_add_distr_l, (Z.mul_comm n_attr (size_of own)), <- Hsize
    in Htotal |- *.
  rewrite take_ge by (unfold size_of; lia).
  set (table := replicate _ _).
  assert (length table = (length (concat own)
                          + length (concat (flatten <$> others)))%nat) as Hlen.
  { unfold table. rewrite length_replicate. unfold size_of in *.
    rewrite length_app in Htotal. lia. }
  rewrite <- (take_drop (length (concat own)) table).
  pose proof (write_at_middle [] (take (length (concat own)) table)
                (drop (length (concat own)) table) (concat own)) as Hw.
  simpl in Hw. change (size_of (@nil Qc)) with 0 in Hw.
  rewrite Hw by (rewrite length_take; lia). simpl.
  pose proof (receive_samples_fills n_attr others (concat own)
                (drop (length (concat own)) table) [] Hothers) as Hrecv.
  rewrite !app_nil_r in Hrecv.
  rewrite Hrecv by (rewrite length_drop; lia).
  reflexivity.
Qed.

Lemma GetLeafNodeMembershipCounts__returns {metric : MidDistance}
    (top_leaf_nodes : list TreeType) (points : list DensePoint) :
  top_leaf_nodes ≠ [] →
  (∀ leaf point, (MidDistanceSq leaf point < DBL_MAX)%Qc) →
  ∃ counts,
    GetLeafNodeMembershipCounts_ top_leaf_nodes points
      (replicate (length top_leaf_nodes) 0%Qc) = Ret counts
    ∧ length counts = length top_leaf_nodes.
Proof.
  intros Hne Hfinite. unfold GetLeafNodeMembershipCounts_.
  pose proof (zero_counts_middle [] (replicate (length top_leaf_nodes) 0%Qc) [])
    as Hzero.
  rewrite app_nil_r in Hzero. simpl in Hzero. rewrite app_nil_r in Hzero.
  change (size_of (@nil Qc)) with 0 in Hzero.
  rewrite length_replicate in Hzero. rewrite Hzero. simpl.
  destruct (count_votes_returns top_leaf_nodes points
              (replicate (length top_leaf_nodes) 0%Qc))
    as (counts & Hrun & Hlen & _).
  { apply Forall_forall. intros point _.
    unfold size_of. rewrite length_replicate.
    apply closest_leaf_spec.
    destruct top_leaf_nodes as [| leaf rest]; [congruence |].
    apply Exists_cons_hd, Hfinite. }
  exists counts. rewrite length_replicate in Hlen. now split.
Qed.

Lemma candidate_votes_returns {metric : MidDistance} (comm_size : Z)
    (t : DistributedTable) (owned : TableType)
    (top_leaf_nodes : list TreeType) (g : Rng) :
  top_leaf_nodes ≠ [] →
  (∀ leaf point, (MidDistanceSq leaf point < DBL_MAX)%Qc) →
  ∃ padded votes g',
    candidate_votes comm_size t owned top_leaf_nodes g
    = Ret (padded, votes, g')
    ∧ padded ≠ []
    ∧ length votes = length padded
    ∧ (table_outbox_group_comm_size_ t = comm_size →
       comm_size ≤ size_of padded).
Proof.
  intros Hne Hfinite. unfold candidate_votes.
  assert (∃ padded g',
            pad_leaf_nodes comm_size (table_outbox_group_comm_size_ t)
              top_leaf_nodes g = Ret (padded, g')
            ∧ padded ≠ []
            ∧ (table_outbox_group_comm_size_ t = comm_size →
               comm_size ≤ size_of padded))
    as (padded & g' & -> & Hpadded & Hsize).
  { unfold pad_leaf_nodes.
    destruct (Z.ltb_spec (size_of top_leaf_nodes) comm_size) as [Hshort | Hlong].
    - destruct (ReplenishNodes_appends (table_outbox_group_comm_size_ t)
                  top_leaf_nodes g Hne)
        as (first & extra & g' & _ & Hrun & Hlen & _).
      exists (top_leaf_nodes ++ extra), g'. split; [exact Hrun |]. split.
      + intros Hnil. now apply app_eq_nil in Hnil as [? _].
      + intros Hsame. unfold size_of in *. rewrite length_app. lia.
    - exists top_leaf_nodes, g. split; [reflexivity |]. split; [exact Hne |].
      intros _. exact Hlong. }
  simpl. rewrite collect_Table_get_all. simpl.
  destruct (GetLeafNodeMembershipCounts__returns padded (data owned)
              Hpadded Hfinite) as (votes & -> & Hlen).
  simpl. exists padded, votes, g'. auto.
Qed.

Lemma assigned_centroid_returns {solvers : DistributedSolvers}
    (group : list (list Qc)) (rank : Z) (padded : list TreeType)
    (votes : list Qc) :
  padded ≠ [] → length votes = length padded →
  0 < size_of group ≤ size_of padded →
  ∃ centroid,
    assigned_centroid (Auction_Assign group rank) (size_of group) padded votes
    = Ret centroid.
Proof.
  intros Hne Hlen Hsize. unfold assigned_centroid, TakeLeafNodeOwnerShip_.
  assert (0 < size_of padded) as Hpos by lia.
  destruct (Z.gtb_spec (size_of group) 1) as [Hmany | Hone]; simpl.
  - pose proof (Auction_Assign_valid group rank votes
                  (reciprocal (size_of group))) as Hvalid.
    unfold size_of in *. rewrite Hlen in Hvalid.
    destruct (at_index_in_range padded _ (Hvalid Hsize)) as (leaf & -> & _).
    simpl. eauto.
  - destruct (at_index_in_range padded 0) as (leaf & -> & _); [lia |].
    simpl. eauto.
Qed.

Lemma collect_zip_with_returns {A B C} (Q : A → C → Prop)
    (f : A → B → Outcome C) (la : list A) (lb : list B) :
  length la = length lb →
  (∀ a b, a ∈ la → ∃ c, f a b = Ret c ∧ Q a c) →
  ∃ rs, collect (zip_with f la lb) = Ret rs ∧ Forall2 Q la rs.
Proof.
  intros Hlen Hf. apply collect_Forall2.
  apply Forall2_same_length_lookup_2.
  - rewrite length_zip_with. lia.
  - intros i a m Ha Hm.
    apply lookup_zip_with_Some in Hm as (a' & b & -> & Ha' & Hb).
    rewrite Ha in Ha'. injection Ha' as <-.
    apply Hf. eapply list_elem_of_lookup_2, Ha.
Qed.

Lemma collect_imap_returns {A C} (f : nat → A → Outcome C) (l : list A) :
  (∀ i a, l !! i = Some a → ∃ c, f i a = Ret c) →
  ∃ rs, collect (imap f l) = Ret rs ∧ length rs = length l.
Proof.
  intros Hf.
  destruct (collect_Forall2 (λ (_ : A) (_ : C), True) l (imap f l))
    as (rs & Hrs & Hall).
  - apply Forall2_same_length_lookup_2; [now rewrite length_imap |].
    intros i a m Ha Hm. rewrite list_lookup_imap, Ha in Hm.
    injection Hm as <-. destruct (Hf i a Ha) as [c ->]. eauto.
  - exists rs. split; [exact Hrs |]. symmetry. exact (Forall2_length _ _ _ Hall).
Qed.

(** The samples behind what the ranks report and send. *)
Lemma samples_of_group (n_attr : Z) (owned : list TableType)
    (sampled : list (list Z * list Qc * Rng)) :
  Forall2 (λ (o : TableType) s,
             ∃ columns : list DensePoint,
               s.1.2 = flatten columns
               ∧ size_of columns = size_of s.1.1
               ∧ 1 ≤ size_of s.1.1
               ∧ Forall (λ column, size_of column = n_attr) columns)
    owned sampled →
  ∃ samples : list (list DensePoint),
    (λ s, size_of s.1.1) <$> sampled = size_of <$> samples
    ∧ (λ s, s.1.2) <$> sampled = flatten <$> samples
    ∧ Forall (Forall (λ column, size_of column = n_attr)) samples
    ∧ Forall (λ sample, 1 ≤ size_of sample) samples
    ∧ length samples = length owned.
Proof.
  induction 1 as [| o s owned sampled (columns & Hbuf & Hsize & Hone & Hcol) _
                    (samples & Hcounts & Hbufs & Hall & Hones & Hlen)].
  - exists []. repeat split; constructor.
  - exists (columns :: samples). rewrite !fmap_cons.
    rewrite Hcounts, Hbufs, Hbuf, Hsize.
    split; [reflexivity | split; [reflexivity |]].
    split; [now constructor | split; [constructor; [lia | exact Hones] |]].
    simpl. now rewrite Hlen.
Qed.

Lemma total_of_samples (samples : list (list DensePoint)) :
  samples ≠ [] → Forall (λ sample, 1 ≤ size_of sample) samples →
  0 < foldr Z.add 0 (size_of <$> samples).
Proof.
  intros Hne Hall.
  assert (0 ≤ foldr Z.add 0 (size_of <$> samples)
          ∧ (samples ≠ [] → 0 < foldr Z.add 0 (size_of <$> samples)))
    as [_ Hpos]; [| now apply Hpos].
  clear Hne. induction Hall as [| sample samples Hs _ [IH _]];
    [split; [simpl; lia | congruence] |].
  rewrite fmap_cons. cbn [foldr]. lia.
Qed.

Lemma IndexData_targets_returns {sampler : SampleTreeBuilder}
    {metric : MidDistance} {solvers : DistributedSolvers} (p : Qc)
    (procs : list (DistributedTable * Rng)) (owned : list TableType)
    (n_attr : Z) :
  owned_tables procs.*1 = Ret owned →
  size_of procs = 1
  ∨ Forall (λ t, table_outbox_group_comm_size_ t = size_of procs) procs.*1 →
  Forall (λ o, 1 ≤ n_entries o < 2 ^ 53
               ∧ n_attributes o = n_attr
               ∧ Forall (λ column, size_of column = n_attr) (data o)) owned →
  (p ≤ 1)%Qc →
  (∀ leaf point, (MidDistanceSq leaf point < DBL_MAX)%Qc) →
  ∃ targets tapes,
    IndexData_targets p procs = Ret (targets, tapes)
    ∧ length targets = length procs
    ∧ length tapes = length procs.
Proof.
  intros Howned Hrecorded Hshards Hp Hfinite.
  pose proof (owned_tables_length _ _ Howned) as Hlen.
  rewrite length_fmap in Hlen.
  unfold IndexData_targets. rewrite Howned. simpl.
  destruct (collect_zip_with_returns
              (λ (o : TableType) (s : list Z * list Qc * Rng),
                 ∃ columns : list DensePoint,
                   s.1.2 = flatten columns
                   ∧ size_of columns = size_of s.1.1
                   ∧ 1 ≤ size_of s.1.1
                   ∧ Forall (λ column, size_of column = n_attr) columns)
              (draw_sample p) owned procs.*2)
    as (sampled & -> & Hsampled).
  { rewrite length_fmap. lia. }
  { intros o g Ho. rewrite Forall_forall in Hshards.
    destruct (Hshards o Ho) as (Hn & Hattr & Hmatrix).
    rewrite <- Hattr in Hmatrix.
    destruct (draw_sample_returns p o g Hn Hp Hmatrix)
      as (idx & columns & g' & Hrun & Hsize & Hone & Hcol).
    eexists. split; [exact Hrun |]. exists columns. simpl.
    rewrite <- Hattr. auto. }
  simpl. pose proof (Forall2_length _ _ _ Hsampled) as Hlens.
  destruct owned as [| root rest] eqn:Hroot.
  { exists [], []. simpl in Hlen. split; [reflexivity |]. split; simpl; lia. }
  rewrite <- Hroot in *.
  assert (0 < length owned)%nat as Hpos by (rewrite Hroot; simpl; lia).
  destruct (samples_of_group n_attr owned sampled Hsampled)
    as (samples & -> & -> & Hall & Hones & Hlen').
  assert (samples ≠ []) as Hne.
  { intros ->. rewrite Hroot in Hlen'. discriminate Hlen'. }
  assert (n_attributes root = n_attr ∧ 0 ≤ n_attr) as [Hattr Hnn].
  { rewrite Hroot in Hshards.
    apply Forall_cons in Hshards as [(Hn & Hattr & Hmatrix) _].
    split; [exact Hattr |]. unfold n_entries in Hn.
    destruct (data root) as [| column columns];
      [unfold size_of in Hn; simpl in Hn; lia |].
    apply Forall_cons in Hmatrix as [<- _]. unfold size_of. lia. }
  rewrite Hattr, (assemble_sample_table_fills n_attr samples Hnn Hne Hall).
  simpl.
  set (top_leaf_nodes := sample_leaf_nodes _ _ _ _).
  assert (top_leaf_nodes ≠ []) as Htop.
  { apply sample_leaf_nodes_nonempty. now apply total_of_samples. }
  destruct (collect_zip_with_returns
              (λ (to : DistributedTable * TableType)
                 (v : list TreeType * list Qc * Rng),
                 v.1.1 ≠ [] ∧ length v.1.2 = length v.1.1
                 ∧ size_of procs ≤ size_of v.1.1)
              (λ to (s : list Z * list Qc * Rng),
                 candidate_votes (size_of procs) to.1 to.2 top_leaf_nodes s.2)
              (zip procs.*1 owned) sampled)
    as (voted & -> & Hvoted).
  { rewrite length_zip, length_fmap. lia. }
  { intros [t o] s Hin. simpl.
    destruct (candidate_votes_returns (size_of procs) t o top_leaf_nodes s.2
                Htop Hfinite) as (padded & votes & g' & Hrun & H1 & H2 & H3).
    eexists. split; [exact Hrun |]. simpl.
    split; [exact H1 | split; [exact H2 |]].
    destruct Hrecorded as [Hone | Hrecorded].
    - rewrite Hone. unfold size_of. destruct padded; [congruence | simpl; lia].
    - apply H3. rewrite Forall_forall in Hrecorded. apply Hrecorded.
      apply elem_of_zip_l in Hin. exact Hin. }
  simpl. pose proof (Forall2_length _ _ _ Hvoted) as Hlenv.
  rewrite length_zip, length_fmap in Hlenv.
  destruct (collect_imap_returns
              (λ r (v : list TreeType * list Qc * Rng),
                 assigned_centroid
                   (Auction_Assign ((λ v, v.1.2) <$> voted) (Z.of_nat r))
                   (size_of procs) v.1.1 v.1.2) voted)
    as (targets & -> & Hlent).
  { intros i v Hv.
    destruct (Forall2_lookup_r _ _ _ _ _ Hvoted Hv) as (to & _ & H1 & H2 & H3).
    replace (size_of procs)
      with (size_of ((λ v : list TreeType * list Qc * Rng, v.1.2) <$> voted))
      in * by (unfold size_of; rewrite length_fmap; lia).
    apply assigned_centroid_returns; [exact H1 | exact H2 |].
    split; [| exact H3]. unfold size_of. rewrite length_fmap. lia. }
  simpl. exists targets, ((λ v, v.2) <$> voted).
  split; [reflexivity |]. rewrite length_fmap. lia.
Qed.

Lemma IndexData_targets_lengths {sampler : SampleTreeBuilder}
    {metric : MidDistance} {solvers : DistributedSolvers} (p : Qc)
    (procs : list (DistributedTable * Rng)) (targets : list DensePoint)
    (tapes : list Rng) :
  IndexData_targets p procs = Ret (targets, tapes) →
  length targets = length procs ∧ length tapes = length procs.
Proof.
  unfold IndexData_targets. intros Hrun.
  destruct (owned_tables procs.*1) as [owned |] eqn:Howned;
    [simpl in Hrun | discriminate Hrun].
  pose proof (owned_tables_length _ _ Howned) as Hlen.
  rewrite length_fmap in Hlen.
  destruct (collect (zip_with _ owned _)) as [sampled |] eqn:Hsampled;
    [simpl in Hrun | discriminate Hrun].
  apply collect_length in Hsampled.
  rewrite length_zip_with, length_fmap in Hsampled.
  destruct owned as [| root rest] eqn:Hroot.
  { injection Hrun as <- <-. simpl in Hlen. simpl. lia. }
  rewrite <- Hroot in *.
  destruct (assemble_sample_table _ _ _) as [[matrix offset] |];
    [simpl in Hrun | discriminate Hrun].
  destruct (collect (zip_with _ _ sampled)) as [voted |] eqn:Hvoted;
    [simpl in Hrun | discriminate Hrun].
  apply collect_length in Hvoted.
  rewrite length_zip_with, length_zip, length_fmap in Hvoted.
  destruct (collect (imap _ voted)) as [centroids |] eqn:Hcentroids;
    [simpl in Hrun | discriminate Hrun].
  apply collect_length in Hcentroids. rewrite length_imap in Hcentroids.
  injection Hrun as <- <-. rewrite length_fmap. lia.
Qed.

(** ** [IndexData] over the group: from the migration on *)

Lemma migrate_and_index_state {builder : LocalTreeBuilder} (leaf_size : Z)
    (tables tables' : list DistributedTable) (kms : list KMeansResult) :
  length kms = length tables →
  migrate_and_index leaf_size tables kms = Ret tables' →
  ∃ owned',
    owned_tables tables' = Ret owned'
    ∧ length tables' = length tables
    ∧ Forall (λ t, is_Some (local_n_entries_ t)) tables
    ∧ Forall (λ t', IsIndexed t' = Ret true
                    ∧ local_n_entries_ t' = Some (n_entries <$> owned'))
        tables'.
Proof.
  unfold migrate_and_index. intros Hkms Hrun.
  destruct (owned_tables tables) as [owned |] eqn:Howned;
    [simpl in Hrun | discriminate Hrun].
  destruct (collect (ReadjustCentroids_group (zip owned kms)))
    as [moved |] eqn:Hmoved; [simpl in Hrun | discriminate Hrun].
  set (shards := (λ m : TableType * list (Inflow * Z),
                    Table_IndexData m.1 leaf_size) <$> moved) in *.
  destruct (collect ((λ s, deref (get_tree s)) <$> shards))
    as [roots |] eqn:Hroots; [simpl in Hrun | discriminate Hrun].
  destruct (collect ((λ t, deref (local_n_entries_ t)) <$> tables))
    as [dirs |] eqn:Hdirs; [simpl in Hrun | discriminate Hrun].
  injection Hrun as <-.
  assert (length shards = length tables) as Hlen.
  { unfold shards. rewrite length_fmap, (collect_length _ _ Hmoved).
    unfold ReadjustCentroids_group. rewrite length_imap, length_zip.
    pose proof (owned_tables_length _ _ Howned). lia. }
  exists shards. split; [| split; [| split]].
  - apply owned_tables_zip_with; [reflexivity | lia].
  - rewrite length_zip_with. lia.
  - apply collect_Forall2_Ret, Forall2_fmap_l in Hdirs.
    apply Forall_forall. intros t (i & Hi)%list_elem_of_lookup_1.
    destruct (Forall2_lookup_l _ _ _ _ _ Hdirs Hi) as (dir & _ & Hdir).
    simpl in Hdir. destruct (local_n_entries_ t); [eauto | discriminate Hdir].
  - apply Forall_forall. intros t' Hin.
    apply elem_of_zip_with in Hin as (t & s & -> & _ & _).
    split; [| reflexivity]. unfold IsIndexed. simpl.
    now rewrite bool_decide_true by apply Table_IndexData_tree.
Qed.

Lemma length_Compute_group {solvers : DistributedSolvers}
    (owned : list TableType) (targets : list DensePoint) :
  length owned = length targets →
  length (Compute_group (zip owned targets)) = length owned.
Proof.
  intros Hlen. unfold Compute_group. rewrite length_imap, length_zip. lia.
Qed.

Section Group.

Context {builder : LocalTreeBuilder} {sampler : SampleTreeBuilder}
  {metric : MidDistance} {solvers : DistributedSolvers}.

Lemma IndexData_group_inv (leaf_size : Z) (p : Qc)
    (procs procs' : list (DistributedTable * Rng)) :
  IndexData_group leaf_size p procs = Ret procs' →
  ∃ owned targets tapes,
    owned_tables procs.*1 = Ret owned
    ∧ IndexData_targets p procs = Ret (targets, tapes)
    ∧ length (Compute_group (zip owned targets)) = length procs.*1
    ∧ migrate_and_index leaf_size procs.*1 (Compute_group (zip owned targets))
      = Ret procs'.*1
    ∧ procs'.*2 = tapes
    ∧ length procs' = length procs.
Proof.
  unfold IndexData_group. intros Hrun.
  destruct (owned_tables procs.*1) as [owned |] eqn:Howned;
    [simpl in Hrun | discriminate Hrun].
  destruct (IndexData_targets p procs) as [[targets tapes] |] eqn:Htargets;
    [simpl in Hrun | discriminate Hrun].
  destruct (migrate_and_index _ _ _) as [tables' |] eqn:Hmig;
    [simpl in Hrun | discriminate Hrun].
  injection Hrun as <-.
  pose proof (owned_tables_length _ _ Howned) as Hlen.
  destruct (IndexData_targets_lengths _ _ _ _ Htargets) as [Hlent Hlentapes].
  rewrite length_fmap in Hlen.
  assert (length (Compute_group (zip owned targets)) = length procs.*1)
    as Hkms.
  { rewrite length_Compute_group, length_fmap; lia. }
  destruct (migrate_and_index_state _ _ _ _ Hkms Hmig) as (_ & _ & Hlen' & _).
  rewrite length_fmap in Hlen'.
  exists owned, targets, tapes.
  split; [reflexivity | split; [reflexivity | split; [exact Hkms |]]].
  rewrite fst_zip, snd_zip by lia.
  split; [exact Hmig | split; [reflexivity |]]. rewrite length_zip. lia.
Qed.

Lemma IndexData_group_run (leaf_size : Z) (p : Qc)
    (procs : list (DistributedTable * Rng)) (owned : list TableType)
    (targets : list DensePoint) (tapes : list Rng)
    (tables' : list DistributedTable) :
  owned_tables procs.*1 = Ret owned →
  IndexData_targets p procs = Ret (targets, tapes) →
  migrate_and_index leaf_size procs.*1 (Compute_group (zip owned targets))
  = Ret tables' →
  IndexData_group leaf_size p procs = Ret (zip tables' tapes).
Proof.
  intros Howned Htargets Hmig. unfold IndexData_group.
  rewrite Howned. simpl. rewrite Htargets. simpl. now rewrite Hmig.
Qed.

Lemma IndexData_group_conserves (leaf_size : Z) (p : Qc)
    (procs : list (DistributedTable * Rng)) (owned : list TableType)
    (targets : list DensePoint) (tapes : list Rng) :
  owned_tables procs.*1 = Ret owned →
  Forall (λ t, is_Some (local_n_entries_ t)) procs.*1 →
  IndexData_targets p procs = Ret (targets, tapes) →
  solver_consistent (zip owned (Compute_group (zip owned targets))) →
  ∃ procs' owned',
    IndexData_group leaf_size p procs = Ret procs'
    ∧ owned_tables procs'.*1 = Ret owned'
    ∧ procs'.*2 = tapes
    ∧ length procs' = length procs
    ∧ all_points owned' ≡ₚ all_points owned
    ∧ total_entries owned' = total_entries owned.
Proof.
  intros Howned Hdir Htargets Hcons.
  pose proof (owned_tables_length _ _ Howned) as Hlen.
  destruct (IndexData_targets_lengths _ _ _ _ Htargets) as [Hlent Hlentapes].
  rewrite length_fmap in Hlen.
  destruct (migrate_and_index_returns leaf_size procs.*1 owned
              (Compute_group (zip owned targets)) Howned Hdir)
    as (tables' & owned' & Hrun & Hown' & Hlen' & Hperm & Htotal & _);
    [rewrite length_Compute_group, length_fmap; lia | exact Hcons |].
  rewrite length_fmap in Hlen'.
  exists (zip tables' tapes), owned'.
  rewrite fst_zip, snd_zip, length_zip by lia.
  split; [now apply (IndexData_group_run _ _ _ owned targets) |].
  split; [exact Hown' | split; [reflexivity | split; [lia | auto]]].
Qed.

End Group.


Lemma example_distances_finite (leaf : TreeType) (point : DensePoint) :
  (MidDistanceSq (MidDistance := example_bounded_MidDistance) leaf point
   < DBL_MAX (MidDistance := example_bounded_MidDistance))%Qc.
Proof.
  simpl. destruct (bound_center leaf) as [| a ?], point as [| b ?];
    try reflexivity.
  case_decide as Hd; [| reflexivity].
  eapply Qclt_trans; [exact Hd | reflexivity].
Qed.


(** ** A group of one *)




(** ** The state [IndexData] leaves behind *)

Section After.

Context {builder : LocalTreeBuilder} {sampler : SampleTreeBuilder}
  {metric : MidDistance} {solvers : DistributedSolvers}.

(** X5.  [IndexData] refreshes the directory: once it has run on a group
    whose tables were initialised for that group, every rank answers
    [local_n_entries(r)] with the size of the new shard of rank [r], for
    every rank [r] of the group, and the table is indexed on every rank. *)
Theorem directory_after_IndexData (leaf_size : Z) (p : Qc)
    (procs procs' : list (DistributedTable * Rng)) :
  Forall (λ t, table_outbox_group_comm_size_ t = size_of procs) procs.*1 →
  IndexData_group leaf_size p procs = Ret procs' →
  ∃ owned',
    owned_tables procs'.*1 = Ret owned'
    ∧ length owned' = length procs
    ∧ ∀ t', t' ∈ procs'.*1 →
        IsIndexed t' = Ret true
        ∧ ∀ r shard, owned' !! r = Some shard →
            local_n_entries t' (Z.of_nat r) = (Ret (n_entries shard), None).
Proof.
  intros Hsize Hrun.
  destruct (IndexData_group_inv _ _ _ _ Hrun)
    as (owned & targets & tapes & _ & _ & Hkms & Hmig & _ & Hlen).
  destruct (migrate_and_index_state _ _ _ _ Hkms Hmig)
    as (owned' & Hown' & _ & _ & Hstate).
  pose proof (migrate_and_index_keeps_comm_size _ _ _ _ _ Hmig Hsize) as Hsize'.
  pose proof (owned_tables_length _ _ Hown') as Hlen'.
  rewrite length_fmap in Hlen'.
  exists owned'. split; [exact Hown' | split; [lia |]].
  intros t' Hin. rewrite Forall_forall in Hstate, Hsize'.
  destruct (Hstate t' Hin) as [Hidx Hd]. specialize (Hsize' t' Hin).
  split; [exact Hidx |]. intros r shard Hr.
  destruct (local_n_entries_within t' (n_entries <$> owned') (Z.of_nat r))
    as (n & Hn & ->).
  - exact Hd.
  - rewrite Hsize'. unfold size_of. rewrite length_fmap. lia.
  - rewrite Hsize'. unfold size_of. apply lookup_lt_Some in Hr. lia.
  - rewrite Nat2Z.id, list_lookup_fmap, Hr in Hn. now injection Hn as <-.
Qed.

(** X6.  When [IndexData] has run on a group, the global table of every
    rank holds exactly one column per rank of the group, and these columns
    are, up to the order the tree builder gives them, the centres of the
    roots of the trees of the new shards. *)
Theorem global_table_after_IndexData (leaf_size : Z) (p : Qc)
    (procs procs' : list (DistributedTable * Rng)) :
  IndexData_group leaf_size p procs = Ret procs' →
  ∃ owned' roots,
    owned_tables procs'.*1 = Ret owned'
    ∧ Forall2 (λ shard root, get_tree shard = Some root) owned' roots
    ∧ ∀ t', t' ∈ procs'.*1 →
        ∃ gt, global_table_ t' = Some gt
              ∧ n_entries gt = size_of procs
              ∧ data gt ≡ₚ bound_center <$> roots.
Proof.
  intros Hrun.
  destruct (IndexData_group_inv _ _ _ _ Hrun)
    as (owned & targets & tapes & _ & _ & Hkms & Hmig & _ & _).
  destruct (migrate_and_index_global_table _ _ _ _ Hkms Hmig)
    as (owned' & roots & Hown' & Hroots & Hglobal).
  exists owned', roots. split; [exact Hown' | split; [exact Hroots |]].
  intros t' Hin. destruct (Hglobal t' Hin) as (gt & Hgt & Hn & Hdata).
  exists gt. split; [exact Hgt | split; [| exact Hdata]].
  rewrite Hn. unfold size_of. now rewrite length_fmap.
Qed.

(** X17.  Once [IndexData] has run on a group, every rank owns exactly as
    many points as the clustering solver announced for it, whatever arrived:
    [n_entries()] of rank [r] is the total the solver answered at rank [r]
    (when that total is not negative), and the local tree build leaves it
    so. *)
Theorem shard_sizes_are_the_solvers_totals (leaf_size : Z) (p : Qc)
    (procs procs' : list (DistributedTable * Rng)) (owned : list TableType)
    (targets : list DensePoint) (tapes : list Rng) :
  owned_tables procs.*1 = Ret owned →
  IndexData_targets p procs = Ret (targets, tapes) →
  IndexData_group leaf_size p procs = Ret procs' →
  Forall2 (λ km t',
             0 ≤ total_num_points_owned km →
             DistributedTable_n_entries t' = Ret (total_num_points_owned km))
    (Compute_group (zip owned targets)) procs'.*1.
Proof.
  intros Howned Htargets Hrun.
  destruct (IndexData_group_inv _ _ _ _ Hrun)
    as (owned0 & targets0 & tapes0 & Howned0 & Htargets0 & Hkms & Hmig & _).
  rewrite Howned in Howned0. injection Howned0 as <-.
  rewrite Htargets in Htargets0. injection Htargets0 as <- <-.
  exact (migrate_and_index_sizes _ _ _ _ Hkms Hmig).
Qed.

(** X18.  [IndexData] takes for granted that [Init] has run: when some rank
    of the group has no owned table, the call dereferences the null
    [owned_table_] in its first statement, no table of the group is
    replaced, and [n_entries()] and [n_attributes()] fail on that rank in
    the same way. *)
Theorem IndexData_before_Init (leaf_size : Z) (p : Qc)
    (procs : list (DistributedTable * Rng)) :
  Exists (λ t, owned_table_ t = None) procs.*1 →
  IndexData_group leaf_size p procs = Fault NullDereference
  ∧ Exists (λ t, DistributedTable_n_entries t = Fault NullDereference
                 ∧ DistributedTable_n_attributes t = Fault NullDereference)
      procs.*1.
Proof.
  intros Hnone. split.
  - unfold IndexData_group. now rewrite owned_tables_before_Init.
  - eapply Exists_impl; [exact Hnone |]. intros t Ht.
    unfold DistributedTable_n_entries, DistributedTable_n_attributes.
    now rewrite Ht.
Qed.

End After.

Lemma directory_after_IndexData_witness :
  ∃ procs' owned',
    example_IndexData (Q2Qc (1 # 2)) example_procs = Ret procs'
    ∧ owned_tables procs'.*1 = Ret owned'
    ∧ ∀ t', t' ∈ procs'.*1 →
        IsIndexed t' = Ret true
        ∧ ∀ r shard, owned' !! r = Some shard →
            local_n_entries t' (Z.of_nat r) = (Ret (n_entries shard), None).
Proof.
  destruct (example_IndexData (Q2Qc (1 # 2)) example_procs)
    as [procs' |] eqn:Hrun.
  - destruct (directory_after_IndexData
                (builder := example_LocalTreeBuilder)
                (sampler := example_SampleTreeBuilder)
                (metric := example_bounded_MidDistance)
                (solvers := example_DistributedSolvers) 2 (Q2Qc (1 # 2))
                example_procs procs')
      as (owned' & Hown & _ & Hdir); [repeat constructor | exact Hrun |].
    exists procs', owned'. auto.
  - vm_compute in Hrun. discriminate Hrun.
Defined.

Lemma global_table_after_IndexData_witness :
  ∃ procs' owned' roots,
    example_IndexData (Q2Qc (1 # 2)) example_procs = Ret procs'
    ∧ owned_tables procs'.*1 = Ret owned'
    ∧ Forall2 (λ shard root, get_tree shard = Some root) owned' roots
    ∧ ∀ t', t' ∈ procs'.*1 →
        ∃ gt, global_table_ t' = Some gt
              ∧ n_entries gt = 3
              ∧ data gt ≡ₚ bound_center <$> roots.
Proof.
  destruct (example_IndexData (Q2Qc (1 # 2)) example_procs)
    as [procs' |] eqn:Hrun.
  - destruct (global_table_after_IndexData
                (builder := example_LocalTreeBuilder)
                (sampler := example_SampleTreeBuilder)
                (metric := example_bounded_MidDistance)
                (solvers := example_DistributedSolvers) 2 (Q2Qc (1 # 2))
                example_procs procs' Hrun) as (owned' & roots & Hown & Hroots & Hglobal).
    exists procs', owned', roots. auto.
  - vm_compute in Hrun. discriminate Hrun.
Defined.

Lemma shard_sizes_are_the_solvers_totals_witness :
  ∃ procs' targets tapes,
    example_IndexData_targets (Q2Qc (1 # 2)) example_procs
    = Ret (targets, tapes)
    ∧ example_IndexData (Q2Qc (1 # 2)) example_procs = Ret procs'
    ∧ Forall2 (λ km t',
                 0 ≤ total_num_points_owned km →
                 DistributedTable_n_entries t'
                 = Ret (total_num_points_owned km))
        (Compute_group (solvers := example_DistributedSolvers)
           (zip example_group.*1 targets)) procs'.*1.
Proof.
  destruct (example_IndexData_targets (Q2Qc (1 # 2)) example_procs)
    as [[targets tapes] |] eqn:Htargets.
  - destruct (example_IndexData (Q2Qc (1 # 2)) example_procs)
      as [procs' |] eqn:Hrun.
    + exists procs', targets, tapes. split; [reflexivity |].
      split; [reflexivity |].
      exact (shard_sizes_are_the_solvers_totals
               (builder := example_LocalTreeBuilder)
               (sampler := example_SampleTreeBuilder)
               (metric := example_bounded_MidDistance)
               (solvers := example_DistributedSolvers) 2 (Q2Qc (1 # 2))
               example_procs procs' example_group.*1 targets tapes
               eq_refl Htargets Hrun).
    + vm_compute in Hrun. discriminate Hrun.
  - vm_compute in Htargets. discriminate Htargets.
Defined.

Lemma IndexData_before_Init_witness :
  example_IndexData (Q2Qc (1 # 2)) [(DistributedTable_new, [3; 1; 4])]
  = Fault NullDereference.
Proof.
  apply (IndexData_before_Init (builder := example_LocalTreeBuilder)
           (sampler := example_SampleTreeBuilder)
           (metric := example_bounded_MidDistance)
           (solvers := example_DistributedSolvers) 2 (Q2Qc (1 # 2))
           [(DistributedTable_new, [3; 1; 4])]).
  apply Exists_cons_hd. reflexivity.
Defined.

(** ** The cursor on the table [IndexData] leaves behind *)

Lemma Next_runs_past_window_witness :
  ∃ t' g' rest entry point_id,
    example_IndexData (Q2Qc (1 # 2)) example_procs = Ret ((t', g') :: rest)
    ∧ HasNext (advance (advance (get_node_iterator_range 0 2))) = false
    ∧ Next (util := example_IndexUtil)
        (advance (advance (get_node_iterator_range 0 2))) t'
      = Ret (advance (advance (advance (get_node_iterator_range 0 2))),
             entry, point_id).
Proof.
  destruct (example_IndexData (Q2Qc (1 # 2)) example_procs)
    as [[| [t' g'] rest] |] eqn:Hrun;
    [vm_compute in Hrun; discriminate Hrun | |
     vm_compute in Hrun; discriminate Hrun].
  assert (∃ gt, global_table_ t' = Some gt
                ∧ 2 < size_of (data gt)
                ∧ 2 < size_of (old_from_new gt)) as (gt & Hgt & Hd & Ho).
  { vm_compute in Hrun. injection Hrun as <- _ _.
    eexists. split; [reflexivity | split; vm_compute; reflexivity]. }
  destruct (Next_runs_past_window (util := example_IndexUtil)
              (advance (advance (get_node_iterator_range 0 2)))
              t' gt Hgt eq_refl ltac:(simpl; lia)) as (Hno & Hin & _).
  destruct Hin as (entry & point_id & Hnext & _);
    [exact Hd | intros _; exact Ho |].
  exists t', g', rest, entry, point_id.
  split; [reflexivity | split; [exact Hno | exact Hnext]].
Defined.

Lemma migrate_and_index_summary {builder : LocalTreeBuilder} (leaf_size : Z)
    (tables tables' : list DistributedTable) (kms : list KMeansResult) :
  length kms = length tables →
  migrate_and_index leaf_size tables kms = Ret tables' →
  ∀ t', t' ∈ tables' →
    ∃ summary,
      global_table_ t' = Some (Table_IndexData summary 1)
      ∧ n_entries summary = size_of tables.
Proof.
  unfold migrate_and_index. intros Hkms Hrun.
  destruct (owned_tables tables) as [owned |] eqn:Howned;
    [simpl in Hrun | discriminate Hrun].
  destruct (collect (ReadjustCentroids_group (zip owned kms)))
    as [moved |] eqn:Hmoved; [simpl in Hrun | discriminate Hrun].
  set (shards := (λ m : TableType * list (Inflow * Z),
                    Table_IndexData m.1 leaf_size) <$> moved) in *.
  destruct (collect ((λ s, deref (get_tree s)) <$> shards))
    as [roots |] eqn:Hroots; [simpl in Hrun | discriminate Hrun].
  destruct (collect ((λ t, deref (local_n_entries_ t)) <$> tables))
    as [dirs |]; [simpl in Hrun | discriminate Hrun].
  injection Hrun as <-.
  assert (length roots = length tables) as Hlen.
  { rewrite (collect_length _ _ Hroots). unfold shards.
    rewrite !length_fmap, (collect_length _ _ Hmoved).
    unfold ReadjustCentroids_group. rewrite length_imap, length_zip.
    pose proof (owned_tables_length _ _ Howned). lia. }
  intros t' Hin. apply elem_of_zip_with in Hin as (t & s & -> & _ & _).
  eexists. split; [reflexivity |].
  unfold n_entries, size_of. simpl. rewrite length_fmap. lia.
Qed.

Section Cursor.

Context {util : IndexUtil} {builder : LocalTreeBuilder}
  {sampler : SampleTreeBuilder} {metric : MidDistance}
  {solvers : DistributedSolvers}.

(** X3.  On the table [IndexData] leaves behind, the identifier a cursor
    hands out leads [direct_get_] back to the point the cursor hands out
    with it: for every position of the global table, [iterator_get_id_]
    resolves an identifier, and [direct_get_] of that identifier returns the
    column [iterator_get_] returns at the position, provided the two
    permutation arrays the tree builder records are inverse to each
    other. *)
Theorem direct_get_of_cursor_id (leaf_size : Z) (p : Qc)
    (procs procs' : list (DistributedTable * Rng)) (t' : DistributedTable)
    (position : Z) :
  permutations_inverse →
  IndexData_group leaf_size p procs = Ret procs' →
  t' ∈ procs'.*1 →
  0 ≤ position < size_of procs →
  ∃ point_id column,
    iterator_get_id_ t' position = Ret point_id
    ∧ iterator_get_ t' position = Ret column
    ∧ direct_get_ t' point_id = Ret column.
Proof.
  intros Hinverse Hrun Hin Hposition.
  destruct (IndexData_group_inv _ _ _ _ Hrun)
    as (owned & targets & tapes & _ & _ & Hkms & Hmig & _ & _).
  destruct (migrate_and_index_summary _ _ _ _ Hkms Hmig t' Hin)
    as (summary & Hgt & Hn).
  unfold size_of in Hn, Hposition. rewrite length_fmap in Hn.
  destruct (Hinverse summary 1 position) as (e & He & Hback); [lia |].
  assert (is_Some (get_tree (Table_IndexData summary 1))) as Htree
    by apply Table_IndexData_tree.
  destruct (at_index_in_range (data (Table_IndexData summary 1)) position)
    as (column & Hcolumn & _).
  { unfold size_of. rewrite (Permutation_length (Table_IndexData_data _ 1)).
    unfold n_entries, size_of in Hn. lia. }
  exists (entry_point_id e), column. split; [| split].
  - rewrite (iterator_get_id_indexed t' _ position Hgt Htree).
    apply Extract_at; [lia | exact He].
  - unfold iterator_get_, MakeColumnVector. now rewrite Hgt.
  - unfold direct_get_. rewrite (IsIndexed_with_summary t' _ Hgt), Hgt. simpl.
    rewrite bool_decide_true by exact Htree. simpl. rewrite Hback. simpl.
    exact Hcolumn.
Qed.

End Cursor.

Lemma example_recording_inverse :
  permutations_inverse (util := example_IndexUtil)
    (builder := example_recording_builder).
Proof.
  intros t leaf_size position Hposition. simpl.
  unfold identity_permutation.
  exists (0, (position, 0)). split.
  - rewrite list_lookup_fmap, (lookup_seqZ_lt _ _ (Z.to_nat position)) by lia.
    simpl. do 3 f_equal. lia.
  - change (entry_point_id (0, (position, 0))) with position.
    rewrite (Extract_at _ position (0, (position, 0))); [reflexivity | lia |].
    rewrite list_lookup_fmap, (lookup_seqZ_lt _ _ (Z.to_nat position)) by lia.
    simpl. do 3 f_equal. lia.
Qed.

Lemma direct_get_of_cursor_id_witness :
  ∃ t' g' rest point_id column,
    IndexData_group (builder := example_recording_builder)
      (sampler := example_SampleTreeBuilder)
      (metric := example_bounded_MidDistance)
      (solvers := example_DistributedSolvers) 2 (Q2Qc (1 # 2)) example_procs
    = Ret ((t', g') :: rest)
    ∧ iterator_get_id_ (util := example_IndexUtil) t' 2 = Ret point_id
    ∧ iterator_get_ t' 2 = Ret column
    ∧ direct_get_ (util := example_IndexUtil) t' point_id = Ret column.
Proof.
  destruct (IndexData_group (builder := example_recording_builder)
              (sampler := example_SampleTreeBuilder)
              (metric := example_bounded_MidDistance)
              (solvers := example_DistributedSolvers) 2 (Q2Qc (1 # 2))
              example_procs) as [[| [t' g'] rest] |] eqn:Hrun;
    [vm_compute in Hrun; discriminate Hrun | |
     vm_compute in Hrun; discriminate Hrun].
  destruct (direct_get_of_cursor_id (util := example_IndexUtil)
              (builder := example_recording_builder)
              (sampler := example_SampleTreeBuilder)
              (metric := example_bounded_MidDistance)
              (solvers := example_DistributedSolvers) 2 (Q2Qc (1 # 2))
              example_procs ((t', g') :: rest) t' 2
              example_recording_inverse Hrun)
    as (point_id & column & Hid & Hget & Hdirect).
  - simpl. apply list_elem_of_here.
  - vm_compute. split; [discriminate | reflexivity].
  - exists t', g', rest, point_id, column. auto.
Defined.
